(** * Client-side interactivity of the portfolio site: model and properties

    The development embeds the two scripts of the site:

    - the standalone header script (class [Header], overlay variant, the
      one that saves and restores the scroll offset), and
    - [js/main.js] (classes [ScrollAnimations], [Portfolio],
      [PerformanceOptimizer], [MiniPolaroids], [FooterAnimations], [App]).

    Conventions.  JavaScript numbers that hold pixel offsets, sizes and
    [Date.now()] stamps are integers ([Z]); the numbers of the statistic
    counter are binary64 values with the rounding of each operation
    (module [Number]).  A [classList] is a finite set
    of strings.  Calls into the browser that matter for ordering are
    recorded in a call log, oldest first.  Mutable objects are threaded
    explicitly; handlers that can throw live in a small state-and-exception
    monad in which a throw keeps the writes made before it. *)

From Stdlib Require Import ZArith QArith Qround Qminmax Qabs Qpower Lia Lqa Ascii String Sorted.
From Stdlib Require SpecFloat.
From stdpp Require Import base decidable functions gmap strings list pretty.

Local Open Scope Z_scope.

(** ** Small JavaScript helpers *)

Module Js.

(** [a || b] on numbers: [0] is falsy. *)
Definition or_num (a b : Z) : Z := if Z.eqb a 0 then b else a.

(** [classList.add], [classList.remove], [classList.toggle],
    [classList.contains]. *)
Definition cl_add (c : string) (s : gset string) : gset string := s ∪ {[c]}.
Definition cl_remove (c : string) (s : gset string) : gset string := s ∖ {[c]}.
Definition cl_contains (c : string) (s : gset string) : bool := bool_decide (c ∈ s).
Definition cl_toggle (c : string) (s : gset string) : gset string :=
  if cl_contains c s then cl_remove c s else cl_add c s.

(** [String(b)] for a boolean, as [setAttribute] stores it. *)
Definition string_of_bool (b : bool) : string := if b then "true" else "false".

(** [Math.max(0, Math.min(v, hi))]. *)
Definition clamp0 (v hi : Z) : Z := Z.max 0 (Z.min v hi).

End Js.

(** ** The header (overlay variant)

    The header script comes in two near-identical versions.  The one
    embedded here is the version with the full-screen overlay: it is the
    only one that stores [scrollPosition] and calls [disableScroll] and
    [enableScroll]; [handleScroll], [handleSmoothScroll] and [throttle]
    read the same in both.  The page is one on which [#header], the
    [.menu-toggle] and [#navOverlay] exist: without them [init] registers
    no toggle listener and the menu cannot open. *)

Module Header.

Module HEADER_CONFIG.
Definition SCROLL_THRESHOLD : Z := 50.
Definition DEBOUNCE_DELAY : Z := 16.
End HEADER_CONFIG.

(** The elements whose class lists the header script writes. *)
Inductive Elem := DocumentElement | Body | HeaderEl | MenuToggle | NavOverlay.

#[global] Instance Elem_eq_dec : EqDecision Elem.
Proof. solve_decision. Defined.

(** The four inline style properties of [document.body] the script sets. *)
Record BodyStyle := mkBodyStyle {
  position : string;
  top : string;
  width : string;
  overflow : string
}.

(** Browser calls and method entries, in the order they happen. *)
Inductive Call :=
| PreventDefault
| ScrollToSmooth (targetTop : Z)
| ScrollToInstant (x y : Z)
| CloseMenu
| PushState (url : string).

#[global] Instance Call_eq_dec : EqDecision Call.
Proof. solve_decision. Defined.

(** What a click handler reads from the page and never writes:
    [header.offsetHeight] and, for every element id, its [offsetTop]. *)
Record Page := mkPage {
  headerOffsetHeight : Z;
  anchors : gmap string Z
}.

(** The window, the touched part of the DOM, and the fields of the
    [Header] instance. *)
Record State := mkState {
  scrollY : Z;                      (* window.scrollY, window.pageYOffset *)
  scrollMax : Z;                    (* largest offset of the page in normal flow *)
  smoothTarget : option Z;          (* destination of a smooth scroll under way *)
  quirksMode : bool;                (* documentElement.scrollTop reads 0 there *)
  classList : Elem → gset string;
  bodyStyle : BodyStyle;
  ariaExpanded : string;
  ariaLabel : string;
  location : option string;         (* url of the last history.pushState *)
  isMenuOpen : bool;                (* this.isMenuOpen *)
  scrollPosition : Z;               (* this.scrollPosition *)
  inThrottle : bool;                (* the flag in throttle's closure *)
  calls : list Call
}.

Definition set_scroll (y : Z) (t : option Z) (s : State) : State :=
  mkState y (scrollMax s) t (quirksMode s) (classList s) (bodyStyle s)
    (ariaExpanded s) (ariaLabel s) (location s) (isMenuOpen s)
    (scrollPosition s) (inThrottle s) (calls s).

Definition set_classList (f : Elem → gset string) (s : State) : State :=
  mkState (scrollY s) (scrollMax s) (smoothTarget s) (quirksMode s) f
    (bodyStyle s) (ariaExpanded s) (ariaLabel s) (location s) (isMenuOpen s)
    (scrollPosition s) (inThrottle s) (calls s).

Definition set_bodyStyle (b : BodyStyle) (s : State) : State :=
  mkState (scrollY s) (scrollMax s) (smoothTarget s) (quirksMode s)
    (classList s) b (ariaExpanded s) (ariaLabel s) (location s)
    (isMenuOpen s) (scrollPosition s) (inThrottle s) (calls s).

Definition set_aria (expanded label : string) (s : State) : State :=
  mkState (scrollY s) (scrollMax s) (smoothTarget s) (quirksMode s)
    (classList s) (bodyStyle s) expanded label (location s) (isMenuOpen s)
    (scrollPosition s) (inThrottle s) (calls s).

Definition set_location (u : option string) (s : State) : State :=
  mkState (scrollY s) (scrollMax s) (smoothTarget s) (quirksMode s)
    (classList s) (bodyStyle s) (ariaExpanded s) (ariaLabel s) u
    (isMenuOpen s) (scrollPosition s) (inThrottle s) (calls s).

Definition set_isMenuOpen (b : bool) (s : State) : State :=
  mkState (scrollY s) (scrollMax s) (smoothTarget s) (quirksMode s)
    (classList s) (bodyStyle s) (ariaExpanded s) (ariaLabel s) (location s)
    b (scrollPosition s) (inThrottle s) (calls s).

Definition set_scrollPosition (p : Z) (s : State) : State :=
  mkState (scrollY s) (scrollMax s) (smoothTarget s) (quirksMode s)
    (classList s) (bodyStyle s) (ariaExpanded s) (ariaLabel s) (location s)
    (isMenuOpen s) p (inThrottle s) (calls s).

Definition set_inThrottle (b : bool) (s : State) : State :=
  mkState (scrollY s) (scrollMax s) (smoothTarget s) (quirksMode s)
    (classList s) (bodyStyle s) (ariaExpanded s) (ariaLabel s) (location s)
    (isMenuOpen s) (scrollPosition s) b (calls s).

Definition log (c : Call) (s : State) : State :=
  mkState (scrollY s) (scrollMax s) (smoothTarget s) (quirksMode s)
    (classList s) (bodyStyle s) (ariaExpanded s) (ariaLabel s) (location s)
    (isMenuOpen s) (scrollPosition s) (inThrottle s) (calls s ++ [c]).

(** *** The browser side *)

(** A body taken out of the flow by [position: fixed] leaves nothing to
    scroll; otherwise the page scrolls between [0] and [scrollMax]. *)
Definition scrollRange (s : State) : Z :=
  if String.eqb (position (bodyStyle s)) "fixed" then 0 else scrollMax s.

Definition clampScroll (s : State) (y : Z) : Z := Js.clamp0 y (scrollRange s).

(** Writing an inline style of the body reflows the page: the scroll
    offset is brought back into the new range. *)
Definition writeBodyStyle (b : BodyStyle) (s : State) : State :=
  let s := set_bodyStyle b s in
  set_scroll (clampScroll s (scrollY s)) (smoothTarget s) s.

Definition pageYOffset (s : State) : Z := scrollY s.
Definition documentElement_scrollTop (s : State) : Z :=
  if quirksMode s then 0 else scrollY s.

(** [window.scrollTo(x, y)]: jumps at once and ends a smooth scroll that
    is under way. *)
Definition scrollTo (x y : Z) (s : State) : State :=
  let s := log (ScrollToInstant x y) s in
  set_scroll (clampScroll s y) None s.

(** [window.scrollTo({top, behavior: 'smooth'})]: starts an animation
    towards the clamped destination. *)
Definition scrollToSmooth (t : Z) (s : State) : State :=
  let s := log (ScrollToSmooth t) s in
  set_scroll (scrollY s) (Some (clampScroll s t)) s.

(** Where the page comes to rest once a smooth scroll has run out. *)
Definition restingScroll (s : State) : Z := default (scrollY s) (smoothTarget s).

Definition getElementById (pg : Page) (id : string) : option Z :=
  if String.eqb id "" then None else anchors pg !! id.

Definition classes_upd (e : Elem) (f : gset string → gset string) (s : State) : State :=
  set_classList (<[e := f (classList s e)]> (classList s)) s.

(** *** Methods of [Header] *)

(** The function handed to [throttle] in [handleScroll]; [y] is the value
    [window.scrollY] has when it runs. *)
Definition scrollReaction (y : Z) (s : State) : State :=
  if Z.ltb HEADER_CONFIG.SCROLL_THRESHOLD y
  then classes_upd HeaderEl (Js.cl_add "scrolled") s
  else classes_upd HeaderEl (Js.cl_remove "scrolled") s.

(** [throttle(func, limit)]: the wrapper runs [func] and raises the flag
    unless the flag is already up; the timer set for [limit] lowers it
    again. *)
Definition throttle (func : State → State) (s : State) : State :=
  if inThrottle s then s
  else set_inThrottle true (func s).

Definition throttleTimeout (s : State) : State := set_inThrottle false s.

(** The listener [handleScroll] puts on the scroll event. *)
Definition scrollHandler (y : Z) (s : State) : State :=
  throttle (scrollReaction y) s.

Definition disableScroll (s : State) : State :=
  let s := set_scrollPosition
             (Js.or_num (pageYOffset s) (documentElement_scrollTop s)) s in
  let s := classes_upd DocumentElement (Js.cl_add "menu-open") s in
  let s := classes_upd Body (Js.cl_add "menu-open") s in
  let b := bodyStyle s in
  let s := writeBodyStyle (mkBodyStyle "fixed" (top b) (width b) (overflow b)) s in
  let b := bodyStyle s in
  let s := writeBodyStyle
             (mkBodyStyle (position b)
                ("-" +:+ pretty (scrollPosition s) +:+ "px") (width b) (overflow b)) s in
  let b := bodyStyle s in
  let s := writeBodyStyle (mkBodyStyle (position b) (top b) "100%" (overflow b)) s in
  let b := bodyStyle s in
  writeBodyStyle (mkBodyStyle (position b) (top b) (width b) "hidden") s.

Definition enableScroll (s : State) : State :=
  let s := classes_upd DocumentElement (Js.cl_remove "menu-open") s in
  let s := classes_upd Body (Js.cl_remove "menu-open") s in
  let b := bodyStyle s in
  let s := writeBodyStyle (mkBodyStyle "" (top b) (width b) (overflow b)) s in
  let b := bodyStyle s in
  let s := writeBodyStyle (mkBodyStyle (position b) "" (width b) (overflow b)) s in
  let b := bodyStyle s in
  let s := writeBodyStyle (mkBodyStyle (position b) (top b) "" (overflow b)) s in
  let b := bodyStyle s in
  let s := writeBodyStyle (mkBodyStyle (position b) (top b) (width b) "") s in
  scrollTo 0 (scrollPosition s) s.

Definition toggleMenu (s : State) : State :=
  let s := set_isMenuOpen (negb (isMenuOpen s)) s in
  let s := classes_upd MenuToggle (Js.cl_toggle "active") s in
  let s := set_aria (Js.string_of_bool (isMenuOpen s)) (ariaLabel s) s in
  let s := classes_upd NavOverlay (Js.cl_toggle "active") s in
  let s := classes_upd HeaderEl (Js.cl_toggle "menu-open") s in
  let label := if isMenuOpen s then "Cerrar menú" else "Abrir menú" in
  let s := set_aria (ariaExpanded s) label s in
  if isMenuOpen s then disableScroll s else enableScroll s.

Definition closeMenu (s : State) : State :=
  let s := log CloseMenu s in
  let s := set_isMenuOpen false s in
  let s := classes_upd MenuToggle (Js.cl_remove "active") s in
  let s := classes_upd NavOverlay (Js.cl_remove "active") s in
  let s := classes_upd HeaderEl (Js.cl_remove "menu-open") s in
  let s := set_aria "false" "Abrir menú" s in
  enableScroll s.

(** A clickable element: its [href] attribute and the node lists of the
    constructor it belongs to ([this.navLinks], [this.navItems]). *)
Record Link := mkLink {
  href : option string;
  inNavLinks : bool;
  inNavItems : bool
}.

(** The click listener [handleSmoothScroll] puts on a link. *)
Definition smoothScrollClick (pg : Page) (link : Link) (s : State) : State :=
  match href link with
  | Some (String "#"%char targetId as h) =>
      let s := log PreventDefault s in
      match getElementById pg targetId with
      | Some offsetTop =>
          let headerHeight := headerOffsetHeight pg in
          let targetPosition := offsetTop - headerHeight in
          let s := scrollToSmooth targetPosition s in
          let s := if isMenuOpen s then closeMenu s else s in
          set_location (Some h) (log (PushState h) s)
      | None => s
      end
  | _ => s
  end.

(** The click listeners of an element in registration order:
    [handleMenuToggle] runs before [handleSmoothScroll] in [init] and
    puts [closeMenu] on every nav item; [handleSmoothScroll] walks
    [[...this.navLinks, ...this.navItems]]. *)
Definition clickListeners (pg : Page) (link : Link) : list (State → State) :=
  (if inNavItems link then [closeMenu] else []) ++
  (if inNavLinks link then [smoothScrollClick pg link] else []) ++
  (if inNavItems link then [smoothScrollClick pg link] else []).

Definition click (pg : Page) (link : Link) (s : State) : State :=
  foldl (λ acc h, h acc) s (clickListeners pg link).

End Header.

(** ** [js/main.js]: configuration *)

Module CONFIG.
Definition SCROLL_THRESHOLD : Z := 50.
Definition DEBOUNCE_DELAY : Z := 100.
Definition FOOTER_ANIMATION_DELAY : Z := 100.
End CONFIG.

(** ** JavaScript numbers *)

Module Number.

Local Open Scope Q_scope.

(** A Number is a binary64 value of IEEE 754: not-a-number, an infinity,
    or a finite value, held here as the rational it stands for.  The sign
    of zero is not kept: the counter never divides by a computed value,
    and both zeros print as 0. *)
Inductive t :=
| NaN
| Infinity (negative : bool)
| Finite (q : Q).

Definition of_Z (z : Z) : t := Finite (inject_Z z).

Definition Qltb (x y : Q) : bool := negb (Qle_bool y x).

(** [floor(log2 q)] for a positive [q]. *)
Definition ilog2 (q : Q) : Z :=
  let k := (Z.log2 (Qnum q) - Z.log2 (Z.pos (Qden q)))%Z in
  if Qle_bool (2 ^ k) q then k else (k - 1)%Z.

(** The exponent of the last place of the binary64 values around [q]:
    53 significant bits, and no exponent below that of the subnormal
    values. *)
Definition exponent (q : Q) : Z := Z.max (ilog2 (Qabs q) - 52) (-1074).

(** The nearest integer, the even one of two that are equally near. *)
Definition round_half_even (q : Q) : Z :=
  let f := Qfloor q in
  match Qcompare (q - inject_Z f) (1 # 2) with
  | Lt => f
  | Gt => (f + 1)%Z
  | Eq => if Z.even f then f else (f + 1)%Z
  end.

(** Round to nearest, ties to even, with no bound on the exponent above. *)
Definition nearest (q : Q) : Q :=
  let e := exponent q in
  inject_Z (round_half_even (q / 2 ^ e)) * 2 ^ e.

(** The Number value for a real: what rounds to [2^1024] or beyond is
    an infinity.  The fraction is kept in lowest terms. *)
Definition round (q : Q) : t :=
  let v := Qred (nearest q) in
  if Qle_bool (2 ^ 1024) (Qabs v) then Infinity (Qltb v 0) else Finite v.

(** A value binary64 holds, not negative: at most 53 significant bits
    and an exponent no smaller than that of the subnormal values. *)
Definition representable (q : Q) : Prop :=
  ∃ M e : Z, (0 <= M < 2 ^ 53)%Z ∧ (-1074 <= e)%Z ∧ q == inject_Z M * 2 ^ e.

(** The arithmetic operators: the exact result, rounded. *)
Definition add (x y : t) : t :=
  match x, y with
  | NaN, _ | _, NaN => NaN
  | Infinity a, Infinity b => if Bool.eqb a b then Infinity a else NaN
  | Infinity a, Finite _ => Infinity a
  | Finite _, Infinity b => Infinity b
  | Finite a, Finite b => round (a + b)
  end.

Definition sub (x y : t) : t :=
  match x, y with
  | NaN, _ | _, NaN => NaN
  | Infinity a, Infinity b => if Bool.eqb a b then NaN else Infinity a
  | Infinity a, Finite _ => Infinity a
  | Finite _, Infinity b => Infinity (negb b)
  | Finite a, Finite b => round (a - b)
  end.

Definition mul (x y : t) : t :=
  match x, y with
  | NaN, _ | _, NaN => NaN
  | Infinity a, Infinity b => Infinity (xorb a b)
  | Infinity a, Finite q | Finite q, Infinity a =>
      if Qeq_bool q 0 then NaN else Infinity (xorb a (Qltb q 0))
  | Finite a, Finite b => round (a * b)
  end.

(** A zero divisor counts as the positive zero. *)
Definition div (x y : t) : t :=
  match x, y with
  | NaN, _ | _, NaN => NaN
  | Infinity _, Infinity _ => NaN
  | Infinity a, Finite q => Infinity (xorb a (Qltb q 0))
  | Finite _, Infinity _ => Finite 0
  | Finite a, Finite b =>
      if Qeq_bool b 0
      then (if Qeq_bool a 0 then NaN else Infinity (Qltb a 0))
      else round (a / b)
  end.

(** [x < y]; false when either side is [NaN]. *)
Definition lt (x y : t) : bool :=
  match x, y with
  | NaN, _ | _, NaN => false
  | Infinity a, Infinity b => a && negb b
  | Infinity a, Finite _ => a
  | Finite _, Infinity b => negb b
  | Finite a, Finite b => Qltb a b
  end.

Definition isNaN (x : t) : bool :=
  match x with NaN => true | _ => false end.

(** *** Number to string *)

Definition is_integer (q : Q) : bool := Qeq_bool (inject_Z (Qfloor q)) q.

(** The [n] with [10^(n-1) <= q < 10^n], for a positive [q]. *)
Fixpoint magnitude_below (fuel : nat) (q : Q) (n : Z) : Z :=
  match fuel with
  | O => n
  | S fuel => if Qle_bool 1 q then n else magnitude_below fuel (q * 10) (n - 1)
  end.

Definition magnitude (q : Q) : Z :=
  if Qle_bool 1 q
  then Z.of_nat (String.length (pretty (Qfloor q)))
  else magnitude_below 400 (q * 10) 0.

(** The decimal [s * 10^(n-k)] and whether it reads back as [q]. *)
Definition decimal (n k s : Z) : Q := inject_Z s * 10 ^ (n - k).

Definition reads_back (q : Q) (n k s : Z) : bool :=
  match round (decimal n k s) with
  | Finite v => Qeq_bool v q
  | _ => false
  end.

(** The [k]-digit decimals around [q] that read back as it: the two next
    to [q] with the point at [n], and the power of ten above them. *)
Definition candidates (q : Q) (n k : Z) : list (Z * Z) :=
  let lo := Qfloor (q / 10 ^ (n - k)) in
  filter (λ sn, bool_decide (10 ^ (k - 1) ≤ sn.1 < 10 ^ k)%Z && reads_back q sn.2 k sn.1)
    [(lo, n); ((lo + 1)%Z, n); ((10 ^ (k - 1))%Z, (n + 1)%Z)].

(** The candidate nearest to [q], the earlier one of two equally near. *)
Fixpoint closest (q : Q) (k : Z) (best : Z * Z) (rest : list (Z * Z)) : Z * Z :=
  match rest with
  | [] => best
  | c :: rest =>
      if Qltb (Qabs (decimal c.2 k c.1 - q)) (Qabs (decimal best.2 k best.1 - q))
      then closest q k c rest
      else closest q k best rest
  end.

(** The shortest decimal that reads back as [q]: its digits [s], their
    number [k], and the position [n] of the decimal point. *)
Fixpoint shortest_from (fuel : nat) (q : Q) (n k : Z) : Z * Z * Z :=
  match fuel with
  | O => (Qfloor q, k, n)
  | S fuel =>
      match candidates q n k with
      | c :: rest => let '(s, n) := closest q k c rest in (s, k, n)
      | [] => shortest_from fuel q n (k + 1)
      end
  end.

Definition shortest (q : Q) : Z * Z * Z := shortest_from 17 q (magnitude q) 1.

Fixpoint zeros (n : nat) : string :=
  match n with O => "" | S n => String "0" (zeros n) end.

Definition take (n : nat) (s : string) : string := substring 0 n s.
Definition drop (n : nat) (s : string) : string := substring n (String.length s - n) s.

(** The text of a positive finite value. *)
Definition positive_text (q : Q) : string :=
  let '(s, k, n) := shortest q in
  let digits := pretty s in
  if bool_decide (k ≤ n ≤ 21)%Z then digits +:+ zeros (Z.to_nat (n - k))
  else if bool_decide (0 < n ≤ 21)%Z
       then take (Z.to_nat n) digits +:+ "." +:+ drop (Z.to_nat n) digits
  else if bool_decide (-6 < n ≤ 0)%Z then "0." +:+ zeros (Z.to_nat (- n)) +:+ digits
  else
    let e := (n - 1)%Z in
    let exp := (if bool_decide (0 ≤ e)%Z then "e+" else "e-") +:+ pretty (Z.abs e) in
    if bool_decide (k = 1)%Z then digits +:+ exp
    else take 1 digits +:+ "." +:+ drop 1 digits +:+ exp.

(** [Number::toString]: an integer that binary64 holds exactly below
    [2^53] has its decimal digits for shortest decimal. *)
Definition finite_text (q : Q) : string :=
  if Qeq_bool q 0 then "0"
  else if is_integer q && Qle_bool q (2 ^ 53) then pretty (Qfloor q)
  else positive_text q.

Definition toString (x : t) : string :=
  match x with
  | NaN => "NaN"
  | Infinity false => "Infinity"
  | Infinity true => "-Infinity"
  | Finite q =>
      if Qltb q 0 then "-" +:+ finite_text (- q) else finite_text q
  end.

(** *** The binary64 operations of the Standard Library *)

(** The Number a [spec_float] stands for, and the Number values for
    whole numbers, to set the operators above beside the operations of
    [SpecFloat] at precision 53 and exponents up to 1024. *)
Definition of_spec_float (x : SpecFloat.spec_float) : t :=
  match x with
  | SpecFloat.S754_zero _ => Finite 0
  | SpecFloat.S754_infinity s => Infinity s
  | SpecFloat.S754_nan => NaN
  | SpecFloat.S754_finite s m e =>
      Finite ((if s then -1 else 1) * inject_Z (Z.pos m) * 2 ^ e)
  end.

Definition spec_float_of_Z (z : Z) : SpecFloat.spec_float :=
  SpecFloat.binary_normalize 53 1024 z 0 false.

Definition same_value (x y : t) : bool :=
  match x, y with
  | NaN, NaN => true
  | Infinity a, Infinity b => Bool.eqb a b
  | Finite a, Finite b => Qeq_bool a b
  | _, _ => false
  end.

End Number.

(** ** [Math] *)

Module Math.

Import Number.

(** [Math.floor]. *)
Definition floor (x : t) : t :=
  match x with
  | Finite q => Finite (inject_Z (Qfloor q))
  | _ => x
  end.

(** [Math.min] of two arguments. *)
Definition min (x y : t) : t :=
  match x, y with
  | NaN, _ | _, NaN => NaN
  | _, _ => if lt y x then y else x
  end.

(** [Math.pow] is left to the implementation by the language: its
    result is an approximation of the power, not the rounded result the
    arithmetic operators give.  The exponent is the integer the call
    site writes. *)
Class Pow := pow : t → Z → t.

(** What the counter relies on: on the binary64 values of the unit
    interval the cube is a finite number of the unit interval again, it
    does not fall when the base grows, and the cube of 0 is 0. *)
Record cubes_unit_interval `{Pow} : Prop := {
  cube_unit : ∀ x : Q, representable x → (x <= 1)%Q →
    ∃ u : Q, pow (Finite x) 3 = Finite u ∧ (0 <= u)%Q ∧ (u <= 1)%Q;
  cube_mono : ∀ x y u v : Q,
    representable x → representable y → (x <= y)%Q → (y <= 1)%Q →
    pow (Finite x) 3 = Finite u → pow (Finite y) 3 = Finite v → (u <= v)%Q;
  cube_zero : ∀ x u : Q,
    (x == 0)%Q → pow (Finite x) 3 = Finite u → (u == 0)%Q
}.

(** One possible [Math.pow]: the exact power, rounded once. *)
Definition rounded_pow (x : t) (n : Z) : t :=
  if (n =? 0)%Z then of_Z 1
  else
    match x with
    | NaN => NaN
    | Infinity negative =>
        if (n <? 0)%Z then Finite 0 else Infinity (negative && Z.odd n)
    | Finite a =>
        if Qeq_bool a 0 && (n <? 0)%Z then Infinity false else round (a ^ n)
    end.

End Math.

(** ** [ScrollAnimations]: the statistic counter *)

Module ScrollAnimations.

Import Number.

(** The class [\d] of a regular expression without the unicode flag. *)
Definition is_digit (c : ascii) : bool :=
  let n := nat_of_ascii c in (48 <=? n)%nat && (n <=? 57)%nat.

(** [s.replace(/[^\d]/g, '')]. *)
Fixpoint keep_digits (s : string) : string :=
  match s with
  | EmptyString => EmptyString
  | String c r => if is_digit c then String c (keep_digits r) else keep_digits r
  end.

(** [s.replace(/[\d]/g, '')]. *)
Fixpoint drop_digits (s : string) : string :=
  match s with
  | EmptyString => EmptyString
  | String c r => if is_digit c then drop_digits r else String c (drop_digits r)
  end.

Fixpoint digits_value (acc : Z) (s : string) : Z :=
  match s with
  | EmptyString => acc
  | String c r => digits_value (10 * acc + (Z.of_nat (nat_of_ascii c) - 48))%Z r
  end.

(** [parseInt] on a string that holds decimal digits only: [NaN] for the
    empty string, otherwise the Number value for the integer the digits
    write, every digit read. *)
Definition parseInt_digits (s : string) : t :=
  match s with
  | EmptyString => NaN
  | _ => round (inject_Z (digits_value 0 s))
  end.

Definition duration : t := of_Z 1000.

(** The constants [animateNumber] fixes before the first frame. *)
Record Animation := mkAnimation {
  finalNumber : string;
  numericValue : t;
  suffix : string;
  startTime : t
}.

(** The [.stat__number] element and the frame request of the animation. *)
Record NumberElement := mkNumberElement {
  textContent : string;
  frameRequested : bool;
  written : list string      (* every value assigned to textContent, oldest first *)
}.

(** A statistic: [querySelector('.stat__number')] on it gives its number
    element, or [null]. *)
Record StatElement := mkStatElement {
  stat__number : option NumberElement
}.

Definition set_textContent (t : string) (el : NumberElement) : NumberElement :=
  mkNumberElement t (frameRequested el) (written el ++ [t]).

Definition requestAnimationFrame (el : NumberElement) : NumberElement :=
  mkNumberElement (textContent el) true (written el).

Definition progress_at (a : Animation) (currentTime : t) : t :=
  let elapsed := sub currentTime (startTime a) in
  Math.min (div elapsed duration) (of_Z 1).

(** [animateNumber] up to its first frame request; [now] is what
    [performance.now()] returns.  [None]: one of the two early returns,
    for a statistic without number element and for a text without digit.
    (The constant [increment] is computed and never read.) *)
Definition animateNumber (now : t) (statElement : StatElement)
  : option (Animation * NumberElement) :=
  match stat__number statElement with
  | None => None
  | Some numberElement =>
      let finalNumber := textContent numberElement in
      let numericValue := parseInt_digits (keep_digits finalNumber) in
      let suffix := drop_digits finalNumber in
      if isNaN numericValue then None
      else Some (mkAnimation finalNumber numericValue suffix now,
                 requestAnimationFrame numberElement)
  end.

(** The frames that find a request: those up to and including the first
    one whose progress is not below [1]. *)
Fixpoint live_frames (a : Animation) (frames : list t) : list t :=
  match frames with
  | [] => []
  | t :: rest =>
      if lt (progress_at a t) (of_Z 1) then t :: live_frames a rest else [t]
  end.

(** A frame arrives once the full duration has gone by. *)
Definition full_duration (a : Animation) (currentTime : t) : Prop :=
  match startTime a, currentTime with
  | Finite s, Finite c => (s + 1000 <= c)%Q
  | _, _ => False
  end.

Definition completes (a : Animation) (frames : list t) : Prop :=
  Exists (full_duration a) frames.

(** The same as a test on the progress the frames compute. *)
Definition reaches_end (a : Animation) (frames : list t) : bool :=
  existsb (λ t, negb (lt (progress_at a t) (of_Z 1))) frames.

Section WithPow.

Context {P : Math.Pow}.

Definition easeOut (t : Number.t) : Number.t :=
  sub (of_Z 1) (Math.pow (sub (of_Z 1) t) 3).

(** The value [current] takes in the frame at [currentTime]. *)
Definition current_at (a : Animation) (currentTime : t) : t :=
  Math.floor (mul (numericValue a) (easeOut (progress_at a currentTime))).

(** The closure [updateNumber]. *)
Definition updateNumber (a : Animation) (currentTime : t) (el : NumberElement)
  : NumberElement :=
  let progress := progress_at a currentTime in
  let current := current_at a currentTime in
  let el := set_textContent (toString current +:+ suffix a) el in
  if lt progress (of_Z 1)
  then requestAnimationFrame el
  else set_textContent (finalNumber a) el.

(** The browser runs a requested frame callback once per frame, with the
    frame's time stamp; a frame without a request runs nothing. *)
Fixpoint runFrames (a : Animation) (frames : list t) (el : NumberElement)
  : NumberElement :=
  match frames with
  | [] => el
  | t :: rest =>
      if frameRequested el
      then runFrames a rest
             (updateNumber a t (mkNumberElement (textContent el) false (written el)))
      else el
  end.

(** What a frame first assigns to [textContent]. *)
Definition shown (a : Animation) (t : Number.t) : string :=
  toString (current_at a t) +:+ suffix a.

(** The values of [current] over the frames that run. *)
Definition displayed_values (a : Animation) (frames : list t) : list t :=
  map (current_at a) (live_frames a frames).

End WithPow.

End ScrollAnimations.

(** ** Viewport watchers: entrance animation, lazy images, footer reveal *)

Module Observers.

(** An [IntersectionObserverEntry]; elements are numbered. *)
Record Entry := mkEntry { target : nat; isIntersecting : bool }.

(** *** [ScrollAnimations.setupIntersectionObserver] *)

Record StatState := mkStatState {
  statClasses : nat → gset string;
  animateNumberCalls : list nat      (* targets handed to animateNumber *)
}.

Definition statEntry (s : StatState) (entry : Entry) : StatState :=
  let t := target entry in
  if isIntersecting entry && negb (Js.cl_contains "animated" (statClasses s t)) then
    let cls := <[t := Js.cl_add "animated" (statClasses s t)]> (statClasses s) in
    if Js.cl_contains "stat" (cls t)
    then mkStatState cls (animateNumberCalls s ++ [t])
    else mkStatState cls (animateNumberCalls s)
  else s.

Definition statCallback (s : StatState) (entries : list Entry) : StatState :=
  foldl statEntry s entries.

(** *** [PerformanceOptimizer.lazyLoadImages] *)

Record Img := mkImg {
  src : string;
  dataSrc : option string;           (* the data-src attribute *)
  imgClasses : gset string
}.

Record LazyState := mkLazyState {
  images : nat → Img;
  observed : gset nat;
  swaps : list nat                   (* images whose src was replaced *)
}.

(** [img.dataset.src] as a condition: the attribute is there and not
    empty. *)
Definition dataset_src (i : Img) : option string :=
  match dataSrc i with
  | Some EmptyString => None
  | o => o
  end.

Definition lazyEntry (s : LazyState) (entry : Entry) : LazyState :=
  if isIntersecting entry then
    let t := target entry in
    let img := images s t in
    let '(img, sw) :=
      match dataset_src img with
      | Some d => (mkImg d None (imgClasses img), swaps s ++ [t])
      | None => (img, swaps s)
      end in
    let img := mkImg (src img) (dataSrc img) (Js.cl_add "loaded" (imgClasses img)) in
    mkLazyState (<[t := img]> (images s)) (observed s ∖ {[t]}) sw
  else s.

Definition lazyCallback (s : LazyState) (entries : list Entry) : LazyState :=
  foldl lazyEntry s entries.

(** The browser reports only targets that are observed when the batch is
    put together. *)
Definition lazyDeliver (s : LazyState) (batch : list Entry) : LazyState :=
  lazyCallback s (filter (λ e, target e ∈ observed s) batch).

(** *** [FooterAnimations] *)

Inductive TimerAction := AnimateFooterTop | AnimateLetter (index : nat).

Record FooterState := mkFooterState {
  isAnimated : bool;
  triggerCalls : nat;                (* calls of triggerAnimations *)
  timers : list (Z * TimerAction)    (* setTimeout: delay and callback *)
}.

Definition triggerAnimations (letters : nat) (s : FooterState) : FooterState :=
  mkFooterState (isAnimated s) (S (triggerCalls s))
    (timers s ++ [(CONFIG.FOOTER_ANIMATION_DELAY, AnimateFooterTop)]
              ++ imap (λ index _, (500 + Z.of_nat index * 100, AnimateLetter index))
                   (replicate letters tt)).

Definition footerEntry (letters : nat) (s : FooterState) (entry : Entry) : FooterState :=
  if isIntersecting entry && negb (isAnimated s) then
    let s := triggerAnimations letters s in
    mkFooterState true (triggerCalls s) (timers s)
  else s.

Definition footerCallback (letters : nat) (s : FooterState) (entries : list Entry)
  : FooterState :=
  foldl (footerEntry letters) s entries.

(** *** What the markers guarantee between entries *)

(** A target handed to [animateNumber] carries the class animated. *)
Definition stat_inv (s : StatState) : Prop :=
  NoDup (animateNumberCalls s) ∧
  ∀ t, t ∈ animateNumberCalls s → "animated" ∈ statClasses s t.

(** An image whose source was swapped has lost its data-src. *)
Definition lazy_inv (s : LazyState) : Prop :=
  NoDup (swaps s) ∧ ∀ t, t ∈ swaps s → dataSrc (images s t) = None.

(** [triggerAnimations] has run only if the flag is up. *)
Definition footer_inv (s : FooterState) : Prop :=
  (triggerCalls s ≤ 1)%nat ∧ (isAnimated s = false → triggerCalls s = 0%nat).

End Observers.

(** ** [Portfolio.handleTouchInteractions] *)

Module Portfolio.

(** A grid item: its class list and the [touchStartTime] of its
    listeners' closure. *)
Record Item := mkItem {
  itemClasses : gset string;
  touchStartTime : Z
}.

Definition touched (it : Item) : bool :=
  Js.cl_contains "portfolio__item--touched" (itemClasses it).

(** The [touchstart] listener of item [i]; [now] is [Date.now()]. *)
Definition touchstart (i : nat) (now : Z) (items : list Item) : list Item :=
  alter (λ it, mkItem (itemClasses it) now) i items.

(** The [touchend] listener of item [i]. *)
Definition touchend (i : nat) (now : Z) (items : list Item) : list Item :=
  match items !! i with
  | None => items
  | Some it =>
      let touchDuration := now - touchStartTime it in
      if touchDuration <? 200 then
        let items :=
          <[i := mkItem (Js.cl_toggle "portfolio__item--touched" (itemClasses it))
                   (touchStartTime it)]> items in
        imap (λ j otherItem,
                if decide (j ≠ i)
                then mkItem (Js.cl_remove "portfolio__item--touched"
                               (itemClasses otherItem))
                       (touchStartTime otherItem)
                else otherItem) items
      else items
  end.

(** A press at [t0] and its release at [t1], both on item [i]. *)
Definition pressRelease (i : nat) (t0 t1 : Z) (items : list Item) : list Item :=
  touchend i t1 (touchstart i t0 items).

End Portfolio.

(** ** [MiniPolaroids]: the draggable decorations *)

Module MiniPolaroids.

Inductive JsError :=
| ReferenceError (name : string)
| TypeError.

Inductive Completion (A : Type) :=
| Normal (a : A)
| Throw (e : JsError).
Arguments Normal {A} a.
Arguments Throw {A} e.

(** The inline transform [dragMove] writes, kept in parts; [css] is the
    string of the template literal. *)
Record Transform := mkTransform {
  translateX : Z;
  translateY : Z;
  rotation : string
}.

Definition css (t : Transform) : string :=
  "translate(" +:+ pretty (translateX t) +:+ "px, " +:+ pretty (translateY t)
    +:+ "px) " +:+ rotation t.

Record Element := mkElement {
  classList : gset string;
  isDragging : bool;                 (* the expando; false also stands for undefined *)
  cursor : string;
  transform : option Transform       (* None: style.transform never assigned *)
}.

(** What the methods can reach.  [globals] holds the numeric bindings of
    the global scope.  The methods are class members: the [let] bindings
    of [makeDraggable] ([isDragging], [currentX], [currentY], [initialX],
    [initialY], [xOffset], [yOffset]) belong to that call's own scope and
    are no part of the scope chain of [dragStart], [dragMove] or
    [dragEnd]; neither script declares one of these names at top level. *)
Record Heap := mkHeap {
  globals : gmap string Z;
  elements : nat → Element;
  defaultPrevented : bool
}.

(** State and exceptions; the heap at a throw is the heap the throw
    leaves behind. *)
Definition M (A : Type) : Type := Heap → Completion A * Heap.

#[global] Instance M_ret : MRet M := λ A a h, (Normal a, h).
#[global] Instance M_bind : MBind M := λ A B f m h,
  match m h with
  | (Normal a, h') => f a h'
  | (Throw e, h') => (Throw e, h')
  end.

Definition throw {A} (e : JsError) : M A := λ h, (Throw e, h).

(** Reading an identifier that resolves nowhere throws. *)
Definition getVar (x : string) : M Z := λ h,
  match globals h !! x with
  | Some v => (Normal v, h)
  | None => (Throw (ReferenceError x), h)
  end.

(** Strict mode: assigning to an identifier that resolves nowhere throws
    and creates nothing. *)
Definition putVar (x : string) (v : Z) : M unit := λ h,
  match globals h !! x with
  | Some _ => (Normal tt, mkHeap (<[x := v]> (globals h)) (elements h) (defaultPrevented h))
  | None => (Throw (ReferenceError x), h)
  end.

Definition getElement (k : nat) : M Element := λ h, (Normal (elements h k), h).

Definition setElement (k : nat) (f : Element → Element) : M unit := λ h,
  (Normal tt, mkHeap (globals h) (<[k := f (elements h k)]> (elements h)) (defaultPrevented h)).

Definition preventDefault : M unit := λ h,
  (Normal tt, mkHeap (globals h) (elements h) true).

(** A mouse event, or a touch event with its first touch point. *)
Inductive PointerEvent :=
| MouseEvent (clientX clientY : Z)
| TouchEvent (touch0X touch0Y : Z).

Definition pointerX (e : PointerEvent) : Z :=
  match e with MouseEvent x _ => x | TouchEvent x _ => x end.
Definition pointerY (e : PointerEvent) : Z :=
  match e with MouseEvent _ y => y | TouchEvent _ y => y end.

Record Rect := mkRect { width : Z; height : Z }.

(** What [getBoundingClientRect] answers during one event:
    [this.aboutSection] may be [null]. *)
Record Layout := mkLayout {
  aboutSection : option Rect;
  elementRect : nat → Rect
}.

Definition rotations : list (string * string) :=
  [ ("mini-polaroid--1", "rotate(-15deg)"); ("mini-polaroid--2", "rotate(12deg)");
    ("mini-polaroid--3", "rotate(8deg)");   ("mini-polaroid--4", "rotate(-10deg)");
    ("mini-polaroid--5", "rotate(20deg)");  ("mini-polaroid--6", "rotate(-8deg)");
    ("mini-polaroid--7", "rotate(-20deg)"); ("mini-polaroid--8", "rotate(15deg)");
    ("mini-polaroid--9", "rotate(-5deg)");  ("mini-polaroid--10", "rotate(18deg)");
    ("mini-polaroid--11", "rotate(-12deg)"); ("mini-polaroid--12", "rotate(6deg)");
    ("mini-polaroid--13", "rotate(14deg)"); ("mini-polaroid--14", "rotate(-16deg)");
    ("mini-polaroid--15", "rotate(9deg)");  ("mini-polaroid--16", "rotate(-7deg)") ].

(** The cascade of [if (classList.contains(..)) return ..]. *)
Fixpoint first_rotation (cl : gset string) (table : list (string * string)) : string :=
  match table with
  | [] => ""
  | (c, r) :: rest => if Js.cl_contains c cl then r else first_rotation cl rest
  end.

Definition getOriginalRotation (el : Element) : string :=
  first_rotation (classList el) rotations.

(** [hit] is [e.target === element || element.contains(e.target)]. *)
Definition dragStart (e : PointerEvent) (hit : bool) (k : nat) : M unit :=
  let clientX := pointerX e in
  let clientY := pointerY e in
  xOffset ← getVar "xOffset";
  putVar "initialX" (clientX - xOffset);;
  yOffset ← getVar "yOffset";
  putVar "initialY" (clientY - yOffset);;
  if hit then
    setElement k (λ el, mkElement (classList el) true (cursor el) (transform el));;
    setElement k (λ el, mkElement (classList el) (isDragging el) "grabbing" (transform el))
  else mret tt.

Definition dragMove (ly : Layout) (e : PointerEvent) (k : nat) : M unit :=
  element ← getElement k;
  if isDragging element then
    preventDefault;;
    let clientX := pointerX e in
    let clientY := pointerY e in
    initialX ← getVar "initialX";
    putVar "currentX" (clientX - initialX);;
    initialY ← getVar "initialY";
    putVar "currentY" (clientY - initialY);;
    aboutRect ← match aboutSection ly with
                | Some r => mret r
                | None => throw TypeError
                end;
    let elementRect := elementRect ly k in
    let maxX := width aboutRect - width elementRect in
    let maxY := height aboutRect - height elementRect in
    currentX ← getVar "currentX";
    putVar "currentX" (Z.max 0 (Z.min currentX maxX));;
    currentY ← getVar "currentY";
    putVar "currentY" (Z.max 0 (Z.min currentY maxY));;
    currentX ← getVar "currentX";
    putVar "xOffset" currentX;;
    currentY ← getVar "currentY";
    putVar "yOffset" currentY;;
    currentX ← getVar "currentX";
    currentY ← getVar "currentY";
    setElement k (λ el,
      mkElement (classList el) (isDragging el) (cursor el)
        (Some (mkTransform currentX currentY (getOriginalRotation el))))
  else mret tt.

Definition dragEnd (k : nat) : M unit :=
  currentX ← getVar "currentX";
  putVar "initialX" currentX;;
  currentY ← getVar "currentY";
  putVar "initialY" currentY;;
  setElement k (λ el, mkElement (classList el) false (cursor el) (transform el));;
  setElement k (λ el, mkElement (classList el) (isDragging el) "pointer" (transform el)).

(** What the user does.  Press events carry the element they land on;
    move and release events reach the listeners on [document]. *)
Inductive Interaction :=
| Mousedown (k : nat) (e : PointerEvent)
| Mousemove (e : PointerEvent)
| Mouseup
| Touchstart (k : nat) (e : PointerEvent)
| Touchmove (e : PointerEvent)
| Touchend.

(** A listener that throws ends alone: the next listener still runs, on
    the heap the throw left. *)
Definition runListener (m : M unit) (h : Heap) : Heap := snd (m h).

(** The listeners [makeDraggable] registers for every element of
    [polaroids], in the order [init] walks them. *)
Definition dispatch (ly : Layout) (polaroids : list nat) (i : Interaction) (h : Heap)
  : Heap :=
  match i with
  | Mousedown k e | Touchstart k e =>
      if bool_decide (k ∈ polaroids) then runListener (dragStart e true k) h else h
  | Mousemove e | Touchmove e =>
      foldl (λ h k, runListener (dragMove ly e k) h) h polaroids
  | Mouseup | Touchend =>
      foldl (λ h k, runListener (dragEnd k) h) h polaroids
  end.

Definition interact (ly : Layout) (polaroids : list nat) (l : list Interaction) (h : Heap)
  : Heap :=
  foldl (λ h i, dispatch ly polaroids i h) h l.

(** A property of the heap that a computation keeps, also when it
    throws half way. *)
Definition stays (P : Heap → Prop) {A : Type} (m : M A) : Prop :=
  ∀ h, P h → P (snd (m h)).

(** Nothing is being dragged, [xOffset] resolves nowhere, and every
    element has the transform [T] gives it. *)
Definition idle (T : nat → option Transform) (h : Heap) : Prop :=
  globals h !! "xOffset" = None ∧
  ∀ k, isDragging (elements h k) = false ∧ transform (elements h k) = T k.

End MiniPolaroids.

(** ** [App] and the start of the header script *)

Module App.

Inductive Component :=
| ScrollAnimations
| Portfolio
| FooterAnimations
| PerformanceOptimizer
| AccessibilityEnhancer
| ErrorHandler
| MiniPolaroids
| Header.

#[global] Instance Component_eq_dec : EqDecision Component.
Proof. solve_decision. Defined.

(** The page as the scripts find it. *)
Record Env := mkEnv {
  hasIntersectionObserver : bool;    (* the constructor exists on window *)
  domContentLoadedPending : bool     (* the event has yet to fire when the scripts run *)
}.

(** [new C()]: [ScrollAnimations] and [FooterAnimations] call
    [new IntersectionObserver] unguarded and throw without it;
    [PerformanceOptimizer] tests for it first. *)
Definition construct (env : Env) (c : Component) : option Component :=
  match c with
  | ScrollAnimations | FooterAnimations =>
      if hasIntersectionObserver env then Some c else None
  | _ => Some c
  end.

(** The statements of the [try] block: each pushes a new component; the
    first throw leaves the block. *)
Fixpoint pushAll (env : Env) (cs : list Component) (components : list Component)
  : list Component * bool :=
  match cs with
  | [] => (components, true)
  | c :: rest =>
      match construct env c with
      | Some x => pushAll env rest (components ++ [x])
      | None => (components, false)
      end
  end.

Record Result := mkResult {
  components : list Component;       (* this.components *)
  bodyLoaded : bool;                 (* body carries the class loaded *)
  failed : bool                      (* the catch clause ran *)
}.

Definition initializeComponents (env : Env) : Result :=
  let '(cs, ok) :=
    pushAll env
      [ScrollAnimations; Portfolio; FooterAnimations; PerformanceOptimizer;
       AccessibilityEnhancer; ErrorHandler] [] in
  mkResult cs ok (negb ok).

(** [App.init] runs [initializeComponents] at once or on
    DOMContentLoaded; the header script constructs [Header] in its
    DOMContentLoaded listener.  The components alive once the page has
    loaded: *)
Definition constructedAtLoad (env : Env) : list Component :=
  components (initializeComponents env)
    ++ (if domContentLoadedPending env then [Header] else []).

(** The components of the system overview, by their class. *)
Definition overview : list Component :=
  [ScrollAnimations; Portfolio; PerformanceOptimizer; AccessibilityEnhancer;
   MiniPolaroids; FooterAnimations; ErrorHandler; Header].

End App.

(** ** Concrete pages and inputs *)

Module Examples.

(** A page scrolled to 734px, menu closed, nothing written yet. *)
Definition page_at_734 : Header.State :=
  Header.mkState 734 5000 None false (λ _, ∅) (Header.mkBodyStyle "" "" "" "")
    "false" "Abrir menú" None false 0 false [].

(** A header 80px high and a section [about] whose [offsetTop] is 2000. *)
Definition page_with_about : Header.Page :=
  Header.mkPage 80 {[ "about" := 2000 ]}.

(** A link of [this.navLinks] that is no overlay item, and an overlay
    item, both pointing at [#about]. *)
Definition footer_link : Header.Link := Header.mkLink (Some "#about") true false.
Definition overlay_item : Header.Link := Header.mkLink (Some "#about") false true.

(** The statistic that reads 250+. *)
Definition stat250 : ScrollAnimations.NumberElement :=
  ScrollAnimations.mkNumberElement "250+" false [].
Definition stat250_item : ScrollAnimations.StatElement :=
  ScrollAnimations.mkStatElement (Some stat250).
Definition anim250 (now : Number.t) : ScrollAnimations.Animation :=
  ScrollAnimations.mkAnimation "250+" (Number.of_Z 250) "+" now.

(** Frames 16ms, 500ms and 1000ms after the start at time 0. *)
Definition three_frames : list Number.t :=
  [Number.of_Z 16; Number.of_Z 500; Number.of_Z 1000].

(** The reading of the statistic that starts at zero, where [Math.pow]
    is rounded correctly: the values shown over the frames are whole
    numbers that never fall, the first is 0, the last is 250 and the
    text ends as 250+. *)
Definition animates_from_zero (now : Number.t) (frames : list Number.t) : Prop :=
  let values := ScrollAnimations.displayed_values (P := Math.rounded_pow)
                  (anim250 now) frames in
  let final := ScrollAnimations.runFrames (P := Math.rounded_pow) (anim250 now) frames
                 (ScrollAnimations.requestAnimationFrame stat250) in
  ∃ zs : list Z,
    values = map Number.of_Z zs ∧
    StronglySorted Z.le zs ∧
    head zs = Some 0 ∧
    last zs = Some 250 ∧
    ScrollAnimations.textContent final = "250+".

(** The curve in the real numbers: [floor(m * (1 - (1 - t)^3))] at the
    fraction [t = min(elapsed / 1000, 1)]. *)
Definition exact_curve (m : Z) (elapsed : Q) : Z :=
  let t := Qmin (elapsed / 1000) 1 in
  Qfloor (inject_Z m * (1 - (1 - t) ^ 3))%Q.

(** The reading of the counter that shows the exact curve, where
    [Math.pow] is rounded correctly: the frame [elapsed] milliseconds
    after a start at time 0 writes the value of the exact curve. *)
Definition shows_exact_curve (elapsed : Z) : Prop :=
  ScrollAnimations.shown (P := Math.rounded_pow) (anim250 (Number.of_Z 0))
    (Number.of_Z elapsed)
  = pretty (exact_curve 250 (inject_Z elapsed)) +:+ "+".

(** Operands for setting the operators of [Number] beside the binary64
    operations of the Standard Library: the quotients [a / b] and
    [c / d] of whole numbers, among them 200 / 1000, a tie, values
    beyond [2^53], subnormal values and an overflow. *)
Definition operand_samples : list (Z * Z * Z * Z) :=
  [ (200, 1000, 1, 1); (1, 3, 2, 3); (1, 10, 2, 10); (2 ^ 53 + 1, 1, 1, 3);
    (1, 2 ^ 1074, 1, 2); (3, 2 ^ 1075, 1, 2 ^ 30); (2 ^ 1023, 1, 2, 1);
    (-7, 3, 5, 11); (1000000007, 998244353, -3, 7); (0, 1, 5, 1);
    (1, 2 ^ 1000, 1, 2 ^ 80); (10 ^ 400, 1, 1, 1); (250, 1, 4879999999999999, 10 ^ 16);
    (-(2 ^ 1024 - 2 ^ 970), 1, 1, 7); (9007199254740993, 1000, 16, 1000) ]%Z.

Definition operators_agree (s : Z * Z * Z * Z) : bool :=
  let '(a, b, c, d) := s in
  let x := SpecFloat.SFdiv 53 1024 (Number.spec_float_of_Z a) (Number.spec_float_of_Z b) in
  let y := SpecFloat.SFdiv 53 1024 (Number.spec_float_of_Z c) (Number.spec_float_of_Z d) in
  let x' := Number.div (Number.round (inject_Z a)) (Number.round (inject_Z b)) in
  let y' := Number.div (Number.round (inject_Z c)) (Number.round (inject_Z d)) in
  Number.same_value (Number.of_spec_float x) x' &&
  Number.same_value (Number.of_spec_float y) y' &&
  Number.same_value (Number.of_spec_float (SpecFloat.SFadd 53 1024 x y)) (Number.add x' y') &&
  Number.same_value (Number.of_spec_float (SpecFloat.SFsub 53 1024 x y)) (Number.sub x' y') &&
  Number.same_value (Number.of_spec_float (SpecFloat.SFmul 53 1024 x y)) (Number.mul x' y') &&
  Number.same_value (Number.of_spec_float (SpecFloat.SFdiv 53 1024 x y)) (Number.div x' y').

(** A global scope in which the six free identifiers of the drag
    methods resolve, as when another script of the page declares them. *)
Definition drag_globals : gmap string Z :=
  list_to_map [("initialX", 0); ("initialY", 0); ("currentX", 0);
               ("currentY", 0); ("xOffset", 0); ("yOffset", 0)].

Definition polaroid3 (dragging : bool) : MiniPolaroids.Element :=
  MiniPolaroids.mkElement {[ "mini-polaroid"; "mini-polaroid--3" ]} dragging "" None.

Definition heap_resolving (dragging : bool) : MiniPolaroids.Heap :=
  MiniPolaroids.mkHeap drag_globals (λ _, polaroid3 dragging) false.

(** The scope the two scripts alone give: none of the names is bound. *)
Definition heap_of_site : MiniPolaroids.Heap :=
  MiniPolaroids.mkHeap ∅ (λ _, polaroid3 false) false.

(** A container 100 by 400 around an element 150 by 50, and a container
    800 by 600 around the same element. *)
Definition narrow_layout : MiniPolaroids.Layout :=
  MiniPolaroids.mkLayout (Some (MiniPolaroids.mkRect 100 400))
    (λ _, MiniPolaroids.mkRect 150 50).
Definition wide_layout : MiniPolaroids.Layout :=
  MiniPolaroids.mkLayout (Some (MiniPolaroids.mkRect 800 600))
    (λ _, MiniPolaroids.mkRect 150 50).

(** The bounds as stated for every size pair. *)
Definition within_container (ly : MiniPolaroids.Layout) (k : nat)
    (h : MiniPolaroids.Heap) : Prop :=
  match MiniPolaroids.aboutSection ly, MiniPolaroids.transform (MiniPolaroids.elements h k) with
  | Some about, Some t =>
      0 ≤ MiniPolaroids.translateX t
        ≤ MiniPolaroids.width about - MiniPolaroids.width (MiniPolaroids.elementRect ly k) ∧
      0 ≤ MiniPolaroids.translateY t
        ≤ MiniPolaroids.height about - MiniPolaroids.height (MiniPolaroids.elementRect ly k)
  | _, _ => True
  end.

(** Three grid items, the second one touched. *)
Definition three_items : list Portfolio.Item :=
  [Portfolio.mkItem ∅ 0;
   Portfolio.mkItem {[ "portfolio__item--touched" ]} 0;
   Portfolio.mkItem ∅ 0].

End Examples.

(** ** The header: listeners and user actions *)

Module HeaderEvents.

Import Header.

(** The keydown listener [handleMenuToggle] puts on [document]. *)
Definition documentKeydown (key : string) (s : State) : State :=
  if String.eqb key "Escape" && isMenuOpen s then closeMenu s else s.

(** The keydown listener [handleKeyboardNavigation] puts on every element
    of [this.navLinks]: Enter and Space call [link.click()], which runs the
    click listeners of the link at once. *)
Definition linkKeydown (pg : Page) (key : string) (link : Link) (s : State) : State :=
  if inNavLinks link && (String.eqb key "Enter" || String.eqb key " ")
  then click pg link (log PreventDefault s)
  else s.

(** The click listener [handleMenuToggle] puts on the toggle. *)
Definition toggleClick (s : State) : State :=
  toggleMenu (log PreventDefault s).

(** What reaches the listeners of the header script. *)
Inductive Action :=
| ClickToggle                                  (* click on .menu-toggle *)
| Keydown (key : string)                       (* a key pressed outside the links *)
| KeydownLink (key : string) (link : Link)     (* a key pressed on a link; it bubbles *)
| ClickLink (link : Link)
| ScrollEvent                                  (* the scroll event; the handler reads scrollY *)
| ThrottleTimer.                               (* the timer of throttle runs out *)

Definition step (pg : Page) (s : State) (a : Action) : State :=
  match a with
  | ClickToggle => toggleClick s
  | Keydown key => documentKeydown key s
  | KeydownLink key link => documentKeydown key (linkKeydown pg key link s)
  | ClickLink link => click pg link s
  | ScrollEvent => scrollHandler (scrollY s) s
  | ThrottleTimer => throttleTimeout s
  end.

Definition run (pg : Page) (s : State) (l : list Action) : State :=
  foldl (step pg) s l.

(** Everything that shows the menu state agrees with [isMenuOpen]. *)
Definition in_sync (s : State) : Prop :=
  Js.cl_contains "active" (classList s MenuToggle) = isMenuOpen s ∧
  Js.cl_contains "active" (classList s NavOverlay) = isMenuOpen s ∧
  Js.cl_contains "menu-open" (classList s HeaderEl) = isMenuOpen s ∧
  Js.cl_contains "menu-open" (classList s Body) = isMenuOpen s ∧
  Js.cl_contains "menu-open" (classList s DocumentElement) = isMenuOpen s ∧
  String.eqb (position (bodyStyle s)) "fixed" = isMenuOpen s ∧
  overflow (bodyStyle s) = (if isMenuOpen s then "hidden" else "") ∧
  ariaExpanded s = Js.string_of_bool (isMenuOpen s) ∧
  ariaLabel s = (if isMenuOpen s then "Cerrar menú" else "Abrir menú").

End HeaderEvents.

(** ** The header (simple variant)

    The second version of the header script: no overlay, no saved offset.
    It locks the page with [overflow: hidden] alone and closes the menu on
    a click anywhere outside the toggle.  The state is the one of the
    overlay variant; [scrollPosition] and the overlay are not used. *)

Module HeaderSimple.

Import Header.

Definition toggleMenu (s : State) : State :=
  let s := set_isMenuOpen (negb (isMenuOpen s)) s in
  let s := classes_upd MenuToggle (Js.cl_toggle "active") s in
  let s := set_aria (Js.string_of_bool (isMenuOpen s)) (ariaLabel s) s in
  let label := if isMenuOpen s then "Cerrar menú" else "Abrir menú" in
  let s := set_aria (ariaExpanded s) label s in
  let b := bodyStyle s in
  writeBodyStyle
    (mkBodyStyle (position b) (top b) (width b) (if isMenuOpen s then "hidden" else "")) s.

Definition closeMenu (s : State) : State :=
  let s := log CloseMenu s in
  let s := set_isMenuOpen false s in
  let s := classes_upd MenuToggle (Js.cl_remove "active") s in
  let s := set_aria "false" (ariaLabel s) s in
  let s := set_aria (ariaExpanded s) "Abrir menú" s in
  let b := bodyStyle s in
  writeBodyStyle (mkBodyStyle (position b) (top b) (width b) "") s.

(** The click listener [handleSmoothScroll] puts on every element of
    [this.navLinks]. *)
Definition smoothScrollClick (pg : Page) (link : Link) (s : State) : State :=
  match href link with
  | Some (String "#"%char targetId as h) =>
      let s := log PreventDefault s in
      match getElementById pg targetId with
      | Some offsetTop =>
          let headerHeight := headerOffsetHeight pg in
          let targetPosition := offsetTop - headerHeight in
          let s := scrollToSmooth targetPosition s in
          let s := if isMenuOpen s then closeMenu s else s in
          set_location (Some h) (log (PushState h) s)
      | None => s
      end
  | _ => s
  end.

(** Where a click lands.  Links lie outside the toggle. *)
Inductive Target :=
| OnToggle
| OnLink (link : Link)
| Elsewhere.

(** The click listener on [document]; [inToggle] is
    [this.menuToggle.contains(e.target)]. *)
Definition documentClick (inToggle : bool) (s : State) : State :=
  if isMenuOpen s && negb inToggle then closeMenu s else s.

Definition documentKeydown (key : string) (s : State) : State :=
  if String.eqb key "Escape" && isMenuOpen s then closeMenu s else s.

(** A click runs the listeners of its target, then bubbles to
    [document]. *)
Definition clickAt (pg : Page) (t : Target) (s : State) : State :=
  match t with
  | OnToggle => documentClick true (toggleMenu (log PreventDefault s))
  | OnLink link =>
      documentClick false
        (if inNavLinks link then smoothScrollClick pg link s else s)
  | Elsewhere => documentClick false s
  end.

Inductive Action :=
| Click (t : Target)
| Keydown (key : string)
| KeydownLink (key : string) (link : Link).

Definition step (pg : Page) (s : State) (a : Action) : State :=
  match a with
  | Click t => clickAt pg t s
  | Keydown key => documentKeydown key s
  | KeydownLink key link =>
      documentKeydown key
        (if inNavLinks link && (String.eqb key "Enter" || String.eqb key " ")
         then clickAt pg (OnLink link) (log PreventDefault s)
         else s)
  end.

Definition run (pg : Page) (s : State) (l : list Action) : State :=
  foldl (step pg) s l.

Definition in_sync (s : State) : Prop :=
  Js.cl_contains "active" (classList s MenuToggle) = isMenuOpen s ∧
  overflow (bodyStyle s) = (if isMenuOpen s then "hidden" else "") ∧
  ariaExpanded s = Js.string_of_bool (isMenuOpen s) ∧
  ariaLabel s = (if isMenuOpen s then "Cerrar menú" else "Abrir menú").

End HeaderSimple.

(** ** The statistic counter: texts *)

Module StatText.

Import ScrollAnimations.

(** No character of the string is a decimal digit. *)
Fixpoint no_digit (s : string) : bool :=
  match s with
  | EmptyString => true
  | String c r => negb (is_digit c) && no_digit r
  end.

(** Every character of the string is a decimal digit. *)
Fixpoint all_digits (s : string) : bool :=
  match s with
  | EmptyString => true
  | String c r => is_digit c && all_digits r
  end.

(** A numeral as [String(n)] prints it: digits only, not empty, and no
    leading zero unless it is the numeral 0 itself. *)
Definition canonical (d : string) : bool :=
  all_digits d &&
  match d with
  | EmptyString => false
  | String "0"%char EmptyString => true
  | String "0"%char _ => false
  | _ => true
  end.

End StatText.

(** ** Viewport watchers: the rest of the callbacks *)

Module ObserverEvents.

Import Observers.

(** Some entry of the list reports target [t] as intersecting. *)
Definition intersects (t : nat) (entries : list Entry) : bool :=
  existsb (λ e, Nat.eqb (target e) t && isIntersecting e) entries.

(** The source an image ends up with once it has been seen: its data-src
    if that is there and not empty, else the source it has. *)
Definition promoted (i : Img) : string :=
  match dataset_src i with
  | Some d => d
  | None => src i
  end.

(** *** [PerformanceOptimizer.optimizeAnimations]

    The inline [animationPlayState] of the decorative elements; the empty
    string stands for a style that was never set. *)
Definition playEntry (s : nat → string) (entry : Entry) : nat → string :=
  if isIntersecting entry
  then <[target entry := "running"]> s
  else <[target entry := "paused"]> s.

Definition playCallback (s : nat → string) (entries : list Entry) : nat → string :=
  foldl playEntry s entries.

(** The last entry of the list that is about target [t]. *)
Definition last_entry_for (t : nat) (entries : list Entry) : option Entry :=
  last (filter (λ e, target e = t) entries).

(** *** The timers of [FooterAnimations.triggerAnimations] *)

Definition schedule (letters : nat) : list (Z * TimerAction) :=
  timers (triggerAnimations letters (mkFooterState false 0 [])).

End ObserverEvents.

(** ** Portfolio items: keyboard listeners and event sequences *)

Module PortfolioEvents.

Import Portfolio.

Definition focused (it : Item) : bool :=
  Js.cl_contains "portfolio__item--focused" (itemClasses it).

Definition on_classes (f : gset string → gset string) (i : nat) (items : list Item)
  : list Item :=
  alter (λ it, mkItem (f (itemClasses it)) (touchStartTime it)) i items.

(** The keydown, focus and blur listeners [handleKeyboardAccess] puts on
    item [i]. *)
Definition keydown (i : nat) (key : string) (items : list Item) : list Item :=
  if String.eqb key "Enter" || String.eqb key " "
  then on_classes (Js.cl_toggle "portfolio__item--focused") i items
  else items.

Definition focus (i : nat) (items : list Item) : list Item :=
  on_classes (Js.cl_add "portfolio__item--focused") i items.

Definition blur (i : nat) (items : list Item) : list Item :=
  on_classes (Js.cl_remove "portfolio__item--focused") i items.

Inductive Event :=
| Touchstart (i : nat) (now : Z)
| Touchend (i : nat) (now : Z)
| Keydown (i : nat) (key : string)
| Focus (i : nat)
| Blur (i : nat).

Definition step (items : list Item) (ev : Event) : list Item :=
  match ev with
  | Touchstart i now => touchstart i now items
  | Touchend i now => touchend i now items
  | Keydown i key => keydown i key items
  | Focus i => focus i items
  | Blur i => blur i items
  end.

Definition run (items : list Item) (evs : list Event) : list Item :=
  foldl step items evs.

Definition is_touch (ev : Event) : bool :=
  match ev with Touchstart _ _ | Touchend _ _ => true | _ => false end.

Definition at_most_one_touched (items : list Item) : Prop :=
  ∀ j k oj ok, items !! j = Some oj → items !! k = Some ok →
               touched oj = true → touched ok = true → j = k.

End PortfolioEvents.

(** ** [AccessibilityEnhancer] *)

Module AccessibilityEnhancer.

(** The custom properties [handleReducedMotion] sets on the root element. *)
Definition duration_properties : list string :=
  [ "--animation-duration-fast"; "--animation-duration-normal";
    "--animation-duration-slow"; "--animation-duration-image-slide";
    "--animation-duration-marquee" ].

(** [matches] is what the media query (prefers-reduced-motion: reduce)
    answers; [style] is the inline style of the root element, by property
    name. *)
Definition handleReducedMotion (matches : bool) (style : gmap string string)
  : gmap string string :=
  if matches then
    let style := <["--animation-duration-fast" := "0ms"]> style in
    let style := <["--animation-duration-normal" := "0ms"]> style in
    let style := <["--animation-duration-slow" := "0ms"]> style in
    let style := <["--animation-duration-image-slide" := "0ms"]> style in
    <["--animation-duration-marquee" := "0ms"]> style
  else style.

(** The two listeners of [improveKeyboardNavigation] on [document]. *)
Inductive DocEvent :=
| DocKeydown (key : string)
| DocMousedown.

Definition docStep (body : gset string) (ev : DocEvent) : gset string :=
  match ev with
  | DocKeydown key =>
      if String.eqb key "Tab" then Js.cl_add "keyboard-navigation" body else body
  | DocMousedown => Js.cl_remove "keyboard-navigation" body
  end.

Definition docRun (body : gset string) (evs : list DocEvent) : gset string :=
  foldl docStep body evs.

(** What an event says about the input mode: Tab says keyboard, a mouse
    button says mouse, any other key says nothing. *)
Definition mode_of (ev : DocEvent) : option bool :=
  match ev with
  | DocKeydown key => if String.eqb key "Tab" then Some true else None
  | DocMousedown => Some false
  end.

(** The mode the last telling event of a list gives, if any does. *)
Fixpoint last_mode (evs : list DocEvent) (acc : option bool) : option bool :=
  match evs with
  | [] => acc
  | ev :: rest =>
      last_mode rest (match mode_of ev with Some m => Some m | None => acc end)
  end.

End AccessibilityEnhancer.

(** ** The draggable decorations: what holds in every scope *)

Module DragInvariants.

Import MiniPolaroids.

(** The largest translation of element [k] on each axis, as [dragMove]
    computes it from the two rectangles. *)
Definition maxX (about : Rect) (ly : Layout) (k : nat) : Z :=
  width about - width (elementRect ly k).
Definition maxY (about : Rect) (ly : Layout) (k : nat) : Z :=
  height about - height (elementRect ly k).

(** A transform [dragMove] can have written for an element with classes
    [cl] on layout [ly]. *)
Definition clamped (ly : Layout) (k : nat) (cl : gset string) (t : option Transform)
  : Prop :=
  ∃ about x y,
    aboutSection ly = Some about ∧
    t = Some (mkTransform x y (first_rotation cl rotations)) ∧
    0 ≤ x ≤ Z.max 0 (maxX about ly k) ∧
    0 ≤ y ≤ Z.max 0 (maxY about ly k).

(** Every element has the classes [cls] gives it, and the transform it
    started with or a clamped one. *)
Definition safe (ly : Layout) (cls : nat → gset string) (T : nat → option Transform)
    (h : Heap) : Prop :=
  ∀ k, classList (elements h k) = cls k ∧
       (transform (elements h k) = T k ∨ clamped ly k (cls k) (transform (elements h k))).

End DragInvariants.

(** ** The header: preview images of the overlay *)

Module NavImages.

(** A [.nav-image]: its data-category attribute, if it has one, and
    whether it carries the class active. *)
Record NavImage := mkNavImage {
  category : option string;
  active : bool
}.

(** The elements of class nav-image in document order (the node list
    the constructor takes; the page adds and removes none) and the timers
    of [switchImage] that have not run yet, each holding the element it
    will activate: an image by its place, or an element that is none of
    the images. *)
Record State := mkState {
  images : list NavImage;
  pending : list (option nat)
}.

(** The template literal [[data-category="${category}"].nav-image];
    an undefined [category] is written out as the word. *)
Definition double_quote : string := String (ascii_of_nat 34) EmptyString.

Definition interpolate (category : option string) : string :=
  default "undefined" category.

Definition selector (category : option string) : string :=
  "[data-category=" +:+ double_quote +:+ interpolate category +:+ double_quote
    +:+ "].nav-image".

(** What [document.querySelector] can answer: an image, an element that
    is none of the images, [null], or a SyntaxError for a string that is
    no selector. *)
Inductive Found :=
| ImageAt (i : nat)
| OtherElement
| Null
| SyntaxError.

(** How the browser reads the selector string is its own business: a
    category is copied into the string as it is, and a quote or a
    backslash in it changes what the string says. *)
Class Document := querySelector : string → list NavImage → Found.

(** The first image whose data-category is the given text. *)
Fixpoint find_category (c : string) (imgs : list NavImage) : option nat :=
  match imgs with
  | [] => None
  | img :: rest =>
      match category img with
      | Some c' => if String.eqb c' c then Some O else S <$> find_category c rest
      | None => S <$> find_category c rest
      end
  end.

(** A character that a string of CSS holds as it is written: not the
    quote, the backslash, a line break or the null character. *)
Definition verbatim (c : ascii) : bool :=
  negb (bool_decide (nat_of_ascii c ∈ [0; 10; 12; 13; 34; 92]%nat)).

Fixpoint plain (s : string) : bool :=
  match s with
  | EmptyString => true
  | String c r => verbatim c && plain r
  end.

(** The reading of CSS for a category of such characters: the selector
    picks the first image that carries the attribute with that very
    value. *)
Definition reads_attribute_selectors `{Document} : Prop :=
  ∀ (c : option string) (imgs : list NavImage),
    plain (interpolate c) = true →
    querySelector (selector c) imgs
    = match find_category (interpolate c) imgs with
      | Some i => ImageAt i
      | None => Null
      end.

(** A document that compares the selector with the one each image's own
    category would give. *)
Fixpoint by_own_selector (sel : string) (imgs : list NavImage) : option nat :=
  match imgs with
  | [] => None
  | img :: rest =>
      match category img with
      | Some c' =>
          if String.eqb (selector (Some c')) sel then Some O
          else S <$> by_own_selector sel rest
      | None => S <$> by_own_selector sel rest
      end
  end.

Definition sample_document : Document :=
  λ sel imgs, match by_own_selector sel imgs with
              | Some i => ImageAt i
              | None => Null
              end.

Inductive Outcome := Done | Thrown.

Section WithDocument.

Context {D : Document}.

(** [switchImage]: the images are cleared before the selector is put
    together, so they stay cleared when [querySelector] throws. *)
Definition switchImage (c : option string) (s : State) : Outcome * State :=
  let imgs := map (λ img, mkNavImage (category img) false) (images s) in
  match querySelector (selector c) imgs with
  | ImageAt targetImage => (Done, mkState imgs (pending s ++ [Some targetImage]))
  | OtherElement => (Done, mkState imgs (pending s ++ [None]))
  | Null => (Done, mkState imgs (pending s))
  | SyntaxError => (Thrown, mkState imgs (pending s))
  end.

(** The mouseenter listener of an overlay item with the given
    data-category; an error it throws is reported and the page goes on. *)
Definition mouseenter (c : option string) (s : State) : State :=
  snd (switchImage c s).

End WithDocument.

(** The oldest timer runs out. *)
Definition timeout (s : State) : State :=
  match pending s with
  | [] => s
  | Some i :: rest =>
      mkState (alter (λ img, mkNavImage (category img) true) i (images s)) rest
  | None :: rest => mkState (images s) rest
  end.

End NavImages.

(** ** [debounce] *)

Module Debounce.

Section WithArgs.

Context {A : Type}.

(** The closure of a debounced function: the timer that is set, with the
    time it runs out and the arguments it will pass on, and the calls of
    [func] made so far, each with the time of the timer that made it. *)
Record State := mkState {
  timer : option (Z * A);
  invoked : list (Z * A)
}.

(** Time moves on to [now]: a timer that has run out by then calls
    [func]. *)
Definition advance (now : Z) (s : State) : State :=
  match timer s with
  | Some (due, args) =>
      if due <=? now then mkState None (invoked s ++ [(due, args)]) else s
  | None => s
  end.

(** [executedFunction(...args)] at time [now], with delay [wait]:
    the timer that is set is cleared and a new one is set. *)
Definition executedFunction (wait : Z) (s : State) (call : Z * A) : State :=
  let '(now, args) := call in
  let s := advance now s in
  mkState (Some (now + wait, args)) (invoked s).

Definition run (wait : Z) (calls : list (Z * A)) : State :=
  foldl (executedFunction wait) (mkState None []) calls.

(** Each call comes less than [wait] after the one before it. *)
Fixpoint quick (wait : Z) (prev : Z) (calls : list (Z * A)) : Prop :=
  match calls with
  | [] => True
  | (now, _) :: rest => prev ≤ now < prev + wait ∧ quick wait now rest
  end.

End WithArgs.

Arguments State : clear implicits.

End Debounce.



(** * Properties *)

(** ** Class lists *)

Section ClassLists.

Lemma cl_add_elem (c d : string) (s : gset string) :
  c ∈ Js.cl_add d s ↔ c = d ∨ c ∈ s.
Proof. unfold Js.cl_add. rewrite elem_of_union, elem_of_singleton. tauto. Qed.

Lemma cl_remove_elem (c d : string) (s : gset string) :
  c ∈ Js.cl_remove d s ↔ c ≠ d ∧ c ∈ s.
Proof. unfold Js.cl_remove. rewrite elem_of_difference, elem_of_singleton. tauto. Qed.

Lemma cl_contains_true (c : string) (s : gset string) :
  Js.cl_contains c s = true ↔ c ∈ s.
Proof. unfold Js.cl_contains. apply bool_decide_eq_true. Qed.

Lemma cl_contains_false (c : string) (s : gset string) :
  Js.cl_contains c s = false ↔ c ∉ s.
Proof. unfold Js.cl_contains. apply bool_decide_eq_false. Qed.

Lemma cl_contains_remove (c : string) (s : gset string) :
  Js.cl_contains c (Js.cl_remove c s) = false.
Proof. apply cl_contains_false. rewrite cl_remove_elem. tauto. Qed.

Lemma cl_contains_toggle (c : string) (s : gset string) :
  Js.cl_contains c (Js.cl_toggle c s) = negb (Js.cl_contains c s).
Proof.
  unfold Js.cl_toggle. destruct (Js.cl_contains c s) eqn:E; simpl.
  - apply cl_contains_remove.
  - apply cl_contains_true, cl_add_elem. now left.
Qed.

Lemma clamp0_id (v hi : Z) : 0 ≤ v ≤ hi → Js.clamp0 v hi = v.
Proof. unfold Js.clamp0. lia. Qed.

Lemma clamp0_bounds (v hi : Z) : 0 ≤ Js.clamp0 v hi ≤ Z.max 0 hi.
Proof. unfold Js.clamp0. lia. Qed.

Lemma or_num_same (q : bool) (y : Z) : Js.or_num y (if q then 0 else y) = y.
Proof. unfold Js.or_num. destruct (Z.eqb_spec y 0), q; congruence. Qed.

End ClassLists.

(** ** The header *)

Section HeaderProperties.

Import Header.

(** Evaluates the header methods on a state given by its fields; the
    setters are unfolded once each. *)
Ltac header_eval :=
  cbv beta iota zeta delta
    [smoothScrollClick href inNavLinks inNavItems
     toggleMenu closeMenu disableScroll enableScroll writeBodyStyle scrollTo
     scrollToSmooth classes_upd log set_scroll set_classList set_bodyStyle
     set_aria set_location set_isMenuOpen set_scrollPosition set_inThrottle
     scrollY scrollMax smoothTarget quirksMode classList bodyStyle ariaExpanded
     ariaLabel location isMenuOpen scrollPosition inThrottle calls
     position top width overflow clampScroll scrollRange pageYOffset
     documentElement_scrollTop restingScroll default negb];
  change (String.eqb "fixed" "fixed") with true;
  change (String.eqb "" "fixed") with false;
  cbv iota.

Lemma scrollReaction_scrolled (s : State) (y : Z) :
  "scrolled" ∈ classList (scrollReaction y s) HeaderEl
  ↔ HEADER_CONFIG.SCROLL_THRESHOLD < y.
Proof.
  unfold scrollReaction.
  destruct (Z.ltb_spec HEADER_CONFIG.SCROLL_THRESHOLD y) as [H|H]; cbn.
  - rewrite fn_lookup_insert, cl_add_elem. intuition.
  - rewrite fn_lookup_insert, cl_remove_elem. split; [intros [? _]; congruence | lia].
Qed.

(** A scroll event that falls into the throttle window changes nothing. *)
Lemma scrollHandler_throttled (s : State) (y : Z) :
  inThrottle s = true → scrollHandler y s = s.
Proof. intros H. unfold scrollHandler, throttle. rewrite H. reflexivity. Qed.

(** C9.  When the throttled scroll handler runs (the throttle flag is
    down) at scroll offset [y], the header carries the class scrolled
    afterwards if and only if [y > 50]; for [y ≤ 50] it does not. *)
Theorem scrolled_iff_past_threshold (s : State) (y : Z) :
  inThrottle s = false →
  ("scrolled" ∈ classList (scrollHandler y s) HeaderEl ↔ 50 < y) ∧
  (y ≤ 50 → "scrolled" ∉ classList (scrollHandler y s) HeaderEl).
Proof.
  intros Hrun.
  assert (E : classList (scrollHandler y s) HeaderEl
              = classList (scrollReaction y s) HeaderEl).
  { unfold scrollHandler, throttle. rewrite Hrun. reflexivity. }
  rewrite E. pose proof (scrollReaction_scrolled s y) as H.
  change HEADER_CONFIG.SCROLL_THRESHOLD with 50 in H.
  split; [exact H | intros Hle Hin; apply H in Hin; lia].
Qed.

Lemma scrolled_iff_past_threshold_witness :
  "scrolled" ∈ classList (scrollHandler 51 Examples.page_at_734) HeaderEl ↔ 50 < 51.
Proof.
  apply (scrolled_iff_past_threshold Examples.page_at_734 51). reflexivity.
Defined.

(** C1.  Opening the menu at scroll offset [p] saves [p], pins the body
    with [position: fixed] and [top: -p px], and closing it again, by the
    toggle or by [closeMenu], puts the page back at exactly [p]. *)
Theorem menu_open_close_restores_scroll (s : State) (p : Z) :
  isMenuOpen s = false →
  scrollY s = p →
  0 ≤ p ≤ scrollMax s →
  let opened := toggleMenu s in
  isMenuOpen opened = true ∧
  scrollPosition opened = p ∧
  position (bodyStyle opened) = "fixed" ∧
  top (bodyStyle opened) = "-" +:+ pretty p +:+ "px" ∧
  scrollY (toggleMenu opened) = p ∧
  scrollY (closeMenu opened) = p.
Proof.
  intros Hclosed Hy Hp opened. subst opened.
  destruct s as [y m t q cl b ae al loc o sp th cs].
  cbn in Hclosed, Hy, Hp. subst o y.
  header_eval. rewrite or_num_same. cbv iota.
  repeat split; try reflexivity; apply clamp0_id; exact Hp.
Qed.

Lemma menu_open_close_restores_scroll_witness :
  scrollY (toggleMenu (toggleMenu Examples.page_at_734)) = 734.
Proof.
  apply (menu_open_close_restores_scroll Examples.page_at_734 734);
    [reflexivity | reflexivity | cbn; lia].
Defined.

(** While the body is pinned the page itself sits at offset 0: the
    saved value is what brings it back. *)
Lemma pinned_page_is_at_top (s : State) :
  isMenuOpen s = false → scrollY (toggleMenu s) = 0.
Proof.
  intros Hclosed. destruct s as [y m t q cl b ae al loc o sp th cs].
  cbn in Hclosed. subst o. header_eval. unfold Js.clamp0. lia.
Qed.

(** A link of [navLinks] clicked while the menu is open: the smooth
    scroll is started first, [closeMenu] runs after it and its
    [scrollTo(0, scrollPosition)] ends the smooth scroll; the page rests
    at the saved offset. *)
Lemma navLink_click_while_open (pg : Page) (s : State) (id : string) (off : Z) :
  getElementById pg id = Some off →
  isMenuOpen s = true →
  0 ≤ scrollPosition s ≤ scrollMax s →
  let s' := click pg (mkLink (Some (String "#" id)) true false) s in
  calls s' = calls s ++ [PreventDefault; ScrollToSmooth (off - headerOffsetHeight pg);
                         CloseMenu; ScrollToInstant 0 (scrollPosition s);
                         PushState (String "#" id)] ∧
  isMenuOpen s' = false ∧
  restingScroll s' = scrollPosition s ∧
  location s' = Some (String "#" id).
Proof.
  intros Hget Hopen Hsp s'. subst s'.
  destruct s as [y m t q cl b ae al loc o sp th cs].
  cbn in Hopen, Hsp. subst o.
  unfold click, clickListeners. cbn [inNavItems inNavLinks app foldl].
  header_eval. rewrite Hget. header_eval.
  rewrite <- !app_assoc. cbn [app].
  repeat split; try reflexivity. apply clamp0_id, Hsp.
Qed.

(** An overlay item clicked while the menu is open: its [closeMenu]
    listener was registered first and runs first; the smooth scroll
    that follows goes to the target's top minus the header height. *)
Lemma navItem_click_while_open (pg : Page) (s : State) (id : string) (off : Z) :
  getElementById pg id = Some off →
  0 ≤ off - headerOffsetHeight pg ≤ scrollMax s →
  let s' := click pg (mkLink (Some (String "#" id)) false true) s in
  calls s' = calls s ++ [CloseMenu; ScrollToInstant 0 (scrollPosition s);
                         PreventDefault; ScrollToSmooth (off - headerOffsetHeight pg);
                         PushState (String "#" id)] ∧
  isMenuOpen s' = false ∧
  restingScroll s' = off - headerOffsetHeight pg ∧
  location s' = Some (String "#" id).
Proof.
  intros Hget Hrange s'. subst s'.
  destruct s as [y m t q cl b ae al loc o sp th cs].
  cbn in Hrange.
  unfold click, clickListeners. cbn [inNavItems inNavLinks app foldl].
  header_eval. rewrite Hget. header_eval.
  rewrite <- !app_assoc. cbn [app].
  repeat split; try reflexivity. apply clamp0_id, Hrange.
Qed.

(** C2, on the page scrolled to 734 with the menu open, a header 80px
    high and the target at 2000: clicking a footer link starts the smooth
    scroll to 1920 before [closeMenu] runs, and [closeMenu] then jumps
    back to 734, where the page stays; the URL does get the fragment. *)
Theorem footer_link_click_returns_to_saved_offset :
  let opened := toggleMenu Examples.page_at_734 in
  let s' := click Examples.page_with_about Examples.footer_link opened in
  isMenuOpen opened = true ∧
  calls s' = [PreventDefault; ScrollToSmooth 1920; CloseMenu;
              ScrollToInstant 0 734; PushState "#about"] ∧
  restingScroll s' = 734 ∧
  restingScroll s' ≠ 2000 - 80 ∧
  location s' = Some "#about".
Proof. vm_compute. repeat split; congruence. Qed.

End HeaderProperties.

(** ** The statistic counter *)

Section NumberProperties.

Import Number.
Local Open Scope Q_scope.

Lemma two_power_pos (e : Z) : 0 < 2 ^ e.
Proof. apply Qpower_0_lt. reflexivity. Qed.

Lemma two_power_plus (a b : Z) : 2 ^ (a + b) == 2 ^ a * 2 ^ b.
Proof. apply Qpower_plus. discriminate. Qed.

Lemma two_power_succ (a : Z) : 2 ^ (a + 1) == 2 * 2 ^ a.
Proof. rewrite two_power_plus. change (2 ^ 1) with 2. ring. Qed.

Lemma two_power_le (a b : Z) : (a <= b)%Z → 2 ^ a <= 2 ^ b.
Proof. intros H. apply Qpower_le_compat_l; [exact H | discriminate]. Qed.

Lemma two_power_lt (a b : Z) : (a < b)%Z → 2 ^ a < 2 ^ b.
Proof. intros H. apply Qpower_lt_compat_l; [exact H | reflexivity]. Qed.

Lemma two_power_lt_inv (a b : Z) : 2 ^ a < 2 ^ b → (a < b)%Z.
Proof. intros H. apply (Qpower_lt_compat_l_inv 2); [exact H | reflexivity]. Qed.

Lemma two_power_Z (a : Z) : (0 <= a)%Z → inject_Z (2 ^ a) == 2 ^ a.
Proof. intros H. rewrite Zpower_Qpower by exact H. reflexivity. Qed.

Lemma Qltb_lt (x y : Q) : Qltb x y = true ↔ x < y.
Proof.
  unfold Qltb. rewrite negb_true_iff. split.
  - intros H. apply Qnot_le_lt. intros Hle. apply Qle_bool_iff in Hle. congruence.
  - intros H. destruct (Qle_bool y x) eqn:E; [|reflexivity].
    apply Qle_bool_iff in E. lra.
Qed.

Lemma Qltb_ge (x y : Q) : Qltb x y = false ↔ y <= x.
Proof.
  unfold Qltb. rewrite negb_false_iff. apply Qle_bool_iff.
Qed.

(** [ilog2] is the binary logarithm rounded down. *)
Lemma ilog2_spec (q : Q) : 0 < q → 2 ^ ilog2 q <= q ∧ q < 2 ^ (ilog2 q + 1).
Proof.
  intros Hq. unfold ilog2.
  destruct q as [n d]. cbn [Qnum Qden].
  assert (Hn : (0 < n)%Z) by (unfold Qlt in Hq; cbn in Hq; lia).
  set (a := Z.log2 n). set (b := Z.log2 (Z.pos d)).
  destruct (Z.log2_spec n Hn) as [Ha1 Ha2]. fold a in Ha1, Ha2.
  destruct (Z.log2_spec (Z.pos d) eq_refl) as [Hb1 Hb2]. fold b in Hb1, Hb2.
  assert (Ha0 : (0 <= a)%Z) by apply Z.log2_nonneg.
  assert (Hb0 : (0 <= b)%Z) by apply Z.log2_nonneg.
  rewrite Zle_Qle, two_power_Z in Ha1, Hb1 by assumption.
  rewrite Zlt_Qlt, <- Z.add_1_r, two_power_Z, two_power_succ in Ha2, Hb2 by lia.
  assert (E : n # d == inject_Z n * / inject_Z (Z.pos d)) by apply Qmake_Qdiv.
  assert (Hk : 2 ^ (a - b) == 2 ^ a * / 2 ^ b) by (apply Qpower_minus; discriminate).
  pose proof (two_power_pos a) as HA. pose proof (two_power_pos b) as HB.
  set (N := inject_Z n) in *. set (D := inject_Z (Z.pos d)) in *.
  set (A := 2 ^ a) in *. set (B := 2 ^ b) in *.
  assert (HD : 0 < D) by lra.
  assert (HiD : 0 < / D) by (apply Qinv_lt_0_compat, HD).
  assert (HiB : 0 < / B) by (apply Qinv_lt_0_compat, HB).
  assert (ED : D * / D == 1) by (apply Qmult_inv_r; lra).
  assert (EB : B * / B == 1) by (apply Qmult_inv_r; lra).
  set (iD := / D) in *. set (iB := / B) in *.
  (* comparisons of the inverses *)
  assert (H1 : iD <= iB).
  { assert (iD * B <= 1) by nra. nra. }
  assert (H2 : iB <= 2 * iD).
  { assert (1 <= 2 * iD * B) by nra. nra. }
  destruct (Qle_bool (2 ^ (a - b)) (n # d)) eqn:Ele.
  - apply Qle_bool_iff in Ele. split; [exact Ele|].
    rewrite two_power_succ, Hk, E. nra.
  - assert (Hlt : n # d < 2 ^ (a - b)).
    { apply Qnot_le_lt. intros H. apply Qle_bool_iff in H. congruence. }
    replace (a - b - 1 + 1)%Z with (a - b)%Z by lia. split; [|exact Hlt].
    assert (Hh : 2 ^ (a - b) == 2 * 2 ^ (a - b - 1)).
    { rewrite <- two_power_succ. replace (a - b - 1 + 1)%Z with (a - b)%Z by lia. reflexivity. }
    rewrite E. rewrite Hk in Hh. nra.
Qed.

Lemma ilog2_unique (q : Q) (k : Z) :
  2 ^ k <= q → q < 2 ^ (k + 1) → ilog2 q = k.
Proof.
  intros H1 H2.
  assert (Hq : 0 < q) by (pose proof (two_power_pos k); lra).
  destruct (ilog2_spec q Hq) as [H3 H4].
  assert (ilog2 q < k + 1)%Z by (apply two_power_lt_inv; lra).
  assert (k < ilog2 q + 1)%Z by (apply two_power_lt_inv; lra).
  lia.
Qed.

Lemma ilog2_comp (p q : Q) : 0 < p → p == q → ilog2 p = ilog2 q.
Proof.
  intros Hp E. destruct (ilog2_spec p Hp) as [H1 H2].
  symmetry. apply ilog2_unique; lra.
Qed.

Lemma ilog2_mono (p q : Q) : 0 < p → p <= q → (ilog2 p <= ilog2 q)%Z.
Proof.
  intros Hp Hle.
  destruct (ilog2_spec p Hp) as [H1 _].
  destruct (ilog2_spec q) as [_ H2]; [lra|].
  assert (ilog2 p < ilog2 q + 1)%Z by (apply two_power_lt_inv; lra).
  lia.
Qed.

(** *** Rounding to the nearest integer *)

Lemma round_half_even_bounds (q : Q) :
  (Qfloor q <= round_half_even q <= Qfloor q + 1)%Z.
Proof.
  unfold round_half_even.
  destruct (Qcompare (q - inject_Z (Qfloor q)) (1 # 2)); [destruct (Z.even _)| |]; lia.
Qed.

Lemma round_half_even_Z (z : Z) : round_half_even (inject_Z z) = z.
Proof.
  unfold round_half_even. rewrite Qfloor_Z.
  assert (E : Qcompare (inject_Z z - inject_Z z) (1 # 2) = Lt).
  { rewrite <- Qlt_alt. lra. }
  rewrite E. reflexivity.
Qed.

Lemma round_half_even_comp (p q : Q) : p == q → round_half_even p = round_half_even q.
Proof.
  intros E. unfold round_half_even. rewrite (Qfloor_comp _ _ E).
  assert (Ec : Qcompare (p - inject_Z (Qfloor q)) (1 # 2)
               = Qcompare (q - inject_Z (Qfloor q)) (1 # 2)).
  { apply Qcompare_comp; [rewrite E|]; reflexivity. }
  rewrite Ec. reflexivity.
Qed.

Lemma round_half_even_mono (p q : Q) :
  p <= q → (round_half_even p <= round_half_even q)%Z.
Proof.
  intros Hle.
  pose proof (Qfloor_resp_le _ _ Hle) as Hf.
  pose proof (round_half_even_bounds p) as Hp.
  pose proof (round_half_even_bounds q) as Hq.
  destruct (Z.eq_dec (Qfloor p) (Qfloor q)) as [E|Hne]; [|lia].
  unfold round_half_even in *. rewrite E in *.
  set (f := Qfloor q) in *.
  destruct (Qcompare_spec (p - inject_Z f) (1 # 2)) as [Cp|Cp|Cp];
    destruct (Qcompare_spec (q - inject_Z f) (1 # 2)) as [Cq|Cq|Cq];
    try destruct (Z.even f); try lia; exfalso; lra.
Qed.

Lemma round_half_even_integer (q : Q) (z : Z) :
  q == inject_Z z → round_half_even q = z.
Proof. intros E. rewrite (round_half_even_comp _ _ E). apply round_half_even_Z. Qed.

Lemma round_half_even_le (q : Q) (z : Z) :
  q <= inject_Z z → (round_half_even q <= z)%Z.
Proof.
  intros H. rewrite <- (round_half_even_Z z). apply round_half_even_mono, H.
Qed.

Lemma round_half_even_ge (q : Q) (z : Z) :
  inject_Z z <= q → (z <= round_half_even q)%Z.
Proof.
  intros H. rewrite <- (round_half_even_Z z). apply round_half_even_mono, H.
Qed.

End NumberProperties.

Section RoundingProperties.

Import Number.
Local Open Scope Q_scope.

Lemma exponent_pos (q : Q) : 0 < q → exponent q = Z.max (ilog2 q - 52) (-1074).
Proof.
  intros Hq. unfold exponent. f_equal. f_equal.
  assert (E : Qabs q == q) by (apply Qabs_pos; lra).
  apply ilog2_comp; [lra | exact E].
Qed.

Lemma exponent_comp (p q : Q) : 0 < p → p == q → exponent p = exponent q.
Proof.
  intros Hp E. rewrite !exponent_pos by lra. now rewrite (ilog2_comp p q Hp E).
Qed.

Lemma exponent_mono (p q : Q) : 0 < p → p <= q → (exponent p <= exponent q)%Z.
Proof.
  intros Hp Hle. rewrite !exponent_pos by lra.
  pose proof (ilog2_mono p q Hp Hle). lia.
Qed.

Lemma scaled_lt (q : Q) : 0 < q → q / 2 ^ exponent q < 2 ^ 53.
Proof.
  intros Hq. apply Qlt_shift_div_r; [apply two_power_pos|].
  rewrite <- two_power_plus.
  destruct (ilog2_spec q Hq) as [_ H].
  eapply Qlt_le_trans; [exact H|]. apply two_power_le.
  rewrite exponent_pos by exact Hq. lia.
Qed.

Lemma scaled_ge (q : Q) :
  0 < q → (-1074 < exponent q)%Z → 2 ^ 52 <= q / 2 ^ exponent q.
Proof.
  intros Hq He. apply Qle_shift_div_l; [apply two_power_pos|].
  rewrite <- two_power_plus.
  destruct (ilog2_spec q Hq) as [H _].
  eapply Qle_trans; [|exact H]. apply two_power_le.
  rewrite exponent_pos in * by exact Hq. lia.
Qed.

Lemma zero_scaled (p c : Q) : p == 0 → p / c == inject_Z 0.
Proof. intros E. unfold Qdiv. rewrite E. change (inject_Z 0) with 0. ring. Qed.

Lemma nearest_comp (p q : Q) : p == q → nearest p == nearest q.
Proof.
  intros E. unfold nearest.
  destruct (Qlt_le_dec 0 p) as [Hp|Hp]; [|destruct (Qlt_le_dec p 0) as [Hn|Hz]].
  - rewrite (exponent_comp p q Hp E).
    rewrite (round_half_even_comp (p / 2 ^ exponent q) (q / 2 ^ exponent q));
      [reflexivity | now rewrite E].
  - assert (En : exponent p = exponent q).
    { unfold exponent. f_equal. f_equal.
      assert (Ea : Qabs p == - p) by (apply Qabs_neg; lra).
      assert (Eb : Qabs q == - q) by (apply Qabs_neg; lra).
      apply ilog2_comp; lra. }
    rewrite En.
    rewrite (round_half_even_comp (p / 2 ^ exponent q) (q / 2 ^ exponent q));
      [reflexivity | now rewrite E].
  - assert (Ep : p == 0) by lra. assert (Eq : q == 0) by lra.
    rewrite (round_half_even_integer (p / 2 ^ exponent p) 0)
      by (apply zero_scaled, Ep).
    rewrite (round_half_even_integer (q / 2 ^ exponent q) 0)
      by (apply zero_scaled, Eq).
    reflexivity.
Qed.

Lemma nearest_0 (q : Q) : q == 0 → nearest q == 0.
Proof.
  intros E. unfold nearest.
  rewrite (round_half_even_integer (q / 2 ^ exponent q) 0)
    by (apply zero_scaled, E).
  change (inject_Z 0) with 0. ring.
Qed.

Lemma nearest_nonneg (q : Q) : 0 <= q → 0 <= nearest q.
Proof.
  intros Hq. unfold nearest.
  pose proof (two_power_pos (exponent q)) as He.
  apply Qmult_le_0_compat; [|lra].
  change 0 with (inject_Z 0). rewrite <- Zle_Qle.
  apply round_half_even_ge. change (inject_Z 0) with 0.
  apply Qle_shift_div_l; [exact He|]. lra.
Qed.

Lemma nearest_nonpos (q : Q) : q <= 0 → nearest q <= 0.
Proof.
  intros Hq. unfold nearest.
  pose proof (two_power_pos (exponent q)) as He.
  assert (H : (round_half_even (q / 2 ^ exponent q) <= 0)%Z).
  { apply round_half_even_le. change (inject_Z 0) with 0.
    apply Qle_shift_div_r; [exact He|]. lra. }
  rewrite Zle_Qle in H. change (inject_Z 0) with 0 in H. nra.
Qed.

(** What the rounding of a positive value lies between. *)
Lemma nearest_upper (q : Q) : 0 < q → nearest q <= 2 ^ (exponent q + 53).
Proof.
  intros Hq. unfold nearest.
  pose proof (two_power_pos (exponent q)) as He.
  assert (H : (round_half_even (q / 2 ^ exponent q) <= 2 ^ 53)%Z).
  { apply round_half_even_le. rewrite two_power_Z by lia.
    apply Qlt_le_weak, scaled_lt, Hq. }
  rewrite Zle_Qle, two_power_Z in H by lia.
  rewrite two_power_plus. nra.
Qed.

Lemma nearest_lower (q : Q) :
  0 < q → (-1074 < exponent q)%Z → 2 ^ (exponent q + 52) <= nearest q.
Proof.
  intros Hq Hx. unfold nearest.
  pose proof (two_power_pos (exponent q)) as He.
  assert (H : (2 ^ 52 <= round_half_even (q / 2 ^ exponent q))%Z).
  { apply round_half_even_ge. rewrite two_power_Z by lia.
    apply scaled_ge; assumption. }
  rewrite Zle_Qle, two_power_Z in H by lia.
  rewrite two_power_plus. nra.
Qed.

(** Rounding keeps the order. *)
Lemma nearest_mono (p q : Q) : 0 <= p → p <= q → nearest p <= nearest q.
Proof.
  intros Hp Hle.
  destruct (Qlt_le_dec 0 p) as [Hpos|Hz].
  - assert (Hq : 0 < q) by lra.
    pose proof (exponent_mono p q Hpos Hle) as He.
    destruct (Z.eq_dec (exponent p) (exponent q)) as [E|Hne].
    + unfold nearest. rewrite E.
      pose proof (two_power_pos (exponent q)) as H2.
      assert (H : (round_half_even (p / 2 ^ exponent q)
                   <= round_half_even (q / 2 ^ exponent q))%Z).
      { apply round_half_even_mono. unfold Qdiv.
        apply Qmult_le_compat_r; [exact Hle|].
        apply Qlt_le_weak, Qinv_lt_0_compat, H2. }
      rewrite Zle_Qle in H. nra.
    + assert (Hmin : (-1074 <= exponent p)%Z) by (unfold exponent; lia).
      eapply Qle_trans; [apply nearest_upper, Hpos|].
      eapply Qle_trans; [|apply nearest_lower; [exact Hq|lia]].
      apply two_power_le. lia.
  - rewrite (nearest_0 p) by lra. apply nearest_nonneg. lra.
Qed.

(** A representable value rounds to itself. *)
Lemma nearest_representable_fix (q : Q) : representable q → nearest q == q.
Proof.
  intros (M & e0 & HM & He0 & E).
  destruct (Z.eq_dec M 0%Z) as [->|Hne].
  - rewrite nearest_0; rewrite E; ring.
  - pose proof (two_power_pos e0) as H0.
    assert (HMq : 0 < inject_Z M) by (change 0 with (inject_Z 0); rewrite <- Zlt_Qlt; lia).
    assert (Hq : 0 < q) by (rewrite E; nra).
    set (e := exponent q).
    assert (Hee : (e <= e0)%Z).
    { unfold e. rewrite exponent_pos by exact Hq.
      destruct (ilog2_spec q Hq) as [H1 _].
      assert (Hlt : q < 2 ^ (e0 + 53)).
      { rewrite E, two_power_plus.
        assert (inject_Z M < 2 ^ 53)
          by (rewrite <- two_power_Z by lia; rewrite <- Zlt_Qlt; lia).
        nra. }
      assert (ilog2 q < e0 + 53)%Z by (apply two_power_lt_inv; lra).
      lia. }
    pose proof (two_power_pos e) as H2.
    assert (Es : q / 2 ^ e == inject_Z (M * 2 ^ (e0 - e))).
    { rewrite inject_Z_mult, two_power_Z by lia.
      rewrite (Qpower_minus 2 e0 e) by discriminate.
      rewrite E. field. lra. }
    unfold nearest. fold e.
    rewrite (round_half_even_integer _ _ Es).
    rewrite inject_Z_mult, two_power_Z by lia.
    rewrite (Qpower_minus 2 e0 e) by discriminate.
    rewrite E. field. lra.
Qed.

(** Rounding gives a representable value. *)
Lemma nearest_representable (q : Q) : 0 <= q → representable (nearest q).
Proof.
  intros Hq0. destruct (Qlt_le_dec 0 q) as [Hq|Hz].
  - set (e := exponent q). set (M := round_half_even (q / 2 ^ e)).
    pose proof (two_power_pos e) as H2.
    assert (HM : (0 <= M <= 2 ^ 53)%Z).
    { split.
      - apply round_half_even_ge. change (inject_Z 0) with 0.
        apply Qle_shift_div_l; [exact H2|]. lra.
      - apply round_half_even_le. rewrite two_power_Z by lia.
        apply Qlt_le_weak, scaled_lt, Hq. }
    assert (He : (-1074 <= e)%Z) by (unfold e, exponent; lia).
    destruct (Z.eq_dec M (2 ^ 53)%Z) as [E|Hne].
    + exists (2 ^ 52)%Z, (e + 1)%Z. split; [lia|]. split; [lia|].
      unfold nearest. fold e. fold M. rewrite E.
      rewrite two_power_succ, !two_power_Z by lia.
      change (2 ^ 53) with (2 * 2 ^ 52). ring.
    + exists M, e. split; [lia|]. split; [exact He|]. reflexivity.
  - exists 0%Z, 0%Z. split; [lia|]. split; [lia|].
    rewrite nearest_0 by lra. ring.
Qed.

Lemma nearest_idempotent (q : Q) : 0 <= q → nearest (nearest q) == nearest q.
Proof. intros H. apply nearest_representable_fix, nearest_representable, H. Qed.

Lemma representable_Z (z : Z) : (0 <= z < 2 ^ 53)%Z → representable (inject_Z z).
Proof.
  intros H. exists z, 0%Z. split; [exact H|]. split; [lia|].
  change (2 ^ 0) with 1. ring.
Qed.

End RoundingProperties.

Section NumberOperations.

Import Number.
Local Open Scope Q_scope.

Lemma representable_comp (p q : Q) : p == q → representable p → representable q.
Proof.
  intros E (M & e & HM & He & Hp). exists M, e. split; [exact HM|].
  split; [exact He|]. rewrite <- E. exact Hp.
Qed.

Lemma representable_nonneg (q : Q) : representable q → 0 <= q.
Proof.
  intros (M & e & HM & He & E). pose proof (two_power_pos e).
  assert (0 <= inject_Z M) by (change 0 with (inject_Z 0); rewrite <- Zle_Qle; lia).
  rewrite E. nra.
Qed.

Lemma representable_1 : representable 1.
Proof. apply (representable_Z 1). lia. Qed.

Lemma representable_1000 : representable 1000.
Proof. apply (representable_Z 1000). lia. Qed.

Lemma nearest_1 : nearest 1 == 1.
Proof. apply nearest_representable_fix, representable_1. Qed.

Lemma nearest_unit (q : Q) : 0 <= q → q <= 1 → 0 <= nearest q ∧ nearest q <= 1.
Proof.
  intros H0 H1. split; [apply nearest_nonneg, H0|].
  rewrite <- nearest_1. apply nearest_mono; assumption.
Qed.

(** What [round] gives for a value that is not negative. *)
Lemma round_nonneg_cases (q : Q) :
  0 <= q →
  (round q = Finite (Qred (nearest q)) ∧ nearest q < 2 ^ 1024) ∨
  (round q = Infinity false ∧ 2 ^ 1024 <= nearest q).
Proof.
  intros Hq. unfold round.
  pose proof (nearest_nonneg q Hq) as Hn.
  pose proof (Qred_correct (nearest q)) as Er.
  assert (Ea : Qabs (Qred (nearest q)) == nearest q).
  { rewrite Qabs_pos; [exact Er | rewrite Er; exact Hn]. }
  destruct (Qle_bool (2 ^ 1024) (Qabs (Qred (nearest q)))) eqn:E.
  - right. apply Qle_bool_iff in E. split; [|lra].
    f_equal. apply Qltb_ge. lra.
  - left. split; [reflexivity|].
    apply Qnot_le_lt. intros H. rewrite <- Ea in H.
    apply Qle_bool_iff in H. congruence.
Qed.

Lemma round_bounded (q B : Q) :
  0 <= q → q <= B → representable B → B < 2 ^ 1024 →
  round q = Finite (Qred (nearest q)) ∧ 0 <= nearest q ∧ nearest q <= B.
Proof.
  intros H0 HB Hrep Hfin.
  assert (Hle : nearest q <= B).
  { rewrite <- (nearest_representable_fix B Hrep). apply nearest_mono; assumption. }
  destruct (round_nonneg_cases q H0) as [[E _]|[_ Hov]]; [|lra].
  split; [exact E|]. split; [apply nearest_nonneg, H0 | exact Hle].
Qed.

Lemma round_unit (q : Q) :
  0 <= q → q <= 1 →
  round q = Finite (Qred (nearest q)) ∧ 0 <= nearest q ∧ nearest q <= 1.
Proof.
  intros H0 H1. apply round_bounded; [exact H0 | exact H1 | apply representable_1 |].
  apply (two_power_lt 0 1024). lia.
Qed.

(** What [round] gives for a value that is not positive. *)
Lemma round_nonpos_cases (q : Q) :
  q <= 0 →
  (∃ v, round q = Finite v ∧ v <= 0) ∨ round q = Infinity true.
Proof.
  intros Hq. unfold round.
  pose proof (nearest_nonpos q Hq) as Hn.
  pose proof (Qred_correct (nearest q)) as Er.
  destruct (Qle_bool (2 ^ 1024) (Qabs (Qred (nearest q)))) eqn:E.
  - right. f_equal. apply Qltb_lt.
    apply Qle_bool_iff in E.
    assert (Ea : Qabs (Qred (nearest q)) == - Qred (nearest q))
      by (apply Qabs_neg; lra).
    pose proof (two_power_pos 1024). lra.
  - left. eexists. split; [reflexivity | lra].
Qed.

(** The Number for a whole number is whole. *)
Lemma nearest_integer (z : Z) :
  (0 <= z)%Z → ∃ w : Z, nearest (inject_Z z) == inject_Z w.
Proof.
  intros Hz. set (e := exponent (inject_Z z)).
  pose proof (two_power_pos e) as H2.
  destruct (Z_le_gt_dec e 0) as [Hneg|Hpos].
  - exists z. unfold nearest. fold e.
    assert (Es : inject_Z z / 2 ^ e == inject_Z (z * 2 ^ (- e))).
    { rewrite inject_Z_mult, two_power_Z, Qpower_opp by lia. reflexivity. }
    rewrite (round_half_even_integer _ _ Es).
    rewrite inject_Z_mult, two_power_Z, Qpower_opp by lia. field. lra.
  - exists (round_half_even (inject_Z z / 2 ^ e) * 2 ^ e)%Z.
    unfold nearest. fold e.
    rewrite inject_Z_mult, two_power_Z by lia. reflexivity.
Qed.

(** The largest binary64 value below 1000 is [1000 - 2^-43]. *)
Lemma below_1000 (e : Q) : representable e → e < 1000 → e <= 1000 - 2 ^ (-43).
Proof.
  intros (M & k & HM & Hk & E) Hlt.
  assert (HMq : 0 <= inject_Z M ∧ inject_Z M < 2 ^ 53).
  { split; [change 0 with (inject_Z 0); rewrite <- Zle_Qle; lia|].
    rewrite <- two_power_Z by lia. rewrite <- Zlt_Qlt. lia. }
  pose proof (two_power_pos k) as H2.
  destruct (Z_le_gt_dec (-43) k) as [Hbig|Hsmall].
  - assert (EN : e == inject_Z (M * 2 ^ (k + 43)) * 2 ^ (-43)).
    { rewrite inject_Z_mult, two_power_Z by lia.
      rewrite E, <- Qmult_assoc, <- two_power_plus.
      replace (k + 43 + -43)%Z with k by lia. reflexivity. }
    set (N := (M * 2 ^ (k + 43))%Z) in *.
    assert (HN : (N < 1000 * 2 ^ 43)%Z).
    { rewrite Zlt_Qlt, inject_Z_mult, two_power_Z by lia.
      rewrite EN in Hlt.
      assert (E1 : 2 ^ (-43) * 2 ^ 43 == 1) by (rewrite <- two_power_plus; reflexivity).
      pose proof (two_power_pos (-43)). pose proof (two_power_pos 43).
      change (inject_Z 1000) with 1000. nra. }
    assert (HN' : inject_Z N <= 1000 * 2 ^ 43 - 1).
    { assert (N <= 1000 * 2 ^ 43 - 1)%Z by lia.
      rewrite Zle_Qle in H. unfold Zminus in H.
      rewrite inject_Z_plus, inject_Z_mult, two_power_Z in H by lia. exact H. }
    assert (E1 : 2 ^ 43 * 2 ^ (-43) == 1) by (rewrite <- two_power_plus; reflexivity).
    pose proof (two_power_pos (-43)). pose proof (two_power_pos 43).
    rewrite EN. nra.
  - assert (Hk2 : 2 ^ k <= 2 ^ (-44)) by (apply two_power_le; lia).
    assert (E1 : 2 ^ 53 * 2 ^ (-44) == 512) by (rewrite <- two_power_plus; reflexivity).
    assert (H3 : 2 ^ (-43) <= 1) by (apply (two_power_le (-43) 0); lia).
    rewrite E. destruct HMq as [HM0 HM1].
    assert (inject_Z M * 2 ^ k <= 2 ^ 53 * 2 ^ (-44)) by nra.
    lra.
Qed.

Lemma largest_quotient_below_1 : nearest ((1000 - 2 ^ (-43)) / 1000) < 1.
Proof. vm_compute. reflexivity. Qed.

(** *** Printing *)

Lemma toString_integer (q : Q) (z : Z) :
  q == inject_Z z → (0 <= z <= 2 ^ 53)%Z → toString (Finite q) = pretty z.
Proof.
  intros E Hz. unfold toString.
  assert (Hq : 0 <= q) by (rewrite E; change 0 with (inject_Z 0); rewrite <- Zle_Qle; lia).
  assert (Hneg : Qltb q 0 = false) by (apply Qltb_ge, Hq).
  rewrite Hneg. unfold finite_text.
  destruct (Qeq_bool q 0) eqn:E0.
  - apply Qeq_bool_iff in E0.
    assert (Ez : z = 0%Z).
    { apply (proj1 (inject_Z_injective z 0)). rewrite <- E. exact E0. }
    rewrite Ez. reflexivity.
  - assert (Hint : is_integer q = true).
    { unfold is_integer. apply Qeq_bool_iff.
      rewrite (Qfloor_comp _ _ E), Qfloor_Z. symmetry. exact E. }
    assert (Hle : Qle_bool q (2 ^ 53) = true).
    { apply Qle_bool_iff. rewrite E, <- two_power_Z by lia.
      rewrite <- Zle_Qle. lia. }
    rewrite Hint, Hle. cbn [andb].
    rewrite (Qfloor_comp _ _ E), Qfloor_Z. reflexivity.
Qed.

Lemma toString_of_Z (z : Z) :
  (0 <= z <= 2 ^ 53)%Z → toString (of_Z z) = pretty z.
Proof. apply toString_integer. reflexivity. Qed.

End NumberOperations.

Section RoundedPow.

Import Number.
Local Open Scope Q_scope.

Lemma rounded_pow_3 (x : Q) : Math.rounded_pow (Finite x) 3 = round (x ^ 3).
Proof.
  unfold Math.rounded_pow. change (3 =? 0)%Z with false. change (3 <? 0)%Z with false.
  rewrite andb_false_r. reflexivity.
Qed.

Lemma cube_le (x y : Q) : 0 <= x → x <= y → x ^ 3 <= y ^ 3.
Proof.
  intros H0 H1.
  assert (Ex : x ^ 3 == x * x * x) by (simpl; ring).
  assert (Ey : y ^ 3 == y * y * y) by (simpl; ring).
  rewrite Ex, Ey. assert (x * x <= y * y) by nra. nra.
Qed.

(** The correctly rounded power is one the counter can rely on. *)
Lemma rounded_pow_cubes : Math.cubes_unit_interval (H := Math.rounded_pow).
Proof.
  split.
  - intros x Hrep H1. pose proof (representable_nonneg x Hrep) as H0.
    assert (Hc : x ^ 3 <= 1 ^ 3) by (apply cube_le; assumption).
    assert (Hc0 : 0 ^ 3 <= x ^ 3) by (apply cube_le; lra).
    destruct (round_unit (x ^ 3)) as (E & Hn0 & Hn1); [change (0 ^ 3) with 0 in *; change (1 ^ 3) with 1 in *; lra | change (0 ^ 3) with 0 in *; change (1 ^ 3) with 1 in *; lra |].
    exists (Qred (nearest (x ^ 3))).
    pose proof (Qred_correct (nearest (x ^ 3))) as Er.
    unfold Math.pow. rewrite rounded_pow_3, E. repeat split; lra.
  - intros x y u v Hx Hy Hxy Hy1.
    pose proof (representable_nonneg x Hx) as H0.
    assert (Hc : x ^ 3 <= y ^ 3) by (apply cube_le; assumption).
    assert (Hc1 : y ^ 3 <= 1 ^ 3) by (apply cube_le; lra).
    assert (Hc0 : 0 ^ 3 <= x ^ 3) by (apply cube_le; lra).
    unfold Math.pow. rewrite !rounded_pow_3.
    destruct (round_unit (x ^ 3)) as (Ex & _); [change (0 ^ 3) with 0 in *; change (1 ^ 3) with 1 in *; lra | change (0 ^ 3) with 0 in *; change (1 ^ 3) with 1 in *; lra |].
    destruct (round_unit (y ^ 3)) as (Ey & _); [change (0 ^ 3) with 0 in *; change (1 ^ 3) with 1 in *; lra | change (0 ^ 3) with 0 in *; change (1 ^ 3) with 1 in *; lra |].
    rewrite Ex, Ey. intros Hu Hv.
    assert (Eu : u = Qred (nearest (x ^ 3))) by congruence.
    assert (Ev : v = Qred (nearest (y ^ 3))) by congruence.
    rewrite Eu, Ev.
    pose proof (Qred_correct (nearest (x ^ 3))).
    pose proof (Qred_correct (nearest (y ^ 3))).
    assert (nearest (x ^ 3) <= nearest (y ^ 3))
      by (apply nearest_mono; change (0 ^ 3) with 0 in *; lra).
    lra.
  - intros x u Ex. unfold Math.pow. rewrite rounded_pow_3.
    assert (E0 : x ^ 3 == 0) by (rewrite Ex; reflexivity).
    destruct (round_unit (x ^ 3)) as (E & _); [change (0 ^ 3) with 0 in *; change (1 ^ 3) with 1 in *; lra | change (0 ^ 3) with 0 in *; change (1 ^ 3) with 1 in *; lra |].
    rewrite E. intros Hu.
    assert (Eu : u = Qred (nearest (x ^ 3))) by congruence.
    rewrite Eu.
    pose proof (Qred_correct (nearest (x ^ 3))).
    pose proof (nearest_0 _ E0). lra.
Qed.

(** On the sample operands the four operators give what the binary64
    operations of the Standard Library give. *)
Lemma operators_agree_with_SpecFloat :
  forallb Examples.operators_agree Examples.operand_samples = true.
Proof. vm_compute. reflexivity. Qed.

End RoundedPow.

Section CounterProperties.

Import Number ScrollAnimations.
Local Open Scope Q_scope.

Lemma lt_Finite (p q : Q) : lt (Finite p) (Finite q) = Qltb p q.
Proof. reflexivity. Qed.

Lemma min_Finite_1 (r : Q) :
  ∃ p, Math.min (Finite r) (of_Z 1) = Finite p ∧ p == Qmin r 1.
Proof.
  unfold Math.min, of_Z. rewrite lt_Finite.
  destruct (Qltb (inject_Z 1) r) eqn:E.
  - apply Qltb_lt in E. exists (inject_Z 1). split; [reflexivity|].
    rewrite Q.min_r; [reflexivity|]. change (inject_Z 1) with 1 in E. lra.
  - apply Qltb_ge in E. exists r. split; [reflexivity|].
    rewrite Q.min_l; [reflexivity|]. exact E.
Qed.

(** The progress of a frame that is not before the start: a number of
    the unit interval, given by two roundings and the cut at 1. *)
Lemma progress_spec (a : Animation) (s c : Q) :
  startTime a = Finite s → s <= c →
  ∃ p, progress_at a (Finite c) = Finite p ∧
       p == Qmin (nearest (nearest (c - s) / 1000)) 1.
Proof.
  intros Hs Hle. unfold progress_at, duration. rewrite Hs.
  change (sub (Finite c) (Finite s)) with (round (c - s)).
  assert (H0 : 0 <= c - s) by lra.
  pose proof (nearest_nonneg _ H0) as Hn.
  destruct (round_nonneg_cases (c - s) H0) as [[E Hfin]|[E Hov]]; rewrite E.
  - pose proof (Qred_correct (nearest (c - s))) as Er.
    set (e := Qred (nearest (c - s))) in *.
    change (div (Finite e) (of_Z 1000)) with (round (e / 1000)).
    destruct (round_bounded (e / 1000) (nearest (c - s))) as (Er2 & _ & _).
    + apply Qle_shift_div_l; lra.
    + apply Qle_shift_div_r; lra.
    + apply nearest_representable, H0.
    + exact Hfin.
    + rewrite Er2.
      destruct (min_Finite_1 (Qred (nearest (e / 1000)))) as (p & Hp & Ep).
      exists p. split; [exact Hp|]. rewrite Ep, Qred_correct.
      rewrite (nearest_comp (e / 1000) (nearest (c - s) / 1000)); [reflexivity|].
      now rewrite Er.
  - exists (inject_Z 1). split; [reflexivity|].
    rewrite Q.min_r; [reflexivity|].
    rewrite <- nearest_1. apply nearest_mono; [lra|].
    apply Qle_shift_div_l; [reflexivity|].
    assert (2 ^ 10 <= 2 ^ 1024) by (apply two_power_le; lia).
    change (2 ^ 10) with 1024 in *. lra.
Qed.

Lemma progress_value_unit (s c : Q) :
  s <= c →
  0 <= Qmin (nearest (nearest (c - s) / 1000)) 1 ∧
  Qmin (nearest (nearest (c - s) / 1000)) 1 <= 1.
Proof.
  intros Hle. split; [|apply Q.le_min_r].
  apply Q.min_glb; [|lra].
  apply nearest_nonneg. apply Qle_shift_div_l; [reflexivity|].
  assert (0 <= nearest (c - s)) by (apply nearest_nonneg; lra). lra.
Qed.

Lemma progress_value_mono (s c1 c2 : Q) :
  s <= c1 → c1 <= c2 →
  Qmin (nearest (nearest (c1 - s) / 1000)) 1
  <= Qmin (nearest (nearest (c2 - s) / 1000)) 1.
Proof.
  intros H1 H2. apply Q.min_le_compat_r.
  assert (0 <= nearest (c1 - s)) by (apply nearest_nonneg; lra).
  assert (nearest (c1 - s) <= nearest (c2 - s)) by (apply nearest_mono; lra).
  apply nearest_mono.
  - apply Qle_shift_div_l; [reflexivity | lra].
  - unfold Qdiv. apply Qmult_le_compat_r; [assumption | discriminate].
Qed.

Lemma progress_value_complete (s c : Q) :
  s + 1000 <= c → Qmin (nearest (nearest (c - s) / 1000)) 1 == 1.
Proof.
  intros H. apply Q.min_r.
  assert (H1 : 1000 <= nearest (c - s)).
  { rewrite <- (nearest_representable_fix 1000 representable_1000).
    apply nearest_mono; lra. }
  rewrite <- nearest_1. apply nearest_mono; [lra|].
  apply Qle_shift_div_l; [reflexivity | lra].
Qed.

(** A frame a full second in finds the progress at 1. *)
Lemma progress_complete (a : Animation) (c : t) :
  full_duration a c → lt (progress_at a c) (of_Z 1) = false.
Proof.
  unfold full_duration. destruct (startTime a) as [| |s] eqn:Hs; try contradiction.
  destruct c as [| |c]; try contradiction. intros H.
  destruct (progress_spec a s c Hs) as (p & Hp & Ep); [lra|].
  rewrite Hp. unfold of_Z. rewrite lt_Finite. apply Qltb_ge.
  rewrite Ep, (progress_value_complete s c H). apply Qle_refl.
Qed.

Section WithPow.

Context {P : Math.Pow}.

Lemma runFrames_idle a frames el :
  frameRequested el = false → runFrames a frames el = el.
Proof. intros H. destruct frames; simpl; [|rewrite H]; reflexivity. Qed.

Lemma runFrames_trace a frames : ∀ el,
  frameRequested el = true →
  written (runFrames a frames el)
    = written el ++ map (shown a) (live_frames a frames)
        ++ (if reaches_end a frames then [finalNumber a] else [])
  ∧ frameRequested (runFrames a frames el) = negb (reaches_end a frames)
  ∧ (reaches_end a frames = true → textContent (runFrames a frames el) = finalNumber a).
Proof.
  induction frames as [|t rest IH]; intros el Hreq.
  - simpl. rewrite app_nil_r. repeat split; [exact Hreq | discriminate].
  - simpl. rewrite Hreq. unfold updateNumber.
    destruct (lt (progress_at a t) (of_Z 1)) eqn:Hlt.
    + destruct (IH (requestAnimationFrame
                      (set_textContent (toString (current_at a t) +:+ suffix a)
                         (mkNumberElement (textContent el) false (written el)))))
        as (Hw & Hf & Ht); [reflexivity|].
      rewrite Hw, Hf. simpl. rewrite <- app_assoc. repeat split; try reflexivity; exact Ht.
    + rewrite runFrames_idle by reflexivity. simpl.
      rewrite <- app_assoc. repeat split; reflexivity.
Qed.

Lemma completes_reaches_end a frames :
  completes a frames → reaches_end a frames = true.
Proof.
  unfold reaches_end, completes. rewrite existsb_exists, Exists_exists.
  setoid_rewrite list_elem_of_In.
  intros (t & Hin & Ht). exists t. split; [exact Hin|].
  rewrite (progress_complete a t Ht). reflexivity.
Qed.

End WithPow.

End CounterProperties.

Section CounterValues.

Import Number ScrollAnimations.
Local Open Scope Q_scope.

Context {P : Math.Pow}.
Hypothesis cubes : Math.cubes_unit_interval.

Lemma base_spec (p : Q) :
  0 <= p → p <= 1 →
  sub (of_Z 1) (Finite p) = Finite (Qred (nearest (1 - p))) ∧
  representable (Qred (nearest (1 - p))) ∧
  0 <= nearest (1 - p) ∧ nearest (1 - p) <= 1.
Proof.
  intros H0 H1.
  change (sub (of_Z 1) (Finite p)) with (round (1 - p)).
  destruct (round_unit (1 - p)) as (E & Hn0 & Hn1); [lra | lra |].
  split; [exact E|]. split; [|split; assumption].
  apply (representable_comp (nearest (1 - p))); [symmetry; apply Qred_correct|].
  apply nearest_representable. lra.
Qed.

(** One frame of the counter, operation by operation. *)
Lemma current_at_spec (a : Animation) (mq : Q) (c : t) (p : Q) :
  numericValue a = Finite mq → representable mq → mq < 2 ^ 1024 →
  progress_at a c = Finite p → 0 <= p → p <= 1 →
  ∃ u, Math.pow (Finite (Qred (nearest (1 - p)))) 3 = Finite u ∧
       0 <= u ∧ u <= 1 ∧
       current_at a c = of_Z (Qfloor (nearest (mq * nearest (1 - u)))).
Proof.
  intros Hm Hrep Hfin Hp H0 H1.
  destruct (base_spec p H0 H1) as (Eb & Hbrep & Hb0 & Hb1).
  pose proof (Qred_correct (nearest (1 - p))) as Erb.
  destruct (Math.cube_unit cubes _ Hbrep) as (u & Eu & Hu0 & Hu1); [lra|].
  exists u. split; [exact Eu|]. split; [exact Hu0|]. split; [exact Hu1|].
  destruct (base_spec u Hu0 Hu1) as (Ec & _ & Hc0 & Hc1).
  pose proof (Qred_correct (nearest (1 - u))) as Erc.
  pose proof (representable_nonneg mq Hrep) as Hm0.
  unfold current_at, easeOut. rewrite Hm, Hp, Eb, Eu, Ec.
  set (cc := Qred (nearest (1 - u))) in *.
  change (mul (Finite mq) (Finite cc)) with (round (mq * cc)).
  destruct (round_bounded (mq * cc) mq) as (Er & _ & _);
    [nra | nra | exact Hrep | exact Hfin |].
  rewrite Er. unfold Math.floor, of_Z. do 2 f_equal.
  apply Qfloor_comp. rewrite Qred_correct. apply nearest_comp.
  now rewrite Erc.
Qed.

Lemma current_value_range (mq u : Q) :
  representable mq → 0 <= u → u <= 1 →
  (0 <= Qfloor (nearest (mq * nearest (1 - u))) <= Qfloor mq)%Z.
Proof.
  intros Hrep Hu0 Hu1.
  pose proof (representable_nonneg mq Hrep) as Hm0.
  destruct (nearest_unit (1 - u)) as [Hc0 Hc1]; [lra | lra |].
  split.
  - rewrite <- (Qfloor_Z 0). apply Qfloor_resp_le.
    apply nearest_nonneg. change (inject_Z 0) with 0. nra.
  - apply Qfloor_resp_le.
    rewrite <- (nearest_representable_fix mq Hrep) at 2.
    apply nearest_mono; nra.
Qed.

Lemma current_value_mono (mq p1 p2 u1 u2 : Q) :
  representable mq →
  0 <= p1 → p1 <= p2 → p2 <= 1 →
  Math.pow (Finite (Qred (nearest (1 - p1)))) 3 = Finite u1 →
  Math.pow (Finite (Qred (nearest (1 - p2)))) 3 = Finite u2 →
  0 <= u1 → u1 <= 1 →
  (Qfloor (nearest (mq * nearest (1 - u1))) <= Qfloor (nearest (mq * nearest (1 - u2))))%Z.
Proof.
  intros Hrep H0 H12 H1 E1 E2 Hu0 Hu1.
  pose proof (representable_nonneg mq Hrep) as Hm0.
  destruct (base_spec p1) as (_ & Hr1 & Hb1 & Hb1'); [lra | lra |].
  destruct (base_spec p2) as (_ & Hr2 & Hb2 & Hb2'); [lra | lra |].
  assert (Hu : u2 <= u1).
  { apply (Math.cube_mono cubes _ _ _ _ Hr2 Hr1); [| |exact E2|exact E1].
    - rewrite !Qred_correct. apply nearest_mono; lra.
    - rewrite Qred_correct. exact Hb1'. }
  assert (Hc : nearest (1 - u1) <= nearest (1 - u2)) by (apply nearest_mono; lra).
  assert (0 <= nearest (1 - u1)) by (apply nearest_nonneg; lra).
  apply Qfloor_resp_le, nearest_mono; nra.
Qed.

Lemma current_value_end (mq p u : Q) :
  representable mq → p == 1 →
  Math.pow (Finite (Qred (nearest (1 - p)))) 3 = Finite u →
  Qfloor (nearest (mq * nearest (1 - u))) = Qfloor mq.
Proof.
  intros Hrep Ep Eu.
  assert (Eb : Qred (nearest (1 - p)) == 0).
  { rewrite Qred_correct. apply nearest_0. lra. }
  pose proof (Math.cube_zero cubes _ _ Eb Eu) as Hu.
  apply Qfloor_comp.
  rewrite <- (nearest_representable_fix mq Hrep) at 2.
  apply nearest_comp.
  assert (E1 : nearest (1 - u) == 1).
  { rewrite <- nearest_1 at 2. apply nearest_comp. lra. }
  rewrite E1. ring.
Qed.

End CounterValues.

Section CounterTheorems.

Import Number ScrollAnimations.
Local Open Scope Q_scope.

Context {P : Math.Pow}.

(** C6, as the code computes it.  For a statistic whose text holds a
    digit, [m] the Number its digits parse to: every frame that runs
    writes [Math.floor(m * (1 - Math.pow(1 - t, 3)))] followed by the
    suffix, where [t = Math.min((currentTime - startTime) / 1000, 1)] and
    every operation is the one of binary64 arithmetic; the frame that
    finds [t] not below 1 then writes the original string, and once a
    frame a full second in has come the element shows the original string
    and no frame is requested. *)
Theorem counter_frames_follow_ease_out
    (el : NumberElement) (now : t) (frames : list t) :
  let text := textContent el in
  let m := parseInt_digits (keep_digits text) in
  isNaN m = false →
  let a := mkAnimation text m (drop_digits text) now in
  animateNumber now (mkStatElement (Some el)) = Some (a, requestAnimationFrame el) ∧
  let final := runFrames a frames (requestAnimationFrame el) in
  written final
    = written el
      ++ map (λ currentTime,
                let t := Math.min (div (sub currentTime now) (of_Z 1000)) (of_Z 1) in
                toString (Math.floor
                            (mul m (sub (of_Z 1) (Math.pow (sub (of_Z 1) t) 3))))
                  +:+ drop_digits text)
           (live_frames a frames)
      ++ (if reaches_end a frames then [text] else []) ∧
  (completes a frames →
     textContent final = text ∧ frameRequested final = false).
Proof.
  intros text m Hm a. split.
  - unfold animateNumber. cbn [stat__number]. fold text. fold m. rewrite Hm. reflexivity.
  - destruct (runFrames_trace a frames (requestAnimationFrame el)) as (Hw & Hf & Ht);
      [reflexivity|].
    split.
    + rewrite Hw. unfold shown, current_at, easeOut, progress_at, duration.
      subst a. cbn [numericValue suffix startTime finalNumber]. reflexivity.
    + intros Hc. apply completes_reaches_end in Hc. rewrite Hf, Hc. auto.
Qed.

Hypothesis cubes : Math.cubes_unit_interval.

(** A frame that is not before the start shows a whole number between 0
    and the magnitude, and the magnitude once the progress is 1. *)
Lemma frame_value (a : Animation) (s mq c : Q) :
  startTime a = Finite s → numericValue a = Finite mq →
  representable mq → mq < 2 ^ 1024 → s <= c →
  ∃ z, current_at a (Finite c) = of_Z z ∧
       (0 <= z <= Qfloor mq)%Z ∧
       (lt (progress_at a (Finite c)) (of_Z 1) = false → z = Qfloor mq).
Proof.
  intros Hs Hm Hrep Hfin Hle.
  destruct (progress_spec a s c Hs Hle) as (p & Hp & Ep).
  destruct (progress_value_unit s c Hle) as [H0 H1]. rewrite <- Ep in H0, H1.
  destruct (current_at_spec cubes a mq (Finite c) p Hm Hrep Hfin Hp H0 H1)
    as (u & Eu & Hu0 & Hu1 & Ec).
  eexists. split; [exact Ec|]. split; [apply current_value_range; assumption|].
  rewrite Hp. unfold of_Z. rewrite lt_Finite. intros Hge. apply Qltb_ge in Hge.
  apply (current_value_end cubes mq p u Hrep); [|exact Eu].
  change (inject_Z 1) with 1 in Hge. lra.
Qed.

Lemma of_Z_inj (z1 z2 : Z) : of_Z z1 = of_Z z2 → z1 = z2.
Proof. unfold of_Z, inject_Z. intros [= H]. exact H. Qed.

Lemma frame_value_mono (a : Animation) (s mq c1 c2 : Q) (z1 z2 : Z) :
  startTime a = Finite s → numericValue a = Finite mq →
  representable mq → mq < 2 ^ 1024 → s <= c1 → c1 <= c2 →
  current_at a (Finite c1) = of_Z z1 → current_at a (Finite c2) = of_Z z2 →
  (z1 <= z2)%Z.
Proof.
  intros Hs Hm Hrep Hfin H1 H12 E1 E2.
  destruct (progress_spec a s c1 Hs H1) as (p1 & Hp1 & Ep1).
  destruct (progress_spec a s c2 Hs) as (p2 & Hp2 & Ep2); [lra|].
  destruct (progress_value_unit s c1 H1) as [H10 H11]. rewrite <- Ep1 in H10, H11.
  destruct (progress_value_unit s c2) as [H20 H21]; [lra|]. rewrite <- Ep2 in H20, H21.
  pose proof (progress_value_mono s c1 c2 H1 H12) as Hmono.
  rewrite <- Ep1, <- Ep2 in Hmono.
  destruct (current_at_spec cubes a mq (Finite c1) p1 Hm Hrep Hfin Hp1 H10 H11)
    as (u1 & Eu1 & Hu10 & Hu11 & Ec1).
  destruct (current_at_spec cubes a mq (Finite c2) p2 Hm Hrep Hfin Hp2 H20 H21)
    as (u2 & Eu2 & Hu20 & Hu21 & Ec2).
  rewrite Ec1 in E1. rewrite Ec2 in E2.
  apply of_Z_inj in E1, E2. subst z1 z2.
  apply (current_value_mono cubes mq p1 p2 u1 u2); assumption.
Qed.

(** The frames that run are the first ones of the list. *)
Lemma live_frames_map (a : Animation) (qs : list Q) :
  ∃ l rest, live_frames a (map Finite qs) = map Finite l ∧ qs = l ++ rest.
Proof.
  induction qs as [|c qs (l & rest & El & Eq)].
  - exists [], []. split; reflexivity.
  - cbn [map live_frames].
    destruct (lt (progress_at a (Finite c)) (of_Z 1)).
    + exists (c :: l), rest. rewrite El, Eq at 1. split; reflexivity.
    + exists [c], qs. split; reflexivity.
Qed.

Lemma live_frames_last (a : Animation) (frames : list t) :
  reaches_end a frames = true →
  ∃ c, last (live_frames a frames) = Some c ∧ lt (progress_at a c) (of_Z 1) = false.
Proof.
  induction frames as [|c rest IH]; cbn [reaches_end existsb live_frames];
    [discriminate|].
  destruct (lt (progress_at a c) (of_Z 1)) eqn:E; cbn [negb orb].
  - intros H. destruct (IH H) as (c' & Hl & Hp). exists c'. split; [|exact Hp].
    destruct (live_frames a rest); [discriminate | exact Hl].
  - intros _. exists c. split; [reflexivity | exact E].
Qed.

(** The values over frames whose clock never runs back. *)
Lemma values_of_frames (a : Animation) (s mq : Q) (l : list Q) :
  startTime a = Finite s → numericValue a = Finite mq →
  representable mq → mq < 2 ^ 1024 →
  Forall (Qle s) l → StronglySorted Qle l →
  ∃ zs : list Z,
    map (current_at a) (map Finite l) = map of_Z zs ∧
    StronglySorted Z.le zs ∧
    Forall (λ z, 0 <= z <= Qfloor mq)%Z zs ∧
    (∀ c, last l = Some c → lt (progress_at a (Finite c)) (of_Z 1) = false →
          last zs = Some (Qfloor mq)).
Proof.
  intros Hs Hm Hrep Hfin Hafter Hsorted.
  induction Hsorted as [|c l Hsl IH Hall].
  - exists []. repeat split; try constructor. intros c [=].
  - apply Forall_cons in Hafter as [Hc Hafter].
    destruct (IH Hafter) as (zs & Ezs & Hzs & Hrange & Hlast).
    destruct (frame_value a s mq c Hs Hm Hrep Hfin Hc) as (z & Ez & Hz & Hend).
    exists (z :: zs). cbn [map]. rewrite Ez, Ezs. split; [reflexivity|].
    split; [|split].
    + constructor; [exact Hzs|].
      clear - cubes Hs Hm Hrep Hfin Hc Hafter Hall Ez Ezs.
      revert zs Ezs. induction l as [|c' l IHl]; intros zs Ezs.
      * destruct zs; [constructor | discriminate].
      * destruct zs as [|z' zs]; [discriminate|].
        cbn [map] in Ezs. injection Ezs as Ez' Ezs.
        apply Forall_cons in Hafter as [Hc' Hafter].
        apply Forall_cons in Hall as [Hcc' Hall].
        constructor.
        -- apply (frame_value_mono a s mq c c' z z'); assumption.
        -- apply IHl; assumption.
    + constructor; assumption.
    + intros c0 Hl Hp. destruct l as [|c' l].
      * injection Hl as <-. destruct zs; [|discriminate].
        cbn. f_equal. apply Hend, Hp.
      * destruct zs as [|z' zs]; [discriminate|].
        change (last (z :: z' :: zs)) with (last (z' :: zs)).
        apply (Hlast c0); [exact Hl | exact Hp].
Qed.

End CounterTheorems.

Section CounterClaims.

Import Number ScrollAnimations.
Local Open Scope Q_scope.

(** The clock of the frames never runs back, so what lies after the
    start in a sorted list lies after it pairwise. *)
Lemma frames_strongly_sorted (now : Q) (frames : list Q) :
  Sorted Qle (now :: frames) →
  Forall (Qle now) frames ∧ StronglySorted Qle frames.
Proof.
  intros H. apply Sorted_StronglySorted in H.
  - inversion H; subst. split; assumption.
  - intros x y z. apply Qle_trans.
Qed.

Lemma prefix_sorted (l rest : list Q) :
  StronglySorted Qle (l ++ rest) → StronglySorted Qle l.
Proof.
  induction l as [|c l IH]; cbn; [constructor|].
  intros H. inversion H as [|? ? Hs Hall]; subst.
  constructor; [apply IH, Hs|].
  apply Forall_app in Hall. apply Hall.
Qed.

Lemma last_map_Finite (l : list Q) (c : t) :
  last (map Finite l) = Some c → ∃ q, c = Finite q ∧ last l = Some q.
Proof.
  induction l as [|x [|y l] IH]; cbn; [discriminate| |].
  - intros [= <-]. exists x. split; reflexivity.
  - intros H. apply IH, H.
Qed.

(** With a correctly rounded cube, the frame 200 ms after the start of
    the statistic 250+ writes 121+, one below the value of the exact
    curve: the quotient 200 / 1000 is not the real number 0.2. *)
Lemma frame_at_200ms_shows_121 :
  shown (P := Math.rounded_pow) (Examples.anim250 (of_Z 0)) (of_Z 200) = "121+" ∧
  Examples.exact_curve 250 200 = 122%Z ∧
  ¬ Examples.shows_exact_curve 200.
Proof.
  split; [vm_compute; reflexivity|]. split; [vm_compute; reflexivity|].
  unfold Examples.shows_exact_curve. vm_compute. discriminate.
Qed.

(** The statistic 250+ with the first frame 16ms after the start shows
    11 first, not 0. *)
Lemma first_frame_shows_11 :
  completes (Examples.anim250 (of_Z 0)) Examples.three_frames ∧
  displayed_values (P := Math.rounded_pow) (Examples.anim250 (of_Z 0))
    Examples.three_frames = [of_Z 11; of_Z 218; of_Z 250] ∧
  ¬ Examples.animates_from_zero (of_Z 0) Examples.three_frames.
Proof.
  assert (Hv : displayed_values (P := Math.rounded_pow) (Examples.anim250 (of_Z 0))
                 Examples.three_frames = [of_Z 11; of_Z 218; of_Z 250])
    by (vm_compute; reflexivity).
  split; [|split; [exact Hv|]].
  - right. right. left. vm_compute. discriminate.
  - intros (zs & Hzs & _ & Hhead & _). rewrite Hv in Hzs.
    destruct zs as [|z zs]; [discriminate|].
    cbn [map] in Hzs. injection Hzs as Hz _.
    cbn in Hhead. injection Hhead as ->. discriminate Hz.
Qed.

(** A numeral too large for binary64 parses to the infinity, and the
    frame at the very start multiplies it by 0: the text shown is NaN
    with the suffix. *)
Lemma huge_numeral_shows_NaN :
  let text := ("1" +:+ zeros 309 +:+ "+")%string in
  ∃ a el', animateNumber (of_Z 0) (mkStatElement (Some (mkNumberElement text false [])))
           = Some (a, el') ∧
           numericValue a = Infinity false ∧
           shown (P := Math.rounded_pow) a (of_Z 0) = "NaN+"%string.
Proof.
  eexists _, _. split; [vm_compute; reflexivity|].
  split; vm_compute; reflexivity.
Qed.

(** A numeral beyond [2^53] that binary64 does not hold: the frame that
    completes the animation shows the neighbour it parses to, and only
    the forced write brings the text back. *)
Lemma numeral_beyond_2_53_shows_neighbour :
  let el := mkNumberElement "9007199254740993" false [] in
  written (runFrames (P := Math.rounded_pow)
             (mkAnimation "9007199254740993" (parseInt_digits "9007199254740993")
                "" (of_Z 0))
             [of_Z 1000] (requestAnimationFrame el))
  = ["9007199254740992"; "9007199254740993"]%string.
Proof. vm_compute. reflexivity. Qed.

Context {P : Math.Pow}.
Hypothesis cubes : Math.cubes_unit_interval.

(** C7, as the code has it.  For the statistic 250+, frames whose time
    stamps start at or after the start of the animation and never run
    back, one of them a full second in, and a [Math.pow] that keeps the
    unit interval and its order: the values shown are whole numbers that
    never fall, none is below 0, the initial value of the counter, or
    above 250; the last one is 250; each is written with the suffix +
    and the text ends as exactly 250+. *)
Theorem stat_250_counts_up (now : Q) (frames : list Q) :
  Sorted Qle (now :: frames) →
  completes (Examples.anim250 (Finite now)) (map Finite frames) →
  animateNumber (Finite now) Examples.stat250_item
    = Some (Examples.anim250 (Finite now), requestAnimationFrame Examples.stat250) ∧
  let final := runFrames (Examples.anim250 (Finite now)) (map Finite frames)
                 (requestAnimationFrame Examples.stat250) in
  ∃ values : list Z,
    displayed_values (Examples.anim250 (Finite now)) (map Finite frames)
      = map of_Z values ∧
    StronglySorted Z.le (0%Z :: values) ∧
    Forall (λ v, (0 <= v <= 250)%Z) values ∧
    last values = Some 250%Z ∧
    written final = map (λ v, pretty v +:+ "+") values ++ ["250+"%string] ∧
    textContent final = "250+"%string.
Proof.
  intros Hs Hc. split; [vm_compute; reflexivity|].
  set (a := Examples.anim250 (Finite now)).
  destruct (frames_strongly_sorted now frames Hs) as [Hafter Hss].
  destruct (live_frames_map a frames) as (l & rest & El & Eq).
  assert (Hafter' : Forall (Qle now) l).
  { rewrite Eq in Hafter. apply Forall_app in Hafter. apply Hafter. }
  assert (Hss' : StronglySorted Qle l).
  { rewrite Eq in Hss. apply (prefix_sorted l rest Hss). }
  destruct (values_of_frames cubes a now 250 l) as (zs & Ezs & Hzs & Hrange & Hlast);
    [reflexivity | reflexivity | apply (representable_Z 250); lia
    | apply (two_power_lt 8 1024); lia | exact Hafter' | exact Hss' |].
  change (Qfloor 250) with 250%Z in *.
  pose proof (completes_reaches_end a (map Finite frames) Hc) as Hend.
  destruct (runFrames_trace a (map Finite frames)
              (requestAnimationFrame Examples.stat250)) as (Hw & _ & Ht);
    [reflexivity|].
  cbv zeta. exists zs. split; [|split; [|split; [|split; [|split]]]].
  - unfold displayed_values. rewrite El. exact Ezs.
  - constructor; [exact Hzs|].
    eapply Forall_impl; [exact Hrange|]. cbn. intros v Hv. lia.
  - exact Hrange.
  - destruct (live_frames_last a (map Finite frames) Hend) as (c & Hl & Hp).
    rewrite El in Hl. destruct (last_map_Finite l c Hl) as (q & -> & Hlq).
    apply (Hlast q Hlq Hp).
  - rewrite Hw, Hend. cbn [written requestAnimationFrame Examples.stat250 app].
    f_equal. rewrite El.
    transitivity (map (λ x, toString x +:+ "+") (map (current_at a) (map Finite l)));
      [rewrite (map_map (current_at a)); reflexivity|].
    rewrite Ezs, map_map.
    clear - Hrange. induction Hrange as [|z zs Hz _ IH]; [reflexivity|].
    cbn [map]. rewrite IH, toString_of_Z by lia. reflexivity.
  - apply Ht, Hend.
Qed.

End CounterClaims.

(** ** Viewport watchers *)

Section ObserverProperties.

Import Observers.

Lemma foldl_invariant {S E : Type} (P : S → Prop) (f : S → E → S) :
  (∀ s e, P s → P (f s e)) → ∀ l s, P s → P (foldl f s l).
Proof.
  intros Hstep l. induction l as [|e l IH]; intros s Hs; simpl; [exact Hs|].
  apply IH, Hstep, Hs.
Qed.

Lemma statEntry_inv (s : StatState) (e : Entry) :
  stat_inv s → stat_inv (statEntry s e).
Proof.
  intros [Hnd Hcls]. unfold statEntry.
  destruct (isIntersecting e && negb (Js.cl_contains "animated" (statClasses s (target e))))
    eqn:Hguard; [|split; assumption].
  apply andb_true_iff in Hguard as [_ Hfresh].
  apply negb_true_iff, cl_contains_false in Hfresh.
  assert (Hkeep : ∀ t, "animated" ∈ statClasses s t ∨ t = target e →
            "animated" ∈ (<[target e := Js.cl_add "animated" (statClasses s (target e))]>
                            (statClasses s)) t).
  { intros t Ht. destruct (decide (t = target e)) as [->|Hne].
    - rewrite fn_lookup_insert. apply cl_add_elem. now left.
    - rewrite fn_lookup_insert_ne by congruence. destruct Ht; [assumption|contradiction]. }
  match goal with |- context [if ?c then _ else _] => destruct c end; split; cbn.
  - apply NoDup_app. repeat split.
    + exact Hnd.
    + intros t Ht Hin. apply list_elem_of_singleton in Hin as ->.
      apply Hfresh, Hcls, Ht.
    + apply NoDup_singleton.
  - intros t Ht. apply Hkeep. apply elem_of_app in Ht as [Ht|Ht].
    + left. apply Hcls, Ht.
    + right. apply list_elem_of_singleton in Ht. exact Ht.
  - exact Hnd.
  - intros t Ht. apply Hkeep. left. apply Hcls, Ht.
Qed.

Lemma dataset_src_Some (i : Img) (d : string) :
  dataset_src i = Some d → dataSrc i ≠ None.
Proof. unfold dataset_src. destruct (dataSrc i) as [[|]|]; congruence. Qed.

Lemma lazyEntry_inv (s : LazyState) (e : Entry) :
  lazy_inv s → lazy_inv (lazyEntry s e).
Proof.
  intros [Hnd Hgone]. unfold lazyEntry.
  destruct (isIntersecting e); [|split; assumption].
  destruct (dataset_src (images s (target e))) as [d|] eqn:Hd; split; cbn.
  - apply NoDup_app. repeat split.
    + exact Hnd.
    + intros t Ht Hin. apply list_elem_of_singleton in Hin as ->.
      apply (dataset_src_Some _ _ Hd), Hgone, Ht.
    + apply NoDup_singleton.
  - intros t Ht. destruct (decide (t = target e)) as [->|Hne].
    + rewrite fn_lookup_insert. reflexivity.
    + rewrite fn_lookup_insert_ne by congruence.
      apply elem_of_app in Ht as [Ht|Ht]; [apply Hgone, Ht|].
      apply list_elem_of_singleton in Ht. contradiction.
  - exact Hnd.
  - intros t Ht. destruct (decide (t = target e)) as [->|Hne].
    + rewrite fn_lookup_insert. cbn. apply Hgone, Ht.
    + rewrite fn_lookup_insert_ne by congruence. apply Hgone, Ht.
Qed.

Lemma footerEntry_inv (letters : nat) (s : FooterState) (e : Entry) :
  footer_inv s → footer_inv (footerEntry letters s e).
Proof.
  intros [Hle H0]. unfold footerEntry.
  destruct (isIntersecting e && negb (isAnimated s)) eqn:Hguard; [|split; assumption].
  apply andb_true_iff in Hguard as [_ Hflag]. apply negb_true_iff in Hflag.
  split; cbn; [rewrite (H0 Hflag); lia | discriminate].
Qed.

Lemma statCallback_inv (s : StatState) (entries : list Entry) :
  stat_inv s → stat_inv (statCallback s entries).
Proof. apply foldl_invariant. intros; now apply statEntry_inv. Qed.

Lemma lazyCallback_inv (s : LazyState) (entries : list Entry) :
  lazy_inv s → lazy_inv (lazyCallback s entries).
Proof. apply foldl_invariant. intros; now apply lazyEntry_inv. Qed.

Lemma footerCallback_inv (letters : nat) (s : FooterState) (entries : list Entry) :
  footer_inv s → footer_inv (footerCallback letters s entries).
Proof. apply foldl_invariant. intros; now apply footerEntry_inv. Qed.

(** C8.  Whatever batches of enter and exit entries the three watchers
    are called with after page load: no statistic is handed to
    [animateNumber] twice (class animated), no image has its source
    swapped twice (its data-src is gone after the swap and the image is
    unobserved; this holds whether or not the browser filters by the
    observed set), and [triggerAnimations] of the footer runs at most
    once (flag [isAnimated]). *)
Theorem one_shot_effects_fire_at_most_once
    (cls : nat → gset string) (imgs : nat → Img) (obs : gset nat) (letters : nat)
    (statBatches lazyBatches footerBatches : list (list Entry)) :
  NoDup (animateNumberCalls (foldl statCallback (mkStatState cls []) statBatches)) ∧
  NoDup (swaps (foldl lazyCallback (mkLazyState imgs obs []) lazyBatches)) ∧
  NoDup (swaps (foldl lazyDeliver (mkLazyState imgs obs []) lazyBatches)) ∧
  (triggerCalls (foldl (footerCallback letters) (mkFooterState false 0 [])
                   footerBatches) ≤ 1)%nat.
Proof.
  repeat split.
  - apply (foldl_invariant stat_inv statCallback).
    + intros s b. apply statCallback_inv.
    + split; [constructor | intros t Ht; inversion Ht].
  - apply (foldl_invariant lazy_inv lazyCallback).
    + intros s b. apply lazyCallback_inv.
    + split; [constructor | intros t Ht; inversion Ht].
  - apply (foldl_invariant lazy_inv lazyDeliver).
    + intros s b. apply lazyCallback_inv.
    + split; [constructor | intros t Ht; inversion Ht].
  - apply (foldl_invariant footer_inv (footerCallback letters)).
    + intros s b. apply footerCallback_inv.
    + split; [cbn; lia | reflexivity].
Qed.

End ObserverProperties.

(** ** Taps on portfolio items *)

Section PortfolioProperties.

Import Portfolio.

Lemma touchstart_lookup (items : list Item) (i j : nat) (now : Z) :
  touchstart i now items !! j
  = (λ it, if decide (i = j) then mkItem (itemClasses it) now else it) <$> items !! j.
Proof.
  unfold touchstart. destruct (decide (i = j)) as [->|Hne].
  - rewrite list_lookup_alter_eq. reflexivity.
  - rewrite list_lookup_alter_ne by exact Hne. destruct (items !! j); reflexivity.
Qed.

Lemma touchstart_touched (items : list Item) (i j : nat) (now : Z) :
  touched <$> touchstart i now items !! j = touched <$> items !! j.
Proof.
  rewrite touchstart_lookup. destruct (items !! j) as [it|]; [|reflexivity].
  cbn. destruct (decide (i = j)); reflexivity.
Qed.

(** A quick release: the item itself is toggled, every other item ends
    untouched. *)
Lemma touchend_fast (items : list Item) (i : nat) (now : Z) (it : Item) :
  items !! i = Some it →
  now - touchStartTime it < 200 →
  (touched <$> touchend i now items !! i = Some (negb (touched it))) ∧
  (∀ j o, j ≠ i → touchend i now items !! j = Some o → touched o = false).
Proof.
  intros Hi Hfast. unfold touchend. rewrite Hi.
  destruct (Z.ltb_spec (now - touchStartTime it) 200) as [_|Hge]; [|lia].
  assert (Hlen : (i < length items)%nat) by (eapply lookup_lt_Some; exact Hi).
  split.
  - rewrite list_lookup_imap, list_lookup_insert_eq by exact Hlen. cbn.
    destruct (decide (i ≠ i)) as [Hne|_]; [contradiction|].
    unfold touched. cbn. rewrite cl_contains_toggle. reflexivity.
  - intros j o Hne Hj. rewrite list_lookup_imap in Hj.
    rewrite list_lookup_insert_ne in Hj by congruence.
    destruct (items !! j) as [oj|]; [|discriminate]. cbn in Hj.
    destruct (decide (j ≠ i)) as [_|Heq]; [|contradiction].
    injection Hj as <-. unfold touched. cbn. apply cl_contains_remove.
Qed.

Lemma touchend_slow (items : list Item) (i : nat) (now : Z) (it : Item) :
  items !! i = Some it →
  200 ≤ now - touchStartTime it →
  touchend i now items = items.
Proof.
  intros Hi Hslow. unfold touchend. rewrite Hi.
  destruct (Z.ltb_spec (now - touchStartTime it) 200); [lia | reflexivity].
Qed.

(** C10.  A press at [t0] and release at [t1] on item [i]: under 200ms
    the touched state of [i] flips and every other item ends untouched,
    so at most one item is touched; from 200ms on no item's touched
    state changes. *)
Theorem tap_toggles_item_and_clears_others
    (items : list Item) (i : nat) (t0 t1 : Z) (it : Item) :
  items !! i = Some it →
  let after := pressRelease i t0 t1 items in
  (t1 - t0 < 200 →
     touched <$> after !! i = Some (negb (touched it)) ∧
     (∀ j o, j ≠ i → after !! j = Some o → touched o = false) ∧
     (∀ j k oj ok, after !! j = Some oj → after !! k = Some ok →
                   touched oj = true → touched ok = true → j = k)) ∧
  (200 ≤ t1 - t0 →
     ∀ j, touched <$> after !! j = touched <$> items !! j).
Proof.
  intros Hi after. subst after. unfold pressRelease.
  assert (Hstart : touchstart i t0 items !! i = Some (mkItem (itemClasses it) t0)).
  { rewrite touchstart_lookup, Hi. cbn.
    destruct (decide (i = i)); [reflexivity | contradiction]. }
  split.
  - intros Hfast.
    destruct (touchend_fast _ i t1 _ Hstart Hfast) as [Hself Hothers].
    split; [exact Hself|]. split; [exact Hothers|].
    intros j k oj ok Hj Hk Htj Htk.
    destruct (decide (j = i)) as [->|Hji]; destruct (decide (k = i)) as [->|Hki].
    + reflexivity.
    + rewrite (Hothers k ok Hki Hk) in Htk. discriminate.
    + rewrite (Hothers j oj Hji Hj) in Htj. discriminate.
    + rewrite (Hothers j oj Hji Hj) in Htj. discriminate.
  - intros Hslow j.
    rewrite (touchend_slow _ i t1 _ Hstart Hslow). apply touchstart_touched.
Qed.

Lemma tap_toggles_item_and_clears_others_witness :
  touched <$> pressRelease 0 1000 1150 Examples.three_items !! 0%nat = Some true ∧
  touched <$> pressRelease 0 1000 1150 Examples.three_items !! 1%nat = Some false.
Proof.
  destruct (tap_toggles_item_and_clears_others Examples.three_items 0 1000 1150
              (Portfolio.mkItem ∅ 0) eq_refl) as [Hfast _].
  destruct (Hfast ltac:(lia)) as (Hself & Hothers & _).
  split; [exact Hself|].
  destruct (pressRelease 0 1000 1150 Examples.three_items !! 1%nat) as [o|] eqn:E.
  - cbn. f_equal. apply (Hothers 1%nat o); [lia | exact E].
  - vm_compute in E. discriminate.
Defined.

End PortfolioProperties.

(** ** The draggable decorations *)

Section DragProperties.

Import MiniPolaroids.

Lemma bind_normal {A B} (m : M A) (f : A → M B) h a h' :
  m h = (Normal a, h') → (m ≫= f) h = f a h'.
Proof. intros E. unfold mbind, M_bind. rewrite E. reflexivity. Qed.

Lemma bind_throw {A B} (m : M A) (f : A → M B) h e h' :
  m h = (Throw e, h') → (m ≫= f) h = (Throw e, h').
Proof. intros E. unfold mbind, M_bind. rewrite E. reflexivity. Qed.

Lemma getVar_bound x v h : globals h !! x = Some v → getVar x h = (Normal v, h).
Proof. intros E. unfold getVar. rewrite E. reflexivity. Qed.

Lemma getVar_unbound x h : globals h !! x = None → getVar x h = (Throw (ReferenceError x), h).
Proof. intros E. unfold getVar. rewrite E. reflexivity. Qed.

Lemma putVar_bound x v h : is_Some (globals h !! x) →
  putVar x v h = (Normal tt, mkHeap (<[x := v]> (globals h)) (elements h) (defaultPrevented h)).
Proof. intros [w E]. unfold putVar. rewrite E. reflexivity. Qed.

Lemma dragStart_throws e hit k h :
  globals h !! "xOffset" = None →
  dragStart e hit k h = (Throw (ReferenceError "xOffset"), h).
Proof.
  intros E. unfold dragStart. apply bind_throw, getVar_unbound, E.
Qed.

Lemma stays_bind P {A B} (m : M A) (f : A → M B) :
  stays P m → (∀ a, stays P (f a)) → stays P (m ≫= f).
Proof.
  intros Hm Hf h Hh. unfold mbind, M_bind. specialize (Hm h Hh).
  destruct (m h) as [[a|e] h']; cbn in *; [apply Hf, Hm | exact Hm].
Qed.

Lemma stays_getVar P x : stays P (getVar x).
Proof. intros h Hh. unfold getVar. destruct (globals h !! x); exact Hh. Qed.

Lemma stays_putVar T x v : stays (idle T) (putVar x v).
Proof.
  intros h [Hx He]. unfold putVar. destruct (globals h !! x) eqn:E; cbn; [|split; assumption].
  split; cbn; [|exact He].
  destruct (decide (x = "xOffset")) as [->|Hne]; [congruence|].
  rewrite lookup_insert_ne by exact Hne. exact Hx.
Qed.

Lemma stays_setElement T k f :
  (∀ el, isDragging el = false → isDragging (f el) = false ∧ transform (f el) = transform el) →
  stays (idle T) (setElement k f).
Proof.
  intros Hf h [Hx He]. split; [exact Hx|]. intros j. cbn.
  destruct (decide (j = k)) as [->|Hne].
  - rewrite fn_lookup_insert. destruct (He k) as [Hd Ht].
    destruct (Hf _ Hd) as [Hd' Ht']. split; [exact Hd' | congruence].
  - rewrite fn_lookup_insert_ne by congruence. apply He.
Qed.

Lemma stays_dragEnd T k : stays (idle T) (dragEnd k).
Proof.
  unfold dragEnd.
  repeat first [ apply stays_bind; [|intros ?] | apply stays_getVar | apply stays_putVar ].
  - apply stays_setElement. intros el H. cbn. auto.
  - apply stays_setElement. intros el H. cbn. auto.
Qed.

Lemma stays_dragStart T e hit k : stays (idle T) (dragStart e hit k).
Proof. intros h Hh. rewrite dragStart_throws by apply Hh. exact Hh. Qed.

Lemma stays_dragMove T ly e k : stays (idle T) (dragMove ly e k).
Proof.
  intros h Hh. unfold dragMove.
  rewrite (bind_normal _ _ h (elements h k) h) by reflexivity.
  destruct Hh as [Hx He]. rewrite (proj1 (He k)). split; assumption.
Qed.

Lemma dispatch_idle T ly polaroids i h : idle T h → idle T (dispatch ly polaroids i h).
Proof.
  intros Hh. destruct i as [k e|e| |k e|e| ]; cbn [dispatch].
  - destruct (bool_decide (k ∈ polaroids)); [apply stays_dragStart|]; exact Hh.
  - revert h Hh. induction polaroids as [|k ks IH]; intros h Hh; cbn; [exact Hh|].
    apply IH, stays_dragMove, Hh.
  - revert h Hh. induction polaroids as [|k ks IH]; intros h Hh; cbn; [exact Hh|].
    apply IH, stays_dragEnd, Hh.
  - destruct (bool_decide (k ∈ polaroids)); [apply stays_dragStart|]; exact Hh.
  - revert h Hh. induction polaroids as [|k ks IH]; intros h Hh; cbn; [exact Hh|].
    apply IH, stays_dragMove, Hh.
  - revert h Hh. induction polaroids as [|k ks IH]; intros h Hh; cbn; [exact Hh|].
    apply IH, stays_dragEnd, Hh.
Qed.

Lemma interact_idle T ly polaroids l : ∀ h, idle T h → idle T (interact ly polaroids l h).
Proof.
  induction l as [|i l IH]; intros h Hh; cbn; [exact Hh|].
  apply IH, dispatch_idle, Hh.
Qed.

(** C4.  In the scope the scripts run in, where [xOffset] resolves
    nowhere, [dragStart] throws a ReferenceError at its first statement for
    every pointer-down, on a heap it has not touched: the dragging flag is
    not set.  With no element flagged as dragged at the start, no sequence
    of mouse and touch events then changes any element's transform, and
    no element ever gets flagged. *)
Theorem dragStart_raises_and_nothing_moves (ly : Layout) (polaroids : list nat) (h : Heap) :
  globals h !! "xOffset" = None →
  (∀ k, isDragging (elements h k) = false) →
  (∀ e hit k, dragStart e hit k h = (Throw (ReferenceError "xOffset"), h)) ∧
  (∀ l k,
     isDragging (elements (interact ly polaroids l h) k) = false ∧
     transform (elements (interact ly polaroids l h) k) = transform (elements h k)).
Proof.
  intros Hx Hd. split.
  - intros e hit k. apply dragStart_throws, Hx.
  - intros l k.
    apply (interact_idle (λ k, transform (elements h k)) ly polaroids l h).
    split; [exact Hx|]. intros j. split; [apply Hd | reflexivity].
Qed.




Lemma dragStart_raises_and_nothing_moves_witness :
  transform (elements (interact Examples.wide_layout [0%nat; 1%nat]
                         [Mousedown 0 (MouseEvent 10 20);
                          Mousemove (MouseEvent 300 200); Mouseup]
                         Examples.heap_of_site) 0%nat) = None.
Proof.
  apply (dragStart_raises_and_nothing_moves Examples.wide_layout [0%nat; 1%nat]
           Examples.heap_of_site); reflexivity.
Defined.


(** On the same page the translation written is (650, 200). *)
Lemma dragMove_on_wide_layout :
  css <$> transform (elements (snd (dragMove Examples.wide_layout (MouseEvent 900 200) 0
                                  (Examples.heap_resolving true))) 0%nat)
  = Some "translate(650px, 200px) rotate(8deg)".
Proof. vm_compute. reflexivity. Qed.

(** In a scope that declares the six identifiers, with the dragging
    flag set: an element 150 wide in a container 100 wide gets the
    translation 0, above [100 - 150]. *)
Lemma wide_element_leaves_bounds :
  isDragging (elements (Examples.heap_resolving true) 0%nat) = true ∧
  ¬ Examples.within_container Examples.narrow_layout 0
      (snd (dragMove Examples.narrow_layout (MouseEvent 500 700) 0
              (Examples.heap_resolving true))).
Proof.
  split; [reflexivity|].
  unfold Examples.within_container. vm_compute. intros [[_ H] _]. apply H. reflexivity.
Qed.

End DragProperties.

(** ** Start-up *)

Section AppProperties.

Import App.

(** With IntersectionObserver at hand the six pushes all happen, in
    this order, and the body is marked loaded. *)
Lemma initializeComponents_all (env : Env) :
  hasIntersectionObserver env = true →
  initializeComponents env
  = mkResult [ScrollAnimations; Portfolio; FooterAnimations; PerformanceOptimizer;
              AccessibilityEnhancer; ErrorHandler] true false.
Proof. intros H. unfold initializeComponents. cbn. rewrite H. reflexivity. Qed.

(** Without it the first constructor throws and nothing is kept. *)
Lemma initializeComponents_none (env : Env) :
  hasIntersectionObserver env = false →
  initializeComponents env = mkResult [] false true.
Proof. intros H. unfold initializeComponents. cbn. rewrite H. reflexivity. Qed.

(** C3.  On every page load [MiniPolaroids], the draggable decoration
    of the overview, is not among the constructed components; on a page
    with IntersectionObserver whose DOMContentLoaded is still to come,
    the other seven are, and exactly they. *)
Theorem MiniPolaroids_never_constructed (env : Env) :
  (MiniPolaroids ∉ constructedAtLoad env) ∧
  ¬ (overview ⊆ constructedAtLoad env) ∧
  constructedAtLoad (mkEnv true true)
  = [ScrollAnimations; Portfolio; FooterAnimations; PerformanceOptimizer;
     AccessibilityEnhancer; ErrorHandler; Header].
Proof.
  assert (Hnot : MiniPolaroids ∉ constructedAtLoad env).
  { rewrite list_elem_of_In.
    destruct env as [[|] [|]]; cbn; intuition discriminate. }
  split; [exact Hnot|]. split; [|reflexivity].
  intros Hsub. apply Hnot, Hsub. unfold overview.
  repeat first [apply list_elem_of_here | apply list_elem_of_further].
Qed.

End AppProperties.

Section HeaderEventProperties.

Import Header HeaderEvents.

Ltac hdr_eval :=
  cbv beta iota zeta delta
    [smoothScrollClick href inNavLinks inNavItems
     toggleMenu closeMenu disableScroll enableScroll writeBodyStyle scrollTo
     scrollToSmooth classes_upd log set_scroll set_classList set_bodyStyle
     set_aria set_location set_isMenuOpen set_scrollPosition set_inThrottle
     scrollY scrollMax smoothTarget quirksMode classList bodyStyle ariaExpanded
     ariaLabel location isMenuOpen scrollPosition inThrottle calls
     position top width overflow clampScroll scrollRange pageYOffset
     documentElement_scrollTop restingScroll default negb
     throttle throttleTimeout scrollHandler scrollReaction in_sync
     documentKeydown Js.string_of_bool];
  change (String.eqb "fixed" "fixed") with true;
  change (String.eqb "" "fixed") with false;
  cbv iota.

Ltac fn_lookups :=
  repeat first [ rewrite fn_lookup_insert
               | rewrite fn_lookup_insert_ne by discriminate ].

Lemma cl_contains_add_same (c : string) (s : gset string) :
  Js.cl_contains c (Js.cl_add c s) = true.
Proof. apply cl_contains_true, cl_add_elem. now left. Qed.

Lemma cl_contains_add_other (c d : string) (s : gset string) :
  c ≠ d → Js.cl_contains c (Js.cl_add d s) = Js.cl_contains c s.
Proof.
  intros Hne. unfold Js.cl_contains. apply bool_decide_ext.
  rewrite cl_add_elem. intuition.
Qed.

Lemma cl_contains_remove_other (c d : string) (s : gset string) :
  c ≠ d → Js.cl_contains c (Js.cl_remove d s) = Js.cl_contains c s.
Proof.
  intros Hne. unfold Js.cl_contains. apply bool_decide_ext.
  rewrite cl_remove_elem. intuition.
Qed.

Lemma closeMenu_in_sync (s : State) : in_sync (closeMenu s).
Proof.
  destruct s as [y m t q cl b ae al loc o sp th cs].
  hdr_eval. fn_lookups. rewrite !cl_contains_remove.
  repeat split.
Qed.

Lemma toggleMenu_in_sync (s : State) : in_sync s → in_sync (toggleMenu s).
Proof.
  destruct s as [y m t q cl b ae al loc o sp th cs].
  intros (H1 & H2 & H3 & H4 & H5 & H6 & H7 & H8 & H9). cbn in *.
  destruct o; hdr_eval; fn_lookups;
    rewrite ?cl_contains_toggle, ?cl_contains_remove, ?cl_contains_add_same, ?H1, ?H2, ?H3;
    repeat split.
Qed.

(** The three ways the smooth-scroll listener can go. *)
Lemma smoothScrollClick_cases (pg : Page) (link : Link) (s : State) :
  (∃ id, href link = Some (String "#" id) ∧
         smoothScrollClick pg link s
         = match getElementById pg id with
           | Some offsetTop =>
               let s1 := scrollToSmooth (offsetTop - headerOffsetHeight pg)
                           (log PreventDefault s) in
               let s2 := if isMenuOpen s1 then closeMenu s1 else s1 in
               set_location (Some (String "#" id)) (log (PushState (String "#" id)) s2)
           | None => log PreventDefault s
           end)
  ∨ ((∀ id, href link ≠ Some (String "#" id)) ∧ smoothScrollClick pg link s = s).
Proof.
  unfold smoothScrollClick.
  destruct (href link) as [[|c t]|];
    [right; split; [intros; discriminate | reflexivity]
    | | right; split; [intros; discriminate | reflexivity]].
  destruct (Ascii.eqb_spec c "#") as [->|Hne].
  - left. eexists. split; reflexivity.
  - right. split; [intros id [= ? ?]; contradiction|].
    destruct c as [b0 b1 b2 b3 b4 b5 b6 b7].
    destruct b0; [destruct b1; [destruct b2; [reflexivity|]|]|]; try reflexivity.
    destruct b3; [reflexivity|]. destruct b4; [reflexivity|].
    destruct b5; [|reflexivity]. destruct b6; [reflexivity|].
    destruct b7; [reflexivity|]. contradiction Hne. reflexivity.
Qed.

Lemma smoothScrollClick_in_sync (pg : Page) (link : Link) (s : State) :
  in_sync s → in_sync (smoothScrollClick pg link s).
Proof.
  intros Hs.
  destruct (smoothScrollClick_cases pg link s) as [(id & _ & ->)|[_ ->]]; [|exact Hs].
  destruct (getElementById pg id) as [off|].
  - destruct s as [y m t q cl b ae al loc o sp th cs].
    destruct o.
    + hdr_eval. fn_lookups. rewrite !cl_contains_remove. repeat split.
    + exact Hs.
  - exact Hs.
Qed.

Lemma click_in_sync (pg : Page) (link : Link) (s : State) :
  in_sync s → in_sync (click pg link s).
Proof.
  intros Hs. unfold click, clickListeners.
  destruct (inNavItems link), (inNavLinks link); cbn [app foldl].
  - do 2 apply smoothScrollClick_in_sync. apply closeMenu_in_sync.
  - apply smoothScrollClick_in_sync. apply closeMenu_in_sync.
  - apply smoothScrollClick_in_sync. exact Hs.
  - exact Hs.
Qed.

Lemma documentKeydown_in_sync (key : string) (s : State) :
  in_sync s → in_sync (documentKeydown key s).
Proof.
  intros Hs. unfold documentKeydown.
  destruct (String.eqb key "Escape" && isMenuOpen s); [apply closeMenu_in_sync | exact Hs].
Qed.

Lemma scrollHandler_in_sync (y : Z) (s : State) :
  in_sync s → in_sync (scrollHandler y s).
Proof.
  destruct s as [sy m t q cl b ae al loc o sp th cs].
  unfold scrollHandler, throttle. cbn [inThrottle].
  destruct th; [trivial|].
  unfold scrollReaction. destruct (Z.ltb HEADER_CONFIG.SCROLL_THRESHOLD y);
    hdr_eval; fn_lookups;
    rewrite ?cl_contains_add_other, ?cl_contains_remove_other by discriminate;
    trivial.
Qed.

Lemma step_in_sync (pg : Page) (s : State) (a : Action) :
  in_sync s → in_sync (step pg s a).
Proof.
  intros Hs.
  assert (Hlog : in_sync (log PreventDefault s)) by (destruct s; exact Hs).
  destruct a as [|key|key link|link| |]; cbn [step].
  - apply toggleMenu_in_sync, Hlog.
  - apply documentKeydown_in_sync, Hs.
  - apply documentKeydown_in_sync. unfold linkKeydown.
    destruct (inNavLinks link && (String.eqb key "Enter" || String.eqb key " "))%bool;
      [apply click_in_sync, Hlog | exact Hs].
  - apply click_in_sync, Hs.
  - apply scrollHandler_in_sync, Hs.
  - destruct s. exact Hs.
Qed.

(** X1.  Starting from a page whose markup agrees with a closed menu,
    whatever the user does (toggle clicks, keys, clicks and keys on links
    and overlay items, scrolling), the toggle's and overlay's class
    active, the class menu-open on header, body and root, the fixed
    body, its hidden overflow, aria-expanded and the aria-label all agree
    with [isMenuOpen] afterwards. *)
Theorem menu_markup_stays_in_sync (pg : Page) (s : State) (l : list Action) :
  in_sync s → in_sync (run pg s l).
Proof.
  unfold run. revert s. induction l as [|a l IH]; intros s Hs; cbn [foldl].
  - exact Hs.
  - apply IH, step_in_sync, Hs.
Qed.

Lemma menu_markup_stays_in_sync_witness :
  ariaExpanded (run Examples.page_with_about Examples.page_at_734
                  [ClickToggle; ScrollEvent; KeydownLink "Enter" Examples.footer_link;
                   ClickToggle])
  = "true".
Proof.
  pose proof (menu_markup_stays_in_sync Examples.page_with_about Examples.page_at_734
                [ClickToggle; ScrollEvent; KeydownLink "Enter" Examples.footer_link;
                 ClickToggle]) as H.
  destruct H as (_ & _ & _ & _ & _ & _ & _ & H & _).
  - vm_compute. repeat split.
  - rewrite H. vm_compute. reflexivity.
Defined.

(** X2.  In a burst of scroll events between two runs of the throttle
    timer only the first event is served: the header keeps the class that
    the first offset gave it, whatever offsets follow; once the timer has
    run, the next event is served again. *)
Theorem throttle_serves_first_of_burst (s : State) (y : Z) (ys : list Z) :
  inThrottle s = false →
  let s' := foldl (λ acc y', scrollHandler y' acc) s (y :: ys) in
  s' = scrollHandler y s ∧
  ("scrolled" ∈ classList s' HeaderEl ↔ 50 < y) ∧
  (∀ z, "scrolled" ∈ classList (scrollHandler z (throttleTimeout s')) HeaderEl ↔ 50 < z).
Proof.
  intros Hrun s'.
  assert (Hfirst : inThrottle (scrollHandler y s) = true).
  { unfold scrollHandler, throttle. rewrite Hrun. reflexivity. }
  assert (Hs' : s' = scrollHandler y s).
  { subst s'. cbn [foldl]. generalize dependent (scrollHandler y s).
    induction ys as [|y' ys IH]; intros t Ht; cbn [foldl]; [reflexivity|].
    rewrite (scrollHandler_throttled t y' Ht). apply IH, Ht. }
  split; [exact Hs'|]. rewrite Hs'. split.
  - unfold scrollHandler at 1, throttle. rewrite Hrun.
    change (classList (set_inThrottle true (scrollReaction y s)) HeaderEl)
      with (classList (scrollReaction y s) HeaderEl).
    apply scrollReaction_scrolled.
  - intros z. unfold scrollHandler at 1, throttle.
    change (inThrottle (throttleTimeout (scrollHandler y s))) with false. cbv iota.
    change (classList (set_inThrottle true
                         (scrollReaction z (throttleTimeout (scrollHandler y s)))) HeaderEl)
      with (classList (scrollReaction z (throttleTimeout (scrollHandler y s))) HeaderEl).
    apply scrollReaction_scrolled.
Qed.

Lemma throttle_serves_first_of_burst_witness :
  "scrolled" ∈ classList (foldl (λ acc y', scrollHandler y' acc) Examples.page_at_734
                            [120; 80; 30; 0]) HeaderEl ↔ 50 < 120.
Proof.
  destruct (throttle_serves_first_of_burst Examples.page_at_734 120 [80; 30; 0])
    as (_ & H & _); [reflexivity|].
  exact H.
Defined.

(** X3.  Every way of dismissing the open menu puts the page back where
    it was opened: the Escape key and a click on an overlay item without
    an in-page target both close the menu and restore the saved offset;
    any other key leaves the open menu as it is. *)
Theorem every_dismissal_restores_scroll
    (pg : Page) (s : State) (p : Z) (link : Link) (key : string) :
  isMenuOpen s = false →
  scrollY s = p →
  0 ≤ p ≤ scrollMax s →
  inNavItems link = true →
  (∀ id, href link ≠ Some (String "#" id)) →
  let opened := toggleMenu s in
  scrollY (step pg opened (Keydown "Escape")) = p ∧
  isMenuOpen (step pg opened (Keydown "Escape")) = false ∧
  scrollY (step pg opened (ClickLink link)) = p ∧
  isMenuOpen (step pg opened (ClickLink link)) = false ∧
  (String.eqb key "Escape" = false → step pg opened (Keydown key) = opened).
Proof.
  intros Hclosed Hy Hp Hitem Hhref opened.
  assert (Hclick : ∀ t, click pg link t = closeMenu t).
  { intros t. unfold click, clickListeners. rewrite Hitem.
    destruct (inNavLinks link); cbn [app foldl];
      repeat (destruct (smoothScrollClick_cases pg link (closeMenu t))
                as [(id & Hid & _)|[_ ->]]; [destruct (Hhref id Hid)|]);
      reflexivity. }
  cbn [step]. rewrite Hclick.
  assert (Hopen : isMenuOpen opened = true).
  { subst opened. destruct s as [y m t q cl b ae al loc o sp th cs].
    cbn in Hclosed. subst o. reflexivity. }
  unfold documentKeydown. rewrite Hopen. cbn [String.eqb Ascii.eqb Bool.eqb andb].
  assert (Hrestore : scrollY (closeMenu opened) = p ∧ isMenuOpen (closeMenu opened) = false).
  { subst opened. destruct s as [y m t q cl b ae al loc o sp th cs].
    cbn in Hclosed, Hy, Hp. subst o y. hdr_eval. rewrite or_num_same. cbv iota.
    split; [apply clamp0_id, Hp | reflexivity]. }
  destruct Hrestore as [H1 H2].
  repeat split; try assumption.
  intros Hkey. rewrite Hkey. reflexivity.
Qed.

Lemma every_dismissal_restores_scroll_witness :
  scrollY (step Examples.page_with_about (toggleMenu Examples.page_at_734)
             (Keydown "Escape")) = 734.
Proof.
  destruct (every_dismissal_restores_scroll Examples.page_with_about Examples.page_at_734
              734 (mkLink None false true) "Tab") as (H & _);
    [reflexivity | reflexivity | cbn; lia | reflexivity | intros; discriminate |].
  exact H.
Defined.

(** X4.  [closeMenu] does not look at [isMenuOpen]: a click on an overlay
    item while the menu is closed still calls [scrollTo(0, scrollPosition)]
    and moves the page from wherever it is to the offset saved at the last
    opening. *)
Theorem overlay_item_click_on_closed_menu_jumps
    (pg : Page) (s : State) (link : Link) :
  isMenuOpen s = false →
  0 ≤ scrollPosition s ≤ scrollMax s →
  inNavItems link = true →
  (∀ id, href link ≠ Some (String "#" id)) →
  scrollY (click pg link s) = scrollPosition s ∧
  calls (click pg link s) = calls s ++ [CloseMenu; ScrollToInstant 0 (scrollPosition s)].
Proof.
  intros Hclosed Hsp Hitem Hhref.
  assert (Hclick : click pg link s = closeMenu s).
  { unfold click, clickListeners. rewrite Hitem.
    destruct (inNavLinks link); cbn [app foldl];
      repeat (destruct (smoothScrollClick_cases pg link (closeMenu s))
                as [(id & Hid & _)|[_ ->]]; [destruct (Hhref id Hid)|]);
      reflexivity. }
  rewrite Hclick. destruct s as [y m t q cl b ae al loc o sp th cs].
  cbn in Hsp. hdr_eval. rewrite <- !app_assoc. cbn [app].
  split; [apply clamp0_id, Hsp | reflexivity].
Qed.

Lemma overlay_item_click_on_closed_menu_jumps_witness :
  scrollY (click Examples.page_with_about (mkLink None false true) Examples.page_at_734) = 0.
Proof.
  destruct (overlay_item_click_on_closed_menu_jumps Examples.page_with_about
              Examples.page_at_734 (mkLink None false true)) as (H & _);
    [reflexivity | cbn; lia | reflexivity | intros; discriminate |].
  exact H.
Defined.

(** X5.  A fragment link whose target does not exist (the bare fragment
    among them, whose id is empty): its smooth-scroll listener prevents
    the default action and does nothing else.  For a link that is no
    overlay item this is all a click does: no scroll, no history entry,
    and an open menu stays open.  An overlay item has the other listener
    as well, which runs first: the menu is closed and the page is sent to
    the saved offset, then the default action is prevented, once for
    each list the element is in; no history entry is made. *)
Theorem fragment_without_target_only_prevents_default
    (pg : Page) (s : State) (link : Link) (id : string) :
  href link = Some (String "#" id) →
  getElementById pg id = None →
  smoothScrollClick pg link s = log PreventDefault s ∧
  (inNavItems link = false → inNavLinks link = true →
     click pg link s = log PreventDefault s) ∧
  (inNavItems link = true →
     isMenuOpen (click pg link s) = false ∧
     location (click pg link s) = location s ∧
     smoothTarget (click pg link s) = None ∧
     calls (click pg link s)
     = calls s ++ [CloseMenu; ScrollToInstant 0 (scrollPosition s)]
         ++ (if inNavLinks link then [PreventDefault] else [])
         ++ [PreventDefault]).
Proof.
  intros Hhref Hnone.
  assert (Hl : ∀ s, smoothScrollClick pg link s = log PreventDefault s).
  { intros s0. unfold smoothScrollClick. rewrite Hhref, Hnone. reflexivity. }
  split; [apply Hl|]. split.
  - intros Hitem Hlink. unfold click, clickListeners. rewrite Hitem, Hlink.
    cbn [app foldl]. apply Hl.
  - intros Hitem. unfold click, clickListeners. rewrite Hitem.
    destruct (inNavLinks link); cbn [app foldl]; rewrite !Hl;
      destruct s as [y m t q cl b ae al loc o sp th cs];
      hdr_eval; rewrite <- !app_assoc; cbn [app]; repeat split.
Qed.

Lemma fragment_without_target_only_prevents_default_witness :
  click Examples.page_with_about (mkLink (Some "#") true false)
    (toggleMenu Examples.page_at_734)
  = log PreventDefault (toggleMenu Examples.page_at_734).
Proof.
  destruct (fragment_without_target_only_prevents_default Examples.page_with_about
              (toggleMenu Examples.page_at_734) (mkLink (Some "#") true false) "")
    as (_ & H & _); [reflexivity | reflexivity |].
  apply H; reflexivity.
Defined.

(** X6.  A link of [navLinks] clicked while the menu is closed starts a
    smooth scroll that comes to rest at the target's top minus the header
    height, brought into the scroll range of the page (0 when the target
    lies above the header height); [closeMenu] is not called, the page
    does not jump, and the fragment is pushed once. *)
Theorem link_click_on_closed_menu_scrolls_to_target
    (pg : Page) (s : State) (id : string) (off : Z) :
  getElementById pg id = Some off →
  isMenuOpen s = false →
  String.eqb (position (bodyStyle s)) "fixed" = false →
  let s' := click pg (mkLink (Some (String "#" id)) true false) s in
  restingScroll s' = Js.clamp0 (off - headerOffsetHeight pg) (scrollMax s) ∧
  scrollY s' = scrollY s ∧
  calls s' = calls s ++ [PreventDefault; ScrollToSmooth (off - headerOffsetHeight pg);
                         PushState (String "#" id)] ∧
  location s' = Some (String "#" id).
Proof.
  intros Hget Hclosed Hflow s'. subst s'.
  destruct s as [y m t q cl [bp bt bw bo] ae al loc o sp th cs].
  cbn in Hclosed, Hflow. subst o.
  unfold click, clickListeners. cbn [inNavItems inNavLinks app foldl].
  hdr_eval. rewrite Hget. hdr_eval. rewrite Hflow.
  rewrite <- !app_assoc. cbn [app]. repeat split.
Qed.

Lemma link_click_on_closed_menu_scrolls_to_target_witness :
  restingScroll (click Examples.page_with_about Examples.footer_link Examples.page_at_734)
  = 1920.
Proof.
  destruct (link_click_on_closed_menu_scrolls_to_target Examples.page_with_about
              Examples.page_at_734 "about" 2000) as [H _];
    [reflexivity | reflexivity | reflexivity |].
  etransitivity; [exact H | reflexivity].
Defined.

End HeaderEventProperties.

Section HeaderSimpleProperties.

Import Header HeaderSimple.

Ltac simple_eval :=
  cbv beta iota zeta delta
    [HeaderSimple.smoothScrollClick href inNavLinks inNavItems
     HeaderSimple.toggleMenu HeaderSimple.closeMenu writeBodyStyle scrollTo
     scrollToSmooth classes_upd log set_scroll set_classList set_bodyStyle
     set_aria set_location set_isMenuOpen set_scrollPosition set_inThrottle
     scrollY scrollMax smoothTarget quirksMode classList bodyStyle ariaExpanded
     ariaLabel location isMenuOpen scrollPosition inThrottle calls
     position top width overflow clampScroll scrollRange
     restingScroll default negb andb
     HeaderSimple.in_sync HeaderSimple.documentKeydown HeaderSimple.documentClick
     Js.string_of_bool].

Lemma simple_closeMenu_in_sync (s : State) : HeaderSimple.in_sync (HeaderSimple.closeMenu s).
Proof.
  destruct s as [y m t q cl b ae al loc o sp th cs].
  simple_eval. rewrite fn_lookup_insert, cl_contains_remove. repeat split.
Qed.

Lemma simple_closeMenu_closed (s : State) : isMenuOpen (HeaderSimple.closeMenu s) = false.
Proof. destruct s. reflexivity. Qed.

Lemma simple_toggleMenu_in_sync (s : State) :
  HeaderSimple.in_sync s → HeaderSimple.in_sync (HeaderSimple.toggleMenu s).
Proof.
  destruct s as [y m t q cl b ae al loc o sp th cs].
  intros (H1 & H2 & H3 & H4). cbn in *.
  destruct o; simple_eval; rewrite fn_lookup_insert, cl_contains_toggle, H1;
    repeat split.
Qed.

Lemma simple_toggleMenu_flips (s : State) :
  isMenuOpen (HeaderSimple.toggleMenu s) = negb (isMenuOpen s).
Proof. destruct s. reflexivity. Qed.

Lemma simple_smoothScrollClick_cases (pg : Page) (link : Link) (s : State) :
  (∃ id, href link = Some (String "#" id) ∧
         HeaderSimple.smoothScrollClick pg link s
         = match getElementById pg id with
           | Some offsetTop =>
               let s1 := scrollToSmooth (offsetTop - headerOffsetHeight pg)
                           (log PreventDefault s) in
               let s2 := if isMenuOpen s1 then HeaderSimple.closeMenu s1 else s1 in
               set_location (Some (String "#" id)) (log (PushState (String "#" id)) s2)
           | None => log PreventDefault s
           end)
  ∨ ((∀ id, href link ≠ Some (String "#" id)) ∧
     HeaderSimple.smoothScrollClick pg link s = s).
Proof.
  unfold HeaderSimple.smoothScrollClick.
  destruct (href link) as [[|c t]|];
    [right; split; [intros; discriminate | reflexivity]
    | | right; split; [intros; discriminate | reflexivity]].
  destruct (Ascii.eqb_spec c "#") as [->|Hne].
  - left. eexists. split; reflexivity.
  - right. split; [intros id [= ? ?]; contradiction|].
    destruct c as [b0 b1 b2 b3 b4 b5 b6 b7].
    destruct b0; [destruct b1; [destruct b2; [reflexivity|]|]|]; try reflexivity.
    destruct b3; [reflexivity|]. destruct b4; [reflexivity|].
    destruct b5; [|reflexivity]. destruct b6; [reflexivity|].
    destruct b7; [reflexivity|]. contradiction Hne. reflexivity.
Qed.

Lemma simple_smoothScrollClick_in_sync (pg : Page) (link : Link) (s : State) :
  HeaderSimple.in_sync s → HeaderSimple.in_sync (HeaderSimple.smoothScrollClick pg link s).
Proof.
  intros Hs.
  destruct (simple_smoothScrollClick_cases pg link s) as [(id & _ & ->)|[_ ->]]; [|exact Hs].
  destruct (getElementById pg id) as [off|]; [|destruct s; exact Hs].
  destruct s as [y m t q cl b ae al loc o sp th cs]. destruct o.
  - simple_eval. rewrite fn_lookup_insert, cl_contains_remove. repeat split.
  - exact Hs.
Qed.

Lemma simple_documentClick_in_sync (inToggle : bool) (s : State) :
  HeaderSimple.in_sync s → HeaderSimple.in_sync (documentClick inToggle s).
Proof.
  intros Hs. unfold documentClick.
  destruct (isMenuOpen s && negb inToggle); [apply simple_closeMenu_in_sync | exact Hs].
Qed.

Lemma simple_documentKeydown_in_sync (key : string) (s : State) :
  HeaderSimple.in_sync s → HeaderSimple.in_sync (HeaderSimple.documentKeydown key s).
Proof.
  intros Hs. unfold HeaderSimple.documentKeydown.
  destruct (String.eqb key "Escape" && isMenuOpen s);
    [apply simple_closeMenu_in_sync | exact Hs].
Qed.

Lemma simple_clickAt_in_sync (pg : Page) (t : Target) (s : State) :
  HeaderSimple.in_sync s → HeaderSimple.in_sync (clickAt pg t s).
Proof.
  intros Hs. destruct t as [|link|]; cbn [clickAt]; apply simple_documentClick_in_sync.
  - apply simple_toggleMenu_in_sync. destruct s. exact Hs.
  - destruct (inNavLinks link); [apply simple_smoothScrollClick_in_sync|]; exact Hs.
  - exact Hs.
Qed.

(** X7.  Simple variant: from markup that agrees with a closed menu, any
    sequence of clicks (on the toggle, on links, elsewhere) and keys
    leaves the toggle's class active, the body's hidden overflow,
    aria-expanded and the aria-label in agreement with [isMenuOpen]. *)
Theorem simple_menu_markup_stays_in_sync
    (pg : Page) (s : State) (l : list HeaderSimple.Action) :
  HeaderSimple.in_sync s → HeaderSimple.in_sync (HeaderSimple.run pg s l).
Proof.
  unfold HeaderSimple.run. revert s.
  induction l as [|a l IH]; intros s Hs; cbn [foldl]; [exact Hs|].
  apply IH. destruct a as [t|key|key link]; cbn [HeaderSimple.step].
  - apply simple_clickAt_in_sync, Hs.
  - apply simple_documentKeydown_in_sync, Hs.
  - apply simple_documentKeydown_in_sync.
    destruct (inNavLinks link && (String.eqb key "Enter" || String.eqb key " "))%bool;
      [apply simple_clickAt_in_sync; destruct s | ]; exact Hs.
Qed.

Lemma simple_menu_markup_stays_in_sync_witness :
  overflow (bodyStyle (HeaderSimple.run Examples.page_with_about Examples.page_at_734
                         [Click OnToggle; HeaderSimple.Keydown "Tab"])) = "hidden".
Proof.
  destruct (simple_menu_markup_stays_in_sync Examples.page_with_about Examples.page_at_734
              [Click OnToggle; HeaderSimple.Keydown "Tab"]) as (_ & H & _).
  - vm_compute. repeat split.
  - rewrite H. vm_compute. reflexivity.
Defined.

(** X8.  Simple variant: a click on the toggle flips the menu and the
    listener on [document] does not undo it; after a click anywhere else,
    on a link or not, the menu is closed. *)
Theorem simple_click_outside_closes (pg : Page) (t : Target) (s : State) :
  isMenuOpen (clickAt pg t s)
  = match t with OnToggle => negb (isMenuOpen s) | _ => false end.
Proof.
  assert (Hdoc : ∀ u, isMenuOpen (documentClick false u) = false).
  { intros u. unfold documentClick. destruct (isMenuOpen u) eqn:E; cbn [andb negb].
    - apply simple_closeMenu_closed.
    - exact E. }
  destruct t as [|link|]; cbn [clickAt]; [|apply Hdoc..].
  unfold documentClick. cbn [negb]. rewrite andb_false_r.
  rewrite simple_toggleMenu_flips. destruct s. reflexivity.
Qed.

(** X9.  Simple variant: a link clicked while the menu is open starts the
    smooth scroll, closes the menu without any further scroll call and
    pushes the fragment; the page comes to rest at the target's top minus
    the header height, brought into the scroll range. *)
Theorem simple_link_click_while_open_reaches_target
    (pg : Page) (s : State) (id : string) (off : Z) :
  getElementById pg id = Some off →
  isMenuOpen s = true →
  String.eqb (position (bodyStyle s)) "fixed" = false →
  let s' := clickAt pg (OnLink (mkLink (Some (String "#" id)) true false)) s in
  calls s' = calls s ++ [PreventDefault; ScrollToSmooth (off - headerOffsetHeight pg);
                         CloseMenu; PushState (String "#" id)] ∧
  restingScroll s' = Js.clamp0 (off - headerOffsetHeight pg) (scrollMax s) ∧
  isMenuOpen s' = false ∧
  overflow (bodyStyle s') = "" ∧
  location s' = Some (String "#" id).
Proof.
  intros Hget Hopen Hflow s'. subst s'.
  destruct s as [y m t q cl [bp bt bw bo] ae al loc o sp th cs].
  cbn in Hopen, Hflow. subst o.
  cbn [clickAt inNavLinks].
  simple_eval. rewrite Hget. simple_eval. rewrite Hflow.
  rewrite <- !app_assoc. cbn [app]. repeat split.
Qed.

Lemma simple_link_click_while_open_reaches_target_witness :
  restingScroll (clickAt Examples.page_with_about (OnLink Examples.footer_link)
                   (HeaderSimple.toggleMenu Examples.page_at_734)) = 1920.
Proof.
  destruct (simple_link_click_while_open_reaches_target Examples.page_with_about
              (HeaderSimple.toggleMenu Examples.page_at_734) "about" 2000)
    as (_ & H & _); [reflexivity | reflexivity | reflexivity |].
  etransitivity; [exact H | reflexivity].
Defined.

End HeaderSimpleProperties.

Section StatTextProperties.

Import Number ScrollAnimations StatText.

Lemma is_digit_range (c : ascii) :
  is_digit c = true → (48 ≤ nat_of_ascii c ≤ 57)%nat.
Proof.
  unfold is_digit. intros H. apply andb_true_iff in H as [H1 H2].
  apply Nat.leb_le in H1, H2. lia.
Qed.

Lemma keep_digits_empty (s : string) :
  keep_digits s = EmptyString ↔ no_digit s = true.
Proof.
  induction s as [|c r IH]; cbn; [tauto|].
  destruct (is_digit c); cbn; [split; discriminate | exact IH].
Qed.

Lemma keep_digits_all_digits (s : string) : all_digits (keep_digits s) = true.
Proof.
  induction s as [|c r IH]; cbn; [reflexivity|].
  destruct (is_digit c) eqn:E; cbn; [rewrite E|]; exact IH.
Qed.

Lemma drop_digits_no_digit (s : string) : no_digit (drop_digits s) = true.
Proof.
  induction s as [|c r IH]; cbn; [reflexivity|].
  destruct (is_digit c) eqn:E; cbn; [|rewrite E]; exact IH.
Qed.

Lemma split_lengths (s : string) :
  (String.length (keep_digits s) + String.length (drop_digits s) = String.length s)%nat.
Proof.
  induction s as [|c r IH]; cbn; [reflexivity|].
  destruct (is_digit c); cbn; lia.
Qed.

Lemma digits_value_nonneg (s : string) (acc : Z) :
  all_digits s = true → 0 ≤ acc → 0 ≤ digits_value acc s.
Proof.
  revert acc. induction s as [|c r IH]; intros acc Hd Hacc; cbn [digits_value].
  - exact Hacc.
  - cbn in Hd. apply andb_true_iff in Hd as [Hc Hr].
    apply IH; [exact Hr|]. apply is_digit_range in Hc. lia.
Qed.

Lemma parseInt_digits_nonneg (d : string) :
  all_digits d = true →
  match parseInt_digits d with
  | NaN => d = EmptyString
  | Infinity negative => negative = false
  | Finite m => (0 <= m)%Q
  end.
Proof.
  intros Hd. unfold parseInt_digits. destruct d as [|c r]; [reflexivity|].
  assert (Hz : (0 <= inject_Z (digits_value 0 (String c r)))%Q).
  { change 0%Q with (inject_Z 0). rewrite <- Zle_Qle.
    apply (digits_value_nonneg (String c r) 0); [exact Hd | lia]. }
  destruct (round_nonneg_cases _ Hz) as [[E _]|[E _]]; rewrite E; [|reflexivity].
  rewrite Qred_correct. apply nearest_nonneg, Hz.
Qed.

(** X10.  Splitting a text into its digits and the rest loses nothing and
    mixes nothing: the two parts have the characters of the text between
    them, the first holds digits only and the second none, and the
    magnitude parsed from the digits is never negative (a minus sign goes
    to the suffix): it is [NaN] for a text without digit only, and
    otherwise a finite number from 0 up or the positive infinity. *)
Theorem text_split_is_a_partition (text : string) :
  (String.length (keep_digits text) + String.length (drop_digits text)
   = String.length text)%nat ∧
  all_digits (keep_digits text) = true ∧
  no_digit (drop_digits text) = true ∧
  match parseInt_digits (keep_digits text) with
  | NaN => no_digit text = true
  | Infinity negative => negative = false
  | Finite m => (0 <= m)%Q
  end.
Proof.
  repeat split.
  - apply split_lengths.
  - apply keep_digits_all_digits.
  - apply drop_digits_no_digit.
  - pose proof (parseInt_digits_nonneg _ (keep_digits_all_digits text)) as H.
    destruct (parseInt_digits (keep_digits text)); [|exact H|exact H].
    apply keep_digits_empty, H.
Qed.

Lemma isNaN_parseInt_digits (d : string) :
  isNaN (parseInt_digits d) = true ↔ d = EmptyString.
Proof.
  unfold parseInt_digits. destruct d as [|c r]; [split; reflexivity|].
  split; [|discriminate]. unfold round.
  destruct (Qle_bool _ _); discriminate.
Qed.

(** X11.  [animateNumber] returns without animating exactly when the
    statistic has no number element or the text of that element holds no
    digit; otherwise it fixes the text as the final string, the
    non-digits as suffix and the parsed digits as magnitude, and requests
    the first frame without writing anything. *)
Theorem animateNumber_skips_texts_without_digit (now : t) (stat : StatElement) :
  (animateNumber now stat = None ↔
     match stat__number stat with
     | None => True
     | Some el => no_digit (textContent el) = true
     end) ∧
  (∀ a el', animateNumber now stat = Some (a, el') →
     ∃ el, stat__number stat = Some el ∧
           finalNumber a = textContent el ∧
           numericValue a = parseInt_digits (keep_digits (textContent el)) ∧
           suffix a = drop_digits (textContent el) ∧
           startTime a = now ∧
           textContent el' = textContent el ∧
           written el' = written el ∧
           frameRequested el' = true).
Proof.
  unfold animateNumber. destruct (stat__number stat) as [el|].
  - pose proof (isNaN_parseInt_digits (keep_digits (textContent el))) as Hnan.
    rewrite keep_digits_empty in Hnan.
    destruct (isNaN (parseInt_digits (keep_digits (textContent el)))).
    + split; [split; [intros _; apply Hnan; reflexivity | reflexivity]|].
      intros a el' [=].
    + split.
      * split; [discriminate|]. intros H. apply Hnan in H. discriminate.
      * intros a el' [= <- <-]. exists el. repeat split.
  - split; [split; trivial|]. intros a el' [=].
Qed.

Lemma pretty_digit_char (c : ascii) :
  is_digit c = true →
  pretty_N_char (Z.to_N (Z.of_nat (nat_of_ascii c) - 48)) = c.
Proof.
  intros H. apply is_digit_range in H.
  rewrite <- (ascii_nat_embedding c) at 2.
  assert (nat_of_ascii c = 48 ∨ nat_of_ascii c = 49 ∨ nat_of_ascii c = 50 ∨
          nat_of_ascii c = 51 ∨ nat_of_ascii c = 52 ∨ nat_of_ascii c = 53 ∨
          nat_of_ascii c = 54 ∨ nat_of_ascii c = 55 ∨ nat_of_ascii c = 56 ∨
          nat_of_ascii c = 57)%nat as Hc by lia.
  repeat destruct Hc as [Hc|Hc]; rewrite Hc; reflexivity.
Qed.

Lemma pretty_go_digits (d : string) : ∀ (acc : Z) (s : string),
  all_digits d = true →
  0 ≤ acc →
  (acc = 0 → match d with String c _ => c ≠ "0"%char | EmptyString => True end) →
  pretty_N_go (Z.to_N (digits_value acc d)) s = pretty_N_go (Z.to_N acc) (d +:+ s).
Proof.
  induction d as [|c r IH]; intros acc s Hd Hacc Hlead; cbn [digits_value].
  - reflexivity.
  - cbn in Hd. apply andb_true_iff in Hd as [Hc Hr].
    pose proof (is_digit_range c Hc) as Hrange.
    set (v := Z.of_nat (nat_of_ascii c) - 48) in *.
    assert (Hv : 0 ≤ v ≤ 9) by (unfold v; lia).
    assert (Hpos : 0 < 10 * acc + v).
    { destruct (decide (acc = 0)) as [->|Hne]; [|lia].
      specialize (Hlead eq_refl). cbn in Hlead.
      assert (v ≠ 0); [|lia]. intros Hz. apply Hlead.
      rewrite <- (pretty_digit_char c Hc). fold v. rewrite Hz. reflexivity. }
    rewrite IH; [|exact Hr|lia|lia].
    rewrite pretty_N_go_step by lia.
    replace (Z.to_N (10 * acc + v) `div` 10)%N with (Z.to_N acc)
      by (apply N2Z.inj; rewrite N2Z.inj_div, !Z2N.id by lia;
          change (Z.of_N 10) with 10; apply Z.div_unique with v; lia).
    replace (Z.to_N (10 * acc + v) `mod` 10)%N with (Z.to_N v)
      by (apply N2Z.inj; rewrite N2Z.inj_mod, !Z2N.id by lia;
          change (Z.of_N 10) with 10; apply Z.mod_unique with acc; lia).
    unfold v. rewrite (pretty_digit_char c Hc). reflexivity.
Qed.

Lemma append_empty_r (s : string) : s +:+ "" = s.
Proof.
  induction s as [|c r IH]; [reflexivity|].
  change (String c (r +:+ "") = String c r). now rewrite IH.
Qed.

Lemma pretty_digits_value (d : string) :
  canonical d = true → pretty (digits_value 0 d) = d.
Proof.
  unfold canonical. intros H. apply andb_true_iff in H as [Hd Hlead].
  destruct d as [|c r]; [discriminate|].
  destruct (Ascii.eqb_spec c "0") as [->|Hne].
  - destruct r; [reflexivity | discriminate].
  - assert (Hgo := pretty_go_digits (String c r) 0 "" Hd ltac:(lia) (λ _, Hne)).
    rewrite (append_empty_r (String c r)) in Hgo. change (Z.to_N 0) with 0%N in Hgo.
    rewrite pretty_N_go_0 in Hgo.
    assert (Hpos : 0 < digits_value 0 (String c r)).
    { cbn [digits_value]. cbn in Hd. apply andb_true_iff in Hd as [Hc Hr].
      pose proof (is_digit_range c Hc).
      assert (Z.of_nat (nat_of_ascii c) - 48 ≠ 0).
      { intros Hz. apply Hne. rewrite <- (pretty_digit_char c Hc), Hz. reflexivity. }
      assert (0 < 10 * 0 + (Z.of_nat (nat_of_ascii c) - 48)) by lia.
      eapply Z.lt_le_trans; [eassumption|].
      clear -Hr H1. revert H1. generalize (10 * 0 + (Z.of_nat (nat_of_ascii c) - 48)).
      induction r as [|c' r' IH]; intros acc Hacc; cbn [digits_value]; [lia|].
      cbn in Hr. apply andb_true_iff in Hr as [Hc' Hr'].
      pose proof (is_digit_range c' Hc').
      etransitivity; [|apply IH; [exact Hr'|lia]]. lia. }
    destruct (digits_value 0 (String c r)) as [|p|p] eqn:E; try lia.
    rewrite <- Hgo. unfold pretty, pretty_Z, pretty_positive, pretty, pretty_N.
    rewrite decide_False by discriminate. reflexivity.
Qed.


Lemma parseInt_digits_exact (d : string) :
  all_digits d = true → d ≠ EmptyString →
  (digits_value 0 d < 2 ^ 53)%Z →
  ∃ mq, parseInt_digits d = Finite mq ∧ (mq == inject_Z (digits_value 0 d))%Q ∧
        representable mq ∧ (mq < 2 ^ 1024)%Q.
Proof.
  intros Hd Hne Hlt. unfold parseInt_digits. destruct d as [|c r]; [contradiction|].
  set (z := digits_value 0 (String c r)) in *.
  assert (Hz : (0 <= z)%Z) by (apply (digits_value_nonneg (String c r) 0); [exact Hd|lia]).
  assert (Hrep : representable (inject_Z z)) by (apply representable_Z; lia).
  assert (Hfin : (inject_Z z < 2 ^ 1024)%Q).
  { apply Qlt_trans with (2 ^ 53)%Q; [|apply two_power_lt; lia].
    rewrite <- two_power_Z by lia. rewrite <- Zlt_Qlt. exact Hlt. }
  destruct (round_bounded (inject_Z z) (inject_Z z)) as (E & _ & _);
    [apply representable_nonneg, Hrep | apply Qle_refl | exact Hrep | exact Hfin |].
  pose proof (Qred_correct (nearest (inject_Z z))) as Er.
  pose proof (nearest_representable_fix _ Hrep) as Ef.
  exists (Qred (nearest (inject_Z z))). split; [exact E|].
  split; [now rewrite Er, Ef|]. split.
  - apply (representable_comp (inject_Z z)); [|exact Hrep]. now rewrite Er, Ef.
  - now rewrite Er, Ef.
Qed.

Context {P : Math.Pow}.
Hypothesis cubes : Math.cubes_unit_interval.

(** X12.  Printing undoes parsing on numerals below [2^53]: for a string of
    digits without a leading zero, the digits of its parsed value are the
    string again.  So for a text made of such a numeral followed by its
    suffix, the frame that completes the animation already shows the
    original text, and the write that follows repeats it. *)
Theorem completing_frame_shows_canonical_text
    (now c : Q) (el : NumberElement) :
  canonical (keep_digits (textContent el)) = true →
  (digits_value 0 (keep_digits (textContent el)) < 2 ^ 53)%Z →
  textContent el = keep_digits (textContent el) +:+ drop_digits (textContent el) →
  (now + 1000 <= c)%Q →
  ∃ a el', animateNumber (Finite now) (mkStatElement (Some el)) = Some (a, el') ∧
           toString (numericValue a) = keep_digits (textContent el) ∧
           shown a (Finite c) = textContent el.
Proof.
  intros Hcan Hsafe Hshape Hlate.
  pose proof (pretty_digits_value _ Hcan) as Hround.
  set (d := keep_digits (textContent el)) in *.
  set (z := digits_value 0 d) in *.
  assert (Hd : all_digits d = true) by apply keep_digits_all_digits.
  assert (Hne : d ≠ EmptyString) by (intros E; rewrite E in Hcan; discriminate).
  assert (Hz : (0 <= z)%Z) by (apply digits_value_nonneg; [exact Hd|lia]).
  destruct (parseInt_digits_exact d Hd Hne Hsafe) as (mq & Em & Emq & Hrep & Hfin).
  fold z in Emq.
  assert (Hnan : isNaN (parseInt_digits d) = false) by (rewrite Em; reflexivity).
  eexists _, _. split; [|split].
  - unfold animateNumber. cbn [stat__number]. fold d. rewrite Hnan. reflexivity.
  - cbn [numericValue]. rewrite Em, <- Hround. apply toString_integer; [exact Emq|lia].
  - set (a := mkAnimation (textContent el) (parseInt_digits d)
                (drop_digits (textContent el)) (Finite now)).
    destruct (frame_value cubes a now mq c) as (w & Ew & _ & Hend);
      [reflexivity | exact Em | exact Hrep | exact Hfin | lra |].
    assert (Hw : w = z).
    { rewrite Hend; [|apply (progress_complete a (Finite c)); exact Hlate].
      rewrite (Qfloor_comp _ _ Emq). apply Qfloor_Z. }
    unfold shown. rewrite Ew, Hw, toString_of_Z by lia.
    cbn [suffix a]. rewrite Hround. symmetry. exact Hshape.
Qed.

(** X13.  For every statistic whose text holds a digit and whose
    magnitude is finite, with frames whose time stamps start at or after
    the start and never run back, and a [Math.pow] that keeps the unit
    interval and its order: the values shown are whole numbers that never
    fall, each lies between 0 and the magnitude, and if a frame comes a
    full second in, the last value is the magnitude, a whole number,
    and the element ends with its original text. *)
Theorem counter_never_falls
    (now : Q) (stat : StatElement) (a : Animation) (el' : NumberElement)
    (mq : Q) (frames : list Q) :
  animateNumber (Finite now) stat = Some (a, el') →
  numericValue a = Finite mq →
  Sorted Qle (now :: frames) →
  let final := runFrames a (map Finite frames) el' in
  ∃ values : list Z,
    displayed_values a (map Finite frames) = map of_Z values ∧
    StronglySorted Z.le (0%Z :: values) ∧
    Forall (λ v, (0 <= v)%Z ∧ (inject_Z v <= mq)%Q) values ∧
    (completes a (map Finite frames) →
       ∃ v el, last values = Some v ∧ (inject_Z v == mq)%Q ∧
               stat__number stat = Some el ∧
               textContent final = textContent el).
Proof.
  intros Hanim Hm Hs final. subst final.
  unfold animateNumber in Hanim.
  destruct (stat__number stat) as [el|] eqn:Hstat; [|discriminate].
  set (d := keep_digits (textContent el)) in *.
  destruct (isNaN (parseInt_digits d)) eqn:Hnan; [discriminate|].
  injection Hanim as <- <-. cbn [numericValue] in Hm.
  assert (Hne : d ≠ EmptyString).
  { intros E. rewrite E in Hnan. discriminate. }
  set (a := mkAnimation (textContent el) (parseInt_digits d)
              (drop_digits (textContent el)) (Finite now)).
  assert (Hz : (0 <= inject_Z (digits_value 0 d))%Q).
  { change 0%Q with (inject_Z 0). rewrite <- Zle_Qle.
    apply digits_value_nonneg; [apply keep_digits_all_digits | lia]. }
  assert (Hmq : (mq == nearest (inject_Z (digits_value 0 d)))%Q ∧
                (nearest (inject_Z (digits_value 0 d)) < 2 ^ 1024)%Q).
  { unfold parseInt_digits in Hm. destruct d as [|c0 r0]; [contradiction|].
    destruct (round_nonneg_cases _ Hz) as [[E Hfin]|[E _]]; rewrite E in Hm;
      [|discriminate].
    injection Hm as <-. split; [apply Qred_correct | exact Hfin]. }
  destruct Hmq as [Emq Hfin].
  assert (Hrep : representable mq).
  { apply (representable_comp (nearest (inject_Z (digits_value 0 d))));
      [symmetry; exact Emq | apply nearest_representable, Hz]. }
  assert (Hfin' : (mq < 2 ^ 1024)%Q) by (rewrite Emq; exact Hfin).
  destruct (nearest_integer (digits_value 0 d)) as (w & Ew).
  { apply digits_value_nonneg; [apply keep_digits_all_digits | lia]. }
  assert (Eint : (inject_Z (Qfloor mq) == mq)%Q).
  { rewrite (Qfloor_comp mq (inject_Z w)), Qfloor_Z by (rewrite Emq; exact Ew).
    rewrite Emq. symmetry. exact Ew. }
  destruct (frames_strongly_sorted now frames Hs) as [Hafter Hss].
  destruct (live_frames_map a frames) as (l & rest & El & Eq).
  assert (Hafter' : Forall (Qle now) l).
  { rewrite Eq in Hafter. apply Forall_app in Hafter. apply Hafter. }
  assert (Hss' : StronglySorted Qle l).
  { rewrite Eq in Hss. apply (prefix_sorted l rest Hss). }
  destruct (values_of_frames cubes a now mq l) as (zs & Ezs & Hzs & Hrange & Hlast);
    [reflexivity | exact Hm | exact Hrep | exact Hfin' | exact Hafter' | exact Hss' |].
  exists zs. split; [|split; [|split]].
  - unfold displayed_values. rewrite El. exact Ezs.
  - constructor; [exact Hzs|].
    eapply Forall_impl; [exact Hrange|]. cbn. intros v Hv. lia.
  - eapply Forall_impl; [exact Hrange|]. cbn. intros v [Hv0 Hv1].
    split; [exact Hv0|]. rewrite <- Eint. rewrite <- Zle_Qle. exact Hv1.
  - intros Hc.
    pose proof (completes_reaches_end a (map Finite frames) Hc) as Hend.
    destruct (live_frames_last a (map Finite frames) Hend) as (c & Hl & Hp).
    rewrite El in Hl. destruct (last_map_Finite l c Hl) as (q & -> & Hlq).
    exists (Qfloor mq), el. split; [apply (Hlast q Hlq Hp)|].
    split; [exact Eint|]. split; [reflexivity|].
    destruct (runFrames_trace a (map Finite frames) (requestAnimationFrame el))
      as (_ & _ & Ht); [reflexivity|].
    apply Ht, Hend.
Qed.

(** A frame whose computed elapsed time is below 1000 leaves the progress
    below 1: the quotient of the largest binary64 value under 1000 by
    1000 rounds to the largest one under 1. *)
Lemma progress_below_1 (a : Animation) (s c : Q) :
  startTime a = Finite s →
  lt (sub (Finite c) (Finite s)) (of_Z 1000) = true →
  lt (progress_at a (Finite c)) (of_Z 1) = true.
Proof.
  intros Hs Hlt. unfold progress_at, duration. rewrite Hs.
  change (sub (Finite c) (Finite s)) with (round (c - s)) in *.
  destruct (Qlt_le_dec (c - s) 0) as [Hneg|Hpos].
  - destruct (round_nonpos_cases (c - s)) as [(v & E & Hv)|E]; [lra| |];
      rewrite E; [|reflexivity].
    change (div (Finite v) (of_Z 1000)) with (round (v / 1000)).
    destruct (round_nonpos_cases (v / 1000)) as [(w & E' & Hw)|E'];
      [apply Qle_shift_div_r; [reflexivity | lra] | |]; rewrite E'; [|reflexivity].
    unfold Math.min, of_Z. rewrite !lt_Finite.
    assert (H1 : Qltb (inject_Z 1) w = false)
      by (apply Qltb_ge; change (inject_Z 1) with 1%Q; lra).
    rewrite H1. rewrite lt_Finite. apply Qltb_lt. change (inject_Z 1) with 1%Q. lra.
  - destruct (round_nonneg_cases (c - s) Hpos) as [[E Hfin]|[E _]]; rewrite E in *;
      [|discriminate].
    pose proof (Qred_correct (nearest (c - s))) as Er.
    set (e := Qred (nearest (c - s))) in *.
    unfold of_Z in Hlt. rewrite lt_Finite in Hlt. apply Qltb_lt in Hlt.
    change (inject_Z 1000) with 1000%Q in Hlt.
    assert (Hrep : representable e).
    { apply (representable_comp (nearest (c - s))); [symmetry; exact Er|].
      apply nearest_representable, Hpos. }
    pose proof (representable_nonneg e Hrep) as He0.
    pose proof (below_1000 e Hrep Hlt) as Hpred.
    change (div (Finite e) (of_Z 1000)) with (round (e / 1000)).
    assert (Hq : (nearest (e / 1000) < 1)%Q).
    { eapply Qle_lt_trans; [|exact largest_quotient_below_1].
      apply nearest_mono.
      - apply Qle_shift_div_l; [reflexivity | lra].
      - unfold Qdiv. apply Qmult_le_compat_r; [exact Hpred | discriminate]. }
    destruct (round_unit (e / 1000)) as (E' & _ & _).
    + apply Qle_shift_div_l; [reflexivity | lra].
    + apply Qle_shift_div_r; [reflexivity | lra].
    + rewrite E'. pose proof (Qred_correct (nearest (e / 1000))) as Er'.
      unfold Math.min, of_Z. rewrite !lt_Finite.
      assert (H1 : Qltb (inject_Z 1) (Qred (nearest (e / 1000))) = false)
        by (apply Qltb_ge; change (inject_Z 1) with 1%Q; lra).
      rewrite H1. rewrite lt_Finite. apply Qltb_lt. change (inject_Z 1) with 1%Q. lra.
Qed.

Lemma live_frames_all (a : Animation) (frames : list t) :
  reaches_end a frames = false → live_frames a frames = frames.
Proof.
  induction frames as [|c rest IH]; cbn [reaches_end existsb live_frames];
    [reflexivity|].
  destruct (lt (progress_at a c) (of_Z 1)); cbn [negb orb]; [|discriminate].
  intros H. now rewrite IH.
Qed.

(** X14.  The animation does not end early: as long as every frame
    computes an elapsed time below 1000, every frame runs and writes
    one value, the original text is not written back, and a further frame
    stays requested.  The elapsed time is the one the frame computes,
    [currentTime - startTime] in binary64. *)
Theorem counter_stays_pending_before_duration
    (a : Animation) (s : Q) (el : NumberElement) (frames : list Q) :
  startTime a = Finite s →
  frameRequested el = true →
  Forall (λ c, lt (sub (Finite c) (Finite s)) (of_Z 1000) = true) frames →
  let final := runFrames a (map Finite frames) el in
  frameRequested final = true ∧
  written final = written el ++ map (shown a) (map Finite frames).
Proof.
  intros Hs Hreq Hall final. subst final.
  assert (Hend : reaches_end a (map Finite frames) = false).
  { unfold reaches_end. induction Hall as [|c l Hc _ IH]; [reflexivity|].
    cbn [map existsb]. rewrite (progress_below_1 a s c Hs Hc). exact IH. }
  destruct (runFrames_trace a (map Finite frames) el Hreq) as (Hw & Hf & _).
  rewrite Hw, Hf, Hend, (live_frames_all a _ Hend), app_nil_r. split; reflexivity.
Qed.

End StatTextProperties.

Section CounterWitnesses.

Import Number ScrollAnimations.
Local Open Scope Q_scope.

Lemma counter_frames_follow_ease_out_witness :
  let a := Examples.anim250 (of_Z 0) in
  let final := runFrames (P := Math.rounded_pow) a Examples.three_frames
                 (requestAnimationFrame Examples.stat250) in
  written final = ["11+"; "218+"; "250+"; "250+"]%string ∧
  textContent final = "250+"%string.
Proof.
  destruct (counter_frames_follow_ease_out (P := Math.rounded_pow) Examples.stat250
              (of_Z 0) Examples.three_frames) as (_ & Hw & Hc); [reflexivity|].
  split.
  - etransitivity; [exact Hw | vm_compute; reflexivity].
  - apply Hc. right. right. left. vm_compute. discriminate.
Defined.

Lemma stat_250_counts_up_witness :
  textContent (runFrames (P := Math.rounded_pow) (Examples.anim250 (of_Z 0))
                 Examples.three_frames
                 (requestAnimationFrame Examples.stat250)) = "250+"%string.
Proof.
  destruct (stat_250_counts_up (P := Math.rounded_pow) rounded_pow_cubes 0
              [16; 500; 1000]) as (_ & values & _ & _ & _ & _ & _ & H).
  - repeat constructor; vm_compute; discriminate.
  - right. right. left. vm_compute. discriminate.
  - exact H.
Defined.

Lemma animateNumber_skips_texts_without_digit_witness :
  animateNumber (of_Z 0) (mkStatElement (Some (mkNumberElement "n/a" false []))) = None ∧
  animateNumber (of_Z 0) (mkStatElement None) = None.
Proof.
  split.
  - apply (animateNumber_skips_texts_without_digit (of_Z 0)
             (mkStatElement (Some (mkNumberElement "n/a" false [])))).
    reflexivity.
  - apply (animateNumber_skips_texts_without_digit (of_Z 0) (mkStatElement None)).
    exact I.
Defined.

Lemma completing_frame_shows_canonical_text_witness :
  ∃ a el', animateNumber (of_Z 0) Examples.stat250_item = Some (a, el') ∧
           toString (numericValue a) = "250"%string ∧
           shown (P := Math.rounded_pow) a (of_Z 1000) = "250+"%string.
Proof.
  apply (completing_frame_shows_canonical_text (P := Math.rounded_pow)
           rounded_pow_cubes 0 1000 Examples.stat250);
    [reflexivity | reflexivity | reflexivity | vm_compute; discriminate].
Defined.

Lemma counter_never_falls_witness :
  ∃ values : list Z,
    displayed_values (P := Math.rounded_pow) (Examples.anim250 (of_Z 0))
      Examples.three_frames = map of_Z values ∧
    StronglySorted Z.le (0%Z :: values).
Proof.
  destruct (counter_never_falls (P := Math.rounded_pow) rounded_pow_cubes 0
              Examples.stat250_item (Examples.anim250 (of_Z 0))
              (requestAnimationFrame Examples.stat250) 250 [16; 500; 1000])
    as (values & Hv & Hs & _).
  - vm_compute. reflexivity.
  - reflexivity.
  - repeat constructor; vm_compute; discriminate.
  - exists values. split; [exact Hv | exact Hs].
Defined.

Lemma counter_stays_pending_before_duration_witness :
  frameRequested (runFrames (P := Math.rounded_pow) (Examples.anim250 (of_Z 0))
                    [of_Z 16; of_Z 500]
                    (requestAnimationFrame Examples.stat250)) = true.
Proof.
  destruct (counter_stays_pending_before_duration (P := Math.rounded_pow)
              (Examples.anim250 (of_Z 0)) 0
              (requestAnimationFrame Examples.stat250) [16; 500]) as (H & _).
  - reflexivity.
  - reflexivity.
  - repeat constructor.
  - exact H.
Defined.

End CounterWitnesses.

Section ObserverEventProperties.

Import Observers ObserverEvents.

Lemma foldl_snoc {S E : Type} (f : S → E → S) (s : S) (l : list E) (e : E) :
  foldl f s (l ++ [e]) = f (foldl f s l) e.
Proof. revert s. induction l as [|x l IH]; intros s; cbn; [reflexivity | apply IH]. Qed.

Lemma foldl_concat {S E : Type} (f : S → E → S) (s : S) (bs : list (list E)) :
  foldl (foldl f) s bs = foldl f s (concat bs).
Proof.
  revert s. induction bs as [|b bs IH]; intros s; cbn; [reflexivity|].
  rewrite IH, foldl_app. reflexivity.
Qed.

Lemma intersects_snoc (t : nat) (l : list Entry) (e : Entry) :
  intersects t (l ++ [e])
  = intersects t l || (Nat.eqb (target e) t && isIntersecting e).
Proof. unfold intersects. rewrite existsb_app. cbn. now rewrite orb_false_r. Qed.

(** What one entry does to the statistics watcher, seen from target [t]. *)
Lemma statEntry_effect (s : StatState) (e : Entry) (t : nat) :
  "stat" ∈ statClasses s t →
  let s' := statEntry s e in
  ("stat" ∈ statClasses s' t) ∧
  (Nat.eqb (target e) t && isIntersecting e = false →
     statClasses s' t = statClasses s t ∧
     (t ∈ animateNumberCalls s' ↔ t ∈ animateNumberCalls s)) ∧
  (Nat.eqb (target e) t && isIntersecting e = true →
     "animated" ∈ statClasses s' t ∧
     (t ∈ animateNumberCalls s ∨ "animated" ∉ statClasses s t →
      t ∈ animateNumberCalls s')).
Proof.
  intros Hstat s'. subst s'. unfold statEntry.
  destruct (Nat.eqb_spec (target e) t) as [Heq|Hne]; cbn [andb].
  - subst t. destruct (isIntersecting e); cbn [andb].
    + destruct (Js.cl_contains "animated" (statClasses s (target e))) eqn:Han; cbn [negb].
      * apply cl_contains_true in Han.
        split; [exact Hstat|]. split; [discriminate|]. intros _.
        split; [exact Han|]. intros [Hin|Hno]; [exact Hin | contradiction].
      * rewrite fn_lookup_insert.
        assert (Hs : Js.cl_contains "stat"
                       (Js.cl_add "animated" (statClasses s (target e))) = true).
        { apply cl_contains_true, cl_add_elem. now right. }
        rewrite Hs. cbn. rewrite fn_lookup_insert.
        split; [apply cl_add_elem; now right|]. split; [discriminate|]. intros _.
        split; [apply cl_add_elem; now left|]. intros _.
        apply elem_of_app. right. apply list_elem_of_singleton. reflexivity.
    + split; [exact Hstat|]. split; [|discriminate]. intros _. split; [reflexivity | tauto].
  - destruct (isIntersecting e && negb (Js.cl_contains "animated" (statClasses s (target e)))).
    + destruct (Js.cl_contains "stat" _); cbn;
        rewrite fn_lookup_insert_ne by exact Hne;
        (split; [exact Hstat|]); (split; [|discriminate]); intros _;
        (split; [reflexivity|]).
      * split; [|intros Hin; apply elem_of_app; now left].
        intros Hin. apply elem_of_app in Hin as [Hin|Hin]; [exact Hin|].
        apply list_elem_of_singleton in Hin. congruence.
      * tauto.
    + split; [exact Hstat|]. split; [|discriminate]. intros _. split; [reflexivity | tauto].
Qed.

(** X15.  A statistic that carries the class stat and is not yet marked
    animated at page load is handed to [animateNumber] exactly once if
    some entry of some batch reports it as intersecting, and never if none
    does; in the first case it ends up marked animated, in the second its
    classes are untouched. *)
Theorem stat_animates_exactly_when_seen
    (cls : nat → gset string) (t : nat) (batches : list (list Entry)) :
  "stat" ∈ cls t →
  "animated" ∉ cls t →
  let final := foldl statCallback (mkStatState cls []) batches in
  (intersects t (concat batches) = true →
     count_occ Nat.eq_dec (animateNumberCalls final) t = 1%nat ∧
     "animated" ∈ statClasses final t) ∧
  (intersects t (concat batches) = false →
     count_occ Nat.eq_dec (animateNumberCalls final) t = 0%nat ∧
     statClasses final t = cls t).
Proof.
  intros Hstat Hfresh final. subst final.
  unfold statCallback. rewrite foldl_concat.
  set (run := λ l, foldl statEntry (mkStatState cls []) l).
  assert (Hinv : ∀ l,
            "stat" ∈ statClasses (run l) t ∧
            (intersects t l = true →
               t ∈ animateNumberCalls (run l) ∧ "animated" ∈ statClasses (run l) t) ∧
            (intersects t l = false →
               (t ∉ animateNumberCalls (run l)) ∧ statClasses (run l) t = cls t)).
  { induction l as [|e l IH] using rev_ind.
    - cbn. split; [exact Hstat|]. split; [discriminate|]. intros _.
      split; [intros Hin; inversion Hin | reflexivity].
    - destruct IH as (IHs & IHy & IHn). unfold run. rewrite foldl_snoc. fold (run l).
      destruct (statEntry_effect (run l) e t IHs) as (Hs' & Hoff & Hon).
      rewrite intersects_snoc. split; [exact Hs'|].
      destruct (Nat.eqb (target e) t && isIntersecting e) eqn:Hhit.
      + rewrite orb_true_r. split; [|discriminate]. intros _.
        destruct (Hon eq_refl) as [Han Hin]. split; [|exact Han].
        apply Hin. destruct (intersects t l) eqn:Hl.
        * left. apply IHy. reflexivity.
        * right. destruct (IHn eq_refl) as [_ Hc]. rewrite Hc. exact Hfresh.
      + rewrite orb_false_r. destruct (Hoff eq_refl) as [Hc Hin]. split.
        * intros Hl. destruct (IHy Hl). split; [apply Hin; assumption | rewrite Hc; assumption].
        * intros Hl. destruct (IHn Hl). split; [rewrite Hin; assumption | congruence]. }
  destruct (Hinv (concat batches)) as (_ & Hy & Hn). fold (run (concat batches)).
  assert (Hnd : NoDup (animateNumberCalls (run (concat batches)))).
  { apply (statCallback_inv (mkStatState cls []) (concat batches)).
    split; [constructor | intros x Hx; inversion Hx]. }
  split.
  - intros Hl. destruct (Hy Hl) as [Hin Han]. split; [|exact Han].
    apply list_elem_of_In in Hin.
    apply (count_occ_In Nat.eq_dec) in Hin.
    apply NoDup_ListNoDup in Hnd.
    pose proof (proj1 (NoDup_count_occ Nat.eq_dec _) Hnd t). lia.
  - intros Hl. destruct (Hn Hl) as [Hnin Hc]. split; [|exact Hc].
    apply count_occ_not_In. rewrite <- list_elem_of_In. exact Hnin.
Qed.

Lemma stat_animates_exactly_when_seen_witness :
  count_occ Nat.eq_dec
    (animateNumberCalls
       (foldl statCallback (mkStatState (λ _, {[ "stat" ]}) [])
          [[mkEntry 3 false]; [mkEntry 3 true; mkEntry 3 false]; [mkEntry 3 true]])) 3%nat
  = 1%nat.
Proof.
  destruct (stat_animates_exactly_when_seen (λ _, {[ "stat" ]}) 3%nat
              [[mkEntry 3 false]; [mkEntry 3 true; mkEntry 3 false]; [mkEntry 3 true]])
    as [H _].
  - apply elem_of_singleton. reflexivity.
  - rewrite elem_of_singleton. discriminate.
  - apply H. reflexivity.
Defined.

(** An image that has been seen: source promoted, nothing left to
    promote, marked loaded, no longer observed. *)
Lemma lazyEntry_effect (s : LazyState) (e : Entry) (t : nat) :
  let s' := lazyEntry s e in
  (Nat.eqb (target e) t && isIntersecting e = false →
     images s' t = images s t ∧ (t ∈ observed s' ↔ t ∈ observed s)) ∧
  (Nat.eqb (target e) t && isIntersecting e = true →
     src (images s' t) = promoted (images s t) ∧
     dataset_src (images s' t) = None ∧
     "loaded" ∈ imgClasses (images s' t) ∧
     t ∉ observed s').
Proof.
  intros s'. subst s'. unfold lazyEntry, promoted.
  destruct (Nat.eqb_spec (target e) t) as [Heq|Hne]; cbn [andb].
  - subst t. destruct (isIntersecting e).
    + split; [discriminate|]. intros _.
      destruct (dataset_src (images s (target e))) as [d|] eqn:Hd; cbn;
        rewrite fn_lookup_insert; cbn.
      * split; [reflexivity|]. split; [reflexivity|].
        split; [apply cl_add_elem; now left|].
        rewrite elem_of_difference, elem_of_singleton. tauto.
      * split; [reflexivity|]. split; [exact Hd|].
        split; [apply cl_add_elem; now left|].
        rewrite elem_of_difference, elem_of_singleton. tauto.
    + split; [|discriminate]. intros _. split; [reflexivity | tauto].
  - split; [|discriminate]. intros _. destruct (isIntersecting e).
    + destruct (dataset_src (images s (target e))); cbn;
        rewrite fn_lookup_insert_ne by exact Hne;
        (split; [reflexivity|]);
        rewrite elem_of_difference, elem_of_singleton; intuition congruence.
    + split; [reflexivity | tauto].
Qed.

(** X16.  Lazy loading, image by image: once some entry has reported the
    image as intersecting, its source is its former data-src (its old
    source if there was none or an empty one), nothing is left to
    promote, it carries the class loaded and is no longer observed,
    whatever entries follow; an image that no entry reported as
    intersecting is exactly as it was and observed as before. *)
Theorem lazy_image_loads_when_seen (s : LazyState) (t : nat) (entries : list Entry) :
  let final := lazyCallback s entries in
  (intersects t entries = true →
     src (images final t) = promoted (images s t) ∧
     dataset_src (images final t) = None ∧
     "loaded" ∈ imgClasses (images final t) ∧
     t ∉ observed final) ∧
  (intersects t entries = false →
     images final t = images s t ∧ (t ∈ observed final ↔ t ∈ observed s)).
Proof.
  intros final. subst final. unfold lazyCallback.
  induction entries as [|e l IH] using rev_ind.
  - cbn. split; [discriminate|]. intros _. split; [reflexivity | tauto].
  - rewrite foldl_snoc, intersects_snoc.
    destruct IH as [IHy IHn].
    destruct (lazyEntry_effect (foldl lazyEntry s l) e t) as [Hoff Hon].
    destruct (Nat.eqb (target e) t && isIntersecting e) eqn:Hhit.
    + rewrite orb_true_r. split; [|discriminate]. intros _.
      destruct (Hon eq_refl) as (Hsrc & Hds & Hld & Hobs).
      split; [|split; [exact Hds | split; [exact Hld | exact Hobs]]].
      rewrite Hsrc. destruct (intersects t l) eqn:Hl.
      * destruct (IHy eq_refl) as (Hs0 & Hd0 & _). unfold promoted at 1.
        rewrite Hd0. exact Hs0.
      * destruct (IHn eq_refl) as (Hi0 & _). rewrite Hi0. reflexivity.
    + rewrite orb_false_r. destruct (Hoff eq_refl) as [Himg Hobs]. split.
      * intros Hl. destruct (IHy Hl) as (H1 & H2 & H3 & H4).
        rewrite Himg. split; [exact H1|]. split; [exact H2|]. split; [exact H3|].
        rewrite Hobs. exact H4.
      * intros Hl. destruct (IHn Hl) as (H1 & H2).
        rewrite Himg, Hobs. split; [exact H1 | exact H2].
Qed.

Lemma lazyCallback_untouched (t : nat) (entries : list Entry) : ∀ s,
  Forall (λ e, target e ≠ t) entries →
  images (lazyCallback s entries) t = images s t.
Proof.
  unfold lazyCallback. induction entries as [|e l IH]; intros s Hall; cbn; [reflexivity|].
  apply Forall_cons in Hall as [He Hl]. rewrite (IH _ Hl).
  destruct (lazyEntry_effect s e t) as [Hoff _]. apply Hoff.
  destruct (Nat.eqb_spec (target e) t); [contradiction | reflexivity].
Qed.

Lemma lazyCallback_observed (entries : list Entry) : ∀ s,
  observed (lazyCallback s entries) ⊆ observed s.
Proof.
  unfold lazyCallback. induction entries as [|e l IH]; intros s; cbn; [reflexivity|].
  etransitivity; [apply IH|]. unfold lazyEntry.
  destruct (isIntersecting e); [|reflexivity].
  destruct (dataset_src (images s (target e))); cbn; apply subseteq_difference_l; reflexivity.
Qed.

(** X17.  With a browser that reports observed targets only, an image that
    is no longer observed is never touched again, whatever batches
    follow, and the set of observed images only shrinks. *)
Theorem unobserved_image_is_left_alone
    (s : LazyState) (t : nat) (batches : list (list Entry)) :
  t ∉ observed s →
  images (foldl lazyDeliver s batches) t = images s t ∧
  observed (foldl lazyDeliver s batches) ⊆ observed s.
Proof.
  revert s. induction batches as [|b bs IH]; intros s Hout; cbn [foldl].
  - split; reflexivity.
  - assert (Hsub : observed (lazyDeliver s b) ⊆ observed s)
      by apply lazyCallback_observed.
    destruct (IH (lazyDeliver s b)) as [Himg Hobs].
    { intros Hin. apply Hout, Hsub, Hin. }
    split; [|etransitivity; eassumption].
    rewrite Himg. unfold lazyDeliver. apply lazyCallback_untouched.
    apply Forall_forall. intros e He Heq. apply list_elem_of_filter in He as [He _].
    subst t. contradiction.
Qed.

Lemma unobserved_image_is_left_alone_witness :
  images (foldl lazyDeliver (mkLazyState (λ _, mkImg "a.jpg" (Some "b.jpg") ∅) ∅ [])
            [[mkEntry 0 true]]) 0%nat
  = mkImg "a.jpg" (Some "b.jpg") ∅.
Proof.
  destruct (unobserved_image_is_left_alone
              (mkLazyState (λ _, mkImg "a.jpg" (Some "b.jpg") ∅) ∅ []) 0%nat
              [[mkEntry 0 true]]) as [H _].
  - apply not_elem_of_empty.
  - exact H.
Defined.

(** X18.  Pausing decorative animations is no one-shot: after a batch, an
    element about which the batch holds an entry is running if the last
    such entry is intersecting and paused if not; an element the batch
    does not mention keeps its play state. *)
Theorem play_state_follows_last_entry
    (s : nat → string) (t : nat) (entries : list Entry) :
  playCallback s entries t
  = match last_entry_for t entries with
    | Some e => if isIntersecting e then "running" else "paused"
    | None => s t
    end.
Proof.
  unfold playCallback, last_entry_for.
  induction entries as [|e l IH] using rev_ind; [reflexivity|].
  rewrite foldl_snoc, filter_app. unfold playEntry at 1.
  destruct (decide (target e = t)) as [Heq|Hne].
  - rewrite (filter_cons_True _ e []) by exact Heq. rewrite filter_nil, last_snoc.
    destruct (isIntersecting e); rewrite <- Heq, fn_lookup_insert; reflexivity.
  - rewrite (filter_cons_False _ e []) by exact Hne. rewrite filter_nil, app_nil_r, <- IH.
    destruct (isIntersecting e); rewrite fn_lookup_insert_ne by exact Hne; reflexivity.
Qed.

Lemma footerCallback_result (letters : nat) (entries : list Entry) :
  footerCallback letters (mkFooterState false 0 []) entries
  = if existsb isIntersecting entries
    then mkFooterState true 1 (schedule letters)
    else mkFooterState false 0 [].
Proof.
  unfold footerCallback.
  induction entries as [|e l IH] using rev_ind; [reflexivity|].
  rewrite foldl_snoc, existsb_app, IH. cbn [existsb]. rewrite orb_false_r.
  destruct (existsb isIntersecting l); cbn [orb].
  - unfold footerEntry. cbn [isAnimated negb]. rewrite andb_false_r. reflexivity.
  - unfold footerEntry. cbn [isAnimated negb]. rewrite andb_true_r.
    destruct (isIntersecting e); reflexivity.
Qed.

(** X19.  The footer reveal runs exactly once if any entry of any batch is
    intersecting and not at all otherwise; when it runs it raises the flag
    and sets one timer for the top section and one per letter, and no
    later entry adds a timer. *)
Theorem footer_reveals_once_when_seen (letters : nat) (batches : list (list Entry)) :
  foldl (footerCallback letters) (mkFooterState false 0 []) batches
  = if existsb isIntersecting (concat batches)
    then mkFooterState true 1 (schedule letters)
    else mkFooterState false 0 [].
Proof.
  unfold footerCallback at 1. rewrite foldl_concat. apply footerCallback_result.
Qed.

Lemma schedule_eq (letters : nat) :
  schedule letters
  = (CONFIG.FOOTER_ANIMATION_DELAY, AnimateFooterTop)
    :: imap (λ index _, (500 + Z.of_nat index * 100, AnimateLetter index))
         (replicate letters tt).
Proof. reflexivity. Qed.

(** X20.  The timers of the reveal: the top section after 100ms, then
    letter [i] after [500 + 100 i] ms, one timer per letter in the order
    of the letters, so the delays grow strictly from one timer to the
    next. *)
Theorem footer_timers_are_staggered (letters : nat) :
  length (schedule letters) = S letters ∧
  schedule letters !! 0%nat = Some (100, AnimateFooterTop) ∧
  (∀ i, (i < letters)%nat →
        schedule letters !! S i = Some (500 + 100 * Z.of_nat i, AnimateLetter i)) ∧
  (∀ i j ti tj, (i < j)%nat →
        schedule letters !! i = Some ti → schedule letters !! j = Some tj →
        fst ti < fst tj).
Proof.
  rewrite schedule_eq.
  assert (Hlook : ∀ i t,
            imap (λ index (_ : unit), (500 + Z.of_nat index * 100, AnimateLetter index))
              (replicate letters tt) !! i = Some t →
            t = (500 + 100 * Z.of_nat i, AnimateLetter i) ∧ (i < letters)%nat).
  { intros i t Hi. rewrite list_lookup_imap in Hi.
    destruct (replicate letters tt !! i) eqn:E; [|discriminate].
    apply lookup_replicate in E as [_ Hlt]. cbn in Hi. injection Hi as <-.
    split; [do 2 f_equal; lia | exact Hlt]. }
  assert (Hfw : ∀ i, (i < letters)%nat →
            imap (λ index (_ : unit), (500 + Z.of_nat index * 100, AnimateLetter index))
              (replicate letters tt) !! i
            = Some (500 + 100 * Z.of_nat i, AnimateLetter i)).
  { intros i Hi. rewrite list_lookup_imap, lookup_replicate_2 by exact Hi. cbn.
    do 2 f_equal. lia. }
  split; [cbn [length]; now rewrite length_imap, length_replicate|].
  split; [reflexivity|]. split.
  - intros i Hi. exact (Hfw i Hi).
  - intros i j ti tj Hij Hi Hj.
    destruct j as [|j]; [lia|].
    apply (Hlook j tj) in Hj as [-> _].
    destruct i as [|i].
    + injection Hi as <-. cbn. unfold CONFIG.FOOTER_ANIMATION_DELAY. lia.
    + apply (Hlook i ti) in Hi as [-> _]. cbn. lia.
Qed.

End ObserverEventProperties.

Section PortfolioEventProperties.

Import Portfolio PortfolioEvents.

Lemma cl_contains_toggle_other (c d : string) (s : gset string) :
  c ≠ d → Js.cl_contains c (Js.cl_toggle d s) = Js.cl_contains c s.
Proof.
  intros Hne. unfold Js.cl_toggle. destruct (Js.cl_contains d s).
  - unfold Js.cl_contains. apply bool_decide_ext. rewrite cl_remove_elem. intuition.
  - unfold Js.cl_contains. apply bool_decide_ext. rewrite cl_add_elem. intuition.
Qed.

Lemma on_classes_lookup (f : gset string → gset string) (i j : nat) (items : list Item) :
  on_classes f i items !! j
  = (λ it, if decide (i = j) then mkItem (f (itemClasses it)) (touchStartTime it) else it)
      <$> items !! j.
Proof.
  unfold on_classes. destruct (decide (i = j)) as [->|Hne].
  - rewrite list_lookup_alter_eq. reflexivity.
  - rewrite list_lookup_alter_ne by exact Hne. destruct (items !! j); reflexivity.
Qed.

(** A listener that rewrites classes without touching class [c] leaves
    the test for [c] as it was, item by item. *)
Lemma on_classes_keeps (c : string) (f : gset string → gset string)
    (i j : nat) (items : list Item) :
  (∀ s, Js.cl_contains c (f s) = Js.cl_contains c s) →
  (λ it, Js.cl_contains c (itemClasses it)) <$> on_classes f i items !! j
  = (λ it, Js.cl_contains c (itemClasses it)) <$> items !! j.
Proof.
  intros Hf. rewrite on_classes_lookup. destruct (items !! j) as [it|]; [|reflexivity].
  cbn. destruct (decide (i = j)); cbn; [rewrite Hf|]; reflexivity.
Qed.

Lemma keyboard_keeps_touched (ev : Event) (items : list Item) (j : nat) :
  is_touch ev = false →
  touched <$> step items ev !! j = touched <$> items !! j.
Proof.
  destruct ev as [i now|i now|i key|i|i]; cbn [is_touch step]; try discriminate; intros _.
  - unfold keydown. destruct (String.eqb key "Enter" || String.eqb key " "); [|reflexivity].
    apply (on_classes_keeps "portfolio__item--touched").
    intros s. apply cl_contains_toggle_other. discriminate.
  - apply (on_classes_keeps "portfolio__item--touched").
    intros s. apply cl_contains_add_other. discriminate.
  - apply (on_classes_keeps "portfolio__item--touched").
    intros s. apply cl_contains_remove_other. discriminate.
Qed.

Lemma touch_keeps_focused (ev : Event) (items : list Item) (j : nat) :
  is_touch ev = true →
  focused <$> step items ev !! j = focused <$> items !! j.
Proof.
  destruct ev as [i now|i now|i key|i|i]; cbn [is_touch step]; try discriminate; intros _.
  - rewrite touchstart_lookup. destruct (items !! j) as [it|]; [|reflexivity].
    cbn. destruct (decide (i = j)); reflexivity.
  - unfold touchend. destruct (items !! i) as [it|] eqn:Hi; [|reflexivity].
    destruct (now - touchStartTime it <? 200); [|reflexivity].
    assert (Hlen : (i < length items)%nat) by (eapply lookup_lt_Some; exact Hi).
    rewrite list_lookup_imap. destruct (decide (j = i)) as [->|Hne].
    + rewrite list_lookup_insert_eq by exact Hlen. rewrite Hi. cbn.
      destruct (decide (i ≠ i)) as [Hc|_]; [contradiction|].
      unfold focused. cbn. f_equal. apply cl_contains_toggle_other. discriminate.
    + rewrite list_lookup_insert_ne by congruence.
      destruct (items !! j) as [o|]; [|reflexivity]. cbn.
      destruct (decide (j ≠ i)) as [_|Hc]; [|contradiction].
      unfold focused. cbn. f_equal. apply cl_contains_remove_other. discriminate.
Qed.

Lemma at_most_one_touched_ext (items items' : list Item) :
  (∀ j, touched <$> items' !! j = touched <$> items !! j) →
  at_most_one_touched items → at_most_one_touched items'.
Proof.
  intros Hext Hone j k oj ok Hj Hk Htj Htk.
  pose proof (Hext j) as Ej. pose proof (Hext k) as Ek.
  rewrite Hj in Ej. rewrite Hk in Ek.
  destruct (items !! j) as [pj|] eqn:Hpj; [|discriminate].
  destruct (items !! k) as [pk|] eqn:Hpk; [|discriminate].
  cbn in Ej, Ek. injection Ej as Ej. injection Ek as Ek.
  apply (Hone j k pj pk Hpj Hpk); congruence.
Qed.

Lemma step_at_most_one_touched (items : list Item) (ev : Event) :
  at_most_one_touched items → at_most_one_touched (step items ev).
Proof.
  intros Hone.
  destruct (is_touch ev) eqn:Htouch.
  - destruct ev as [i now|i now|i key|i|i]; try discriminate; cbn [step].
    + apply (at_most_one_touched_ext items); [|exact Hone].
      intros j. apply touchstart_touched.
    + destruct (items !! i) as [it|] eqn:Hi.
      * destruct (Z.lt_ge_cases (now - touchStartTime it) 200) as [Hfast|Hslow].
        -- destruct (touchend_fast items i now it Hi Hfast) as [_ Hothers].
           intros j k oj ok Hj Hk Htj Htk.
           destruct (decide (j = i)) as [->|Hji]; destruct (decide (k = i)) as [->|Hki];
             [reflexivity|..].
           ++ rewrite (Hothers k ok Hki Hk) in Htk. discriminate.
           ++ rewrite (Hothers j oj Hji Hj) in Htj. discriminate.
           ++ rewrite (Hothers j oj Hji Hj) in Htj. discriminate.
        -- rewrite (touchend_slow items i now it Hi Hslow). exact Hone.
      * unfold touchend. rewrite Hi. exact Hone.
  - apply (at_most_one_touched_ext items); [|exact Hone].
    intros j. apply keyboard_keeps_touched, Htouch.
Qed.

(** X21.  Whatever touches, key presses, focus and blur events reach the
    grid items, in any order and on any items: if at most one item is
    touched at the start, at most one item is touched afterwards. *)
Theorem at_most_one_item_stays_touched (items : list Item) (evs : list Event) :
  at_most_one_touched items → at_most_one_touched (run items evs).
Proof.
  unfold run. revert items.
  induction evs as [|ev evs IH]; intros items Hone; cbn [foldl]; [exact Hone|].
  apply IH, step_at_most_one_touched, Hone.
Qed.

Lemma at_most_one_item_stays_touched_witness :
  at_most_one_touched
    (run Examples.three_items
       [Touchstart 0 1000; Touchend 0 1100; Focus 2; Touchstart 2 5000;
        Keydown 2 "Enter"; Touchend 2 5100]).
Proof.
  apply (at_most_one_item_stays_touched Examples.three_items).
  intros j k oj ok Hj Hk Htj Htk.
  destruct j as [|[|[|j]]]; destruct k as [|[|[|k]]]; try reflexivity;
    cbn in Hj, Hk; try discriminate;
    injection Hj as <-; injection Hk as <-; vm_compute in Htj, Htk; discriminate.
Defined.

(** X22.  The two families of listeners do not interfere: touch events
    never change which items carry the focused class, and keyboard, focus
    and blur events never change which items carry the touched class. *)
Theorem touch_and_keyboard_states_are_independent
    (items : list Item) (evs : list Event) (j : nat) :
  (forallb is_touch evs = true →
     focused <$> run items evs !! j = focused <$> items !! j) ∧
  (forallb (λ ev, negb (is_touch ev)) evs = true →
     touched <$> run items evs !! j = touched <$> items !! j).
Proof.
  unfold run. revert items.
  induction evs as [|ev evs IH]; intros items; cbn [foldl forallb]; [split; reflexivity|].
  destruct (IH (step items ev)) as [IHt IHk]. split; intros Hall;
    apply andb_true_iff in Hall as [Hev Hrest].
  - rewrite (IHt Hrest). apply touch_keeps_focused, Hev.
  - rewrite (IHk Hrest). apply keyboard_keeps_touched.
    apply negb_true_iff, Hev.
Qed.

(** X23.  Keyboard use of an item: Enter or Space right after it received
    focus takes the focused class away again (focus adds it, the key
    toggles it), two such key presses in a row restore what was there,
    blur always leaves the item without the class, and other keys change
    nothing. *)
Theorem enter_after_focus_removes_highlight
    (items : list Item) (i : nat) (it : Item) (key : string) :
  items !! i = Some it →
  focused <$> keydown i "Enter" (focus i items) !! i = Some false ∧
  focused <$> keydown i " " (keydown i "Enter" items) !! i = Some (focused it) ∧
  focused <$> blur i items !! i = Some false ∧
  (String.eqb key "Enter" || String.eqb key " " = false → keydown i key items = items).
Proof.
  intros Hi. unfold keydown at 1 2 3, focus, blur. cbn [String.eqb Ascii.eqb Bool.eqb orb].
  rewrite !on_classes_lookup, Hi. cbn.
  destruct (decide (i = i)) as [_|Hc]; [|contradiction]. cbn.
  unfold focused. cbn.
  rewrite !cl_contains_toggle, cl_contains_add_same, cl_contains_remove, negb_involutive.
  repeat split. intros Hkey. unfold keydown. rewrite Hkey. reflexivity.
Qed.

Lemma enter_after_focus_removes_highlight_witness :
  focused <$> keydown 0 "Enter" (focus 0 Examples.three_items) !! 0%nat = Some false.
Proof.
  destruct (enter_after_focus_removes_highlight Examples.three_items 0
              (mkItem ∅ 0) "Tab" eq_refl) as [H _].
  exact H.
Defined.

End PortfolioEventProperties.

Section AccessibilityProperties.

Import AccessibilityEnhancer.

(** X24.  Under the reduced-motion preference each of the five duration
    properties reads 0ms afterwards and every other property of the root
    style reads as before; without the preference the style is not
    touched. *)
Theorem reduced_motion_zeroes_durations (style : gmap string string) (p : string) :
  (p ∈ duration_properties → handleReducedMotion true style !! p = Some "0ms") ∧
  (p ∉ duration_properties → handleReducedMotion true style !! p = style !! p) ∧
  handleReducedMotion false style = style.
Proof.
  unfold handleReducedMotion, duration_properties. split; [|split; [|reflexivity]].
  - intros Hin. repeat (apply elem_of_cons in Hin as [->|Hin]);
      [..|inversion Hin];
      repeat first [ rewrite lookup_insert_eq; reflexivity
                   | rewrite lookup_insert_ne by discriminate ].
  - intros Hout.
    repeat (rewrite lookup_insert_ne;
            [|intros <-; apply Hout; repeat first [apply list_elem_of_here
                                                  | apply list_elem_of_further]]).
    reflexivity.
Qed.

Lemma docRun_known_mode (evs : list DocEvent) : ∀ (body : gset string) (m : bool),
  Js.cl_contains "keyboard-navigation" body = m →
  ∃ m', last_mode evs (Some m) = Some m' ∧
        Js.cl_contains "keyboard-navigation" (docRun body evs) = m'.
Proof.
  unfold docRun. induction evs as [|ev evs IH]; intros body m Hm; cbn [last_mode foldl].
  - exists m. split; [reflexivity | exact Hm].
  - destruct ev as [key|]; cbn [mode_of docStep].
    + destruct (String.eqb key "Tab").
      * apply IH, cl_contains_add_same.
      * apply IH, Hm.
    + apply IH, cl_contains_remove.
Qed.

Lemma docRun_last_mode (evs : list DocEvent) : ∀ body : gset string,
  match last_mode evs None with
  | Some m => Js.cl_contains "keyboard-navigation" (docRun body evs) = m
  | None => docRun body evs = body
  end.
Proof.
  induction evs as [|ev evs IH]; intros body; cbn [last_mode]; [reflexivity|].
  destruct ev as [key|]; cbn [mode_of].
  - destruct (String.eqb key "Tab") eqn:Hkey.
    + destruct (docRun_known_mode evs (Js.cl_add "keyboard-navigation" body) true)
        as (m' & -> & Hm'); [apply cl_contains_add_same|].
      unfold docRun in *. cbn [foldl docStep]. rewrite Hkey. exact Hm'.
    + specialize (IH body). unfold docRun in *. cbn [foldl docStep]. rewrite Hkey. exact IH.
  - destruct (docRun_known_mode evs (Js.cl_remove "keyboard-navigation" body) false)
      as (m' & -> & Hm'); [apply cl_contains_remove|].
    unfold docRun in *. cbn [foldl docStep]. exact Hm'.
Qed.

Lemma docRun_other_classes (evs : list DocEvent) (c : string) : ∀ body : gset string,
  c ≠ "keyboard-navigation" →
  Js.cl_contains c (docRun body evs) = Js.cl_contains c body.
Proof.
  unfold docRun. induction evs as [|ev evs IH]; intros body Hc; cbn [foldl]; [reflexivity|].
  rewrite IH by exact Hc. destruct ev as [key|]; cbn [docStep].
  - destruct (String.eqb key "Tab"); [apply cl_contains_add_other, Hc | reflexivity].
  - apply cl_contains_remove_other, Hc.
Qed.

(** X25.  The keyboard-navigation mark on the body follows the last
    telling event: present if the last Tab press or mouse press was a Tab
    press, absent if it was a mouse press, and the body's classes are
    unchanged if neither happened; no other class of the body is ever
    added or removed. *)
Theorem keyboard_mode_follows_last_input
    (body : gset string) (evs : list DocEvent) (c : string) :
  match last_mode evs None with
  | Some m => Js.cl_contains "keyboard-navigation" (docRun body evs) = m
  | None => docRun body evs = body
  end ∧
  (c ≠ "keyboard-navigation" →
     Js.cl_contains c (docRun body evs) = Js.cl_contains c body).
Proof.
  split.
  - apply docRun_last_mode.
  - apply docRun_other_classes.
Qed.

End AccessibilityProperties.

Section DragInvariantProperties.

Import MiniPolaroids DragInvariants.

Ltac drag_unfold :=
  cbv beta iota zeta delta
    [dragMove dragStart dragEnd mbind mret M_bind M_ret getVar putVar getElement
     setElement preventDefault throw globals elements defaultPrevented fst snd
     runListener].

Ltac drag_cases g :=
  repeat (first [ rewrite lookup_insert_eq
                | rewrite lookup_insert_ne by discriminate
                | match goal with H : g !! _ = _ |- _ => rewrite H end
                | match goal with |- context [g !! ?x] => destruct (g !! x) eqn:? end ];
          cbv beta iota).

Lemma first_rotation_none (cl : gset string) (table : list (string * string)) :
  (∀ c r, (c, r) ∈ table → c ∉ cl) → first_rotation cl table = "".
Proof.
  induction table as [|[c r] rest IH]; intros Hnone; cbn; [reflexivity|].
  assert (Hc : Js.cl_contains c cl = false).
  { apply cl_contains_false, (Hnone c r). apply list_elem_of_here. }
  rewrite Hc. apply IH. intros c' r' Hin. apply (Hnone c' r').
  apply list_elem_of_further, Hin.
Qed.

Lemma first_rotation_first (cl : gset string) (pre post : list (string * string))
    (c r : string) :
  c ∈ cl →
  (∀ c' r', (c', r') ∈ pre → c' ∉ cl) →
  first_rotation cl (pre ++ (c, r) :: post) = r.
Proof.
  intros Hc. induction pre as [|[c0 r0] pre IH]; intros Hpre; cbn.
  - apply cl_contains_true in Hc. rewrite Hc. reflexivity.
  - assert (H0 : Js.cl_contains c0 cl = false).
    { apply cl_contains_false, (Hpre c0 r0). apply list_elem_of_here. }
    rewrite H0. apply IH. intros c' r' Hin. apply (Hpre c' r').
    apply list_elem_of_further, Hin.
Qed.

(** X26.  The rotation of a decoration is looked up by class, the first
    match in the order of the table winning: an element that carries the
    class of an entry and none of the classes before it gets that entry's
    angle, and an element that carries none of the sixteen classes gets
    the empty string. *)
Theorem rotation_is_first_matching_class
    (el : Element) (pre post : list (string * string)) (c r : string) :
  rotations = pre ++ (c, r) :: post →
  (c ∈ classList el →
   (∀ c' r', (c', r') ∈ pre → c' ∉ classList el) →
   getOriginalRotation el = r) ∧
  ((∀ c' r', (c', r') ∈ rotations → c' ∉ classList el) →
   getOriginalRotation el = "").
Proof.
  intros Htable. unfold getOriginalRotation. split.
  - intros Hc Hpre. rewrite Htable. apply first_rotation_first; assumption.
  - apply first_rotation_none.
Qed.

Lemma rotation_is_first_matching_class_witness :
  getOriginalRotation
    (mkElement {[ "mini-polaroid"; "mini-polaroid--10"; "mini-polaroid--12" ]} false "" None)
  = "rotate(18deg)".
Proof.
  destruct (rotation_is_first_matching_class
              (mkElement {[ "mini-polaroid"; "mini-polaroid--10"; "mini-polaroid--12" ]}
                 false "" None)
              (firstn 9 rotations) (skipn 10 rotations)
              "mini-polaroid--10" "rotate(18deg)" eq_refl) as [H _].
  apply H.
  - cbn. rewrite !elem_of_union, !elem_of_singleton. tauto.
  - intros c' r' Hin. cbn. rewrite !elem_of_union, !elem_of_singleton.
    cbn in Hin. repeat (apply elem_of_cons in Hin as [[= -> ->]|Hin]);
      [..|inversion Hin]; intros [[?|?]|?]; discriminate.
Defined.

(** Closes a goal [safe ..] on a heap whose elements are those of the
    start, possibly with element [k] rewritten in its flag and cursor. *)
Ltac safe_same Hs k :=
  let j := fresh "j" in
  intros j; specialize (Hs j); cbn [elements] in Hs |- *;
  destruct (decide (j = k)) as [->|?];
  repeat first [ rewrite fn_lookup_insert
               | rewrite fn_lookup_insert_ne by congruence ];
  cbn [classList transform]; exact Hs.

Lemma dragStart_safe ly cls T e hit k h :
  safe ly cls T h → safe ly cls T (runListener (dragStart e hit k) h).
Proof.
  intros Hs. destruct h as [g els dp]. drag_unfold. drag_cases g;
    try exact Hs.
  destruct hit; cbv beta iota; [safe_same Hs k | exact Hs].
Qed.

Lemma dragEnd_safe ly cls T k h :
  safe ly cls T h → safe ly cls T (runListener (dragEnd k) h).
Proof.
  intros Hs. destruct h as [g els dp]. drag_unfold. drag_cases g;
    try exact Hs.
  safe_same Hs k.
Qed.

Lemma dragMove_safe ly cls T e k h :
  safe ly cls T h → safe ly cls T (runListener (dragMove ly e k) h).
Proof.
  intros Hs. destruct h as [g els dp]. drag_unfold.
  destruct (isDragging (els k)) eqn:Hd; cbv beta iota; [|exact Hs].
  destruct (aboutSection ly) as [about|] eqn:Habout; cbv beta iota.
  - drag_cases g; try exact Hs.
    intros j. specialize (Hs j). cbn [elements] in Hs |- *.
    destruct (decide (j = k)) as [->|Hne].
    + rewrite fn_lookup_insert. cbn [classList transform].
      destruct Hs as [Hcl _]. split; [exact Hcl|]. right.
      unfold getOriginalRotation. rewrite Hcl.
      exists about. eexists _, _. split; [exact Habout|]. split; [reflexivity|].
      unfold maxX, maxY. lia.
    + rewrite fn_lookup_insert_ne by congruence. exact Hs.
  - drag_cases g; exact Hs.
Qed.

Lemma dispatch_safe ly cls T polaroids i h :
  safe ly cls T h → safe ly cls T (dispatch ly polaroids i h).
Proof.
  intros Hs. destruct i as [k e|e| |k e|e| ]; cbn [dispatch].
  - destruct (bool_decide (k ∈ polaroids)); [apply dragStart_safe|]; exact Hs.
  - revert h Hs. induction polaroids as [|k ks IH]; intros h Hs; cbn [foldl]; [exact Hs|].
    apply IH, dragMove_safe, Hs.
  - revert h Hs. induction polaroids as [|k ks IH]; intros h Hs; cbn [foldl]; [exact Hs|].
    apply IH, dragEnd_safe, Hs.
  - destruct (bool_decide (k ∈ polaroids)); [apply dragStart_safe|]; exact Hs.
  - revert h Hs. induction polaroids as [|k ks IH]; intros h Hs; cbn [foldl]; [exact Hs|].
    apply IH, dragMove_safe, Hs.
  - revert h Hs. induction polaroids as [|k ks IH]; intros h Hs; cbn [foldl]; [exact Hs|].
    apply IH, dragEnd_safe, Hs.
Qed.

Lemma interact_safe ly cls T polaroids l : ∀ h,
  safe ly cls T h → safe ly cls T (interact ly polaroids l h).
Proof.
  unfold interact. induction l as [|i l IH]; intros h Hs; cbn [foldl]; [exact Hs|].
  apply IH, dispatch_safe, Hs.
Qed.

(** X27.  In every global scope and for every sequence of mouse and touch
    events on any number of decorations: no element's class list ever
    changes, and an element's transform is either the one it started with
    or a translation inside [0 .. max(0, containerWidth - elementWidth)]
    by [0 .. max(0, containerHeight - elementHeight)] combined with the
    rotation its classes give it. *)
Theorem drag_never_leaves_container_nor_loses_rotation
    (ly : Layout) (polaroids : list nat) (l : list Interaction) (h : Heap) (k : nat) :
  let h' := interact ly polaroids l h in
  classList (elements h' k) = classList (elements h k) ∧
  (transform (elements h' k) = transform (elements h k) ∨
   clamped ly k (classList (elements h k)) (transform (elements h' k))).
Proof.
  intros h'. subst h'.
  apply (interact_safe ly (λ j, classList (elements h j))
           (λ j, transform (elements h j)) polaroids l h).
  intros j. split; [reflexivity | now left].
Qed.

Ltac drag_run g :=
  drag_unfold;
  repeat (first [ rewrite fn_lookup_insert
                | rewrite lookup_insert_eq
                | rewrite lookup_insert_ne by discriminate
                | match goal with H : g !! _ = Some _ |- _ => rewrite H end
                | match goal with H : aboutSection _ = Some _ |- _ => rewrite H end
                | match goal with H : isDragging _ = _ |- _ => rewrite H end ];
          cbv beta iota; cbn [isDragging classList cursor transform]).

Lemma dragStart_post (e : PointerEvent) (k : nat) (h : Heap) (xo yo : Z) :
  globals h !! "xOffset" = Some xo →
  globals h !! "yOffset" = Some yo →
  is_Some (globals h !! "initialX") →
  is_Some (globals h !! "initialY") →
  let h' := runListener (dragStart e true k) h in
  globals h' = <["initialY" := pointerY e - yo]>
                 (<["initialX" := pointerX e - xo]> (globals h)) ∧
  elements h' k = mkElement (classList (elements h k)) true "grabbing"
                    (transform (elements h k)).
Proof.
  intros Hxo Hyo [ix Hix] [iy Hiy] h'. subst h'.
  destruct h as [g els dp]. cbn [globals elements] in *.
  drag_run g. split; reflexivity.
Qed.

Lemma dragMove_post (ly : Layout) (e : PointerEvent) (k : nat) (h : Heap)
    (about : Rect) (ix iy : Z) :
  isDragging (elements h k) = true →
  aboutSection ly = Some about →
  globals h !! "initialX" = Some ix →
  globals h !! "initialY" = Some iy →
  Forall (λ x, is_Some (globals h !! x)) ["currentX"; "currentY"; "xOffset"; "yOffset"] →
  let h' := runListener (dragMove ly e k) h in
  let x := Z.max 0 (Z.min (pointerX e - ix) (width about - width (elementRect ly k))) in
  let y := Z.max 0 (Z.min (pointerY e - iy) (height about - height (elementRect ly k))) in
  elements h' k = mkElement (classList (elements h k)) true (cursor (elements h k))
                    (Some (mkTransform x y (getOriginalRotation (elements h k)))) ∧
  globals h' !! "xOffset" = Some x ∧
  globals h' !! "yOffset" = Some y ∧
  globals h' !! "currentX" = Some x ∧
  globals h' !! "currentY" = Some y ∧
  globals h' !! "initialX" = Some ix ∧
  globals h' !! "initialY" = Some iy.
Proof.
  intros Hd Habout Hix Hiy Hall h' x y. subst h' x y.
  repeat match goal with
         | H : Forall _ (_ :: _) |- _ => apply Forall_cons in H as [[? ?] H]
         end.
  destruct h as [g els dp]. cbn [globals elements] in *.
  destruct (els k) as [cl d cu tr] eqn:Hel. cbn [isDragging] in Hd. subst d.
  drag_run g. rewrite Hel. cbn [isDragging classList cursor transform].
  drag_run g. rewrite Hel.
  repeat split.
Qed.

Lemma dragEnd_post (k : nat) (h : Heap) :
  Forall (λ x, is_Some (globals h !! x)) ["currentX"; "currentY"; "initialX"; "initialY"] →
  let h' := runListener (dragEnd k) h in
  elements h' k = mkElement (classList (elements h k)) false "pointer"
                    (transform (elements h k)).
Proof.
  intros Hall h'. subst h'.
  repeat match goal with
         | H : Forall _ (_ :: _) |- _ => apply Forall_cons in H as [[? ?] H]
         end.
  destruct h as [g els dp]. cbn [globals elements] in *.
  drag_run g. reflexivity.
Qed.

Lemma dragMove_idle (ly : Layout) (e : PointerEvent) (k : nat) (h : Heap) :
  isDragging (elements h k) = false → runListener (dragMove ly e k) h = h.
Proof.
  intros Hd. unfold runListener, dragMove.
  rewrite (bind_normal _ _ h (elements h k) h) by reflexivity. rewrite Hd. reflexivity.
Qed.

(** X28.  A drag in a scope where the six identifiers resolve: pointer-down
    flags the element; the next pointer-move translates it by the stored
    offset plus the distance the pointer has moved since the press,
    clamped to the container, and stores the result as the new offset;
    pointer-up clears the flag, sets the cursor back and keeps the
    transform, and a move after that changes nothing. *)
Theorem drag_session_follows_pointer
    (ly : Layout) (e1 e2 e3 : PointerEvent) (k : nat) (h : Heap) (about : Rect)
    (xo yo : Z) :
  aboutSection ly = Some about →
  globals h !! "xOffset" = Some xo →
  globals h !! "yOffset" = Some yo →
  Forall (λ x, is_Some (globals h !! x)) ["initialX"; "initialY"; "currentX"; "currentY"] →
  let h1 := runListener (dragStart e1 true k) h in
  let h2 := runListener (dragMove ly e2 k) h1 in
  let h3 := runListener (dragEnd k) h2 in
  let x := Js.clamp0 (xo + (pointerX e2 - pointerX e1)) (maxX about ly k) in
  let y := Js.clamp0 (yo + (pointerY e2 - pointerY e1)) (maxY about ly k) in
  isDragging (elements h1 k) = true ∧
  transform (elements h2 k)
    = Some (mkTransform x y (getOriginalRotation (elements h k))) ∧
  globals h2 !! "xOffset" = Some x ∧
  globals h2 !! "yOffset" = Some y ∧
  isDragging (elements h3 k) = false ∧
  cursor (elements h3 k) = "pointer" ∧
  transform (elements h3 k) = transform (elements h2 k) ∧
  runListener (dragMove ly e3 k) h3 = h3.
Proof.
  intros Habout Hxo Hyo Hall h1 h2 h3 x y.
  repeat match goal with
         | H : Forall _ (_ :: _) |- _ => apply Forall_cons in H as [? H]
         end.
  destruct (dragStart_post e1 k h xo yo) as [Hg1 He1]; try assumption.
  fold h1 in Hg1, He1.
  assert (Hlook1 : ∀ n, n ≠ "initialX" → n ≠ "initialY" →
            globals h1 !! n = globals h !! n).
  { intros n Hn1 Hn2. rewrite Hg1, !lookup_insert_ne by congruence. reflexivity. }
  destruct (dragMove_post ly e2 k h1 about (pointerX e1 - xo) (pointerY e1 - yo))
    as (He2 & Hx2 & Hy2 & Hcx2 & Hcy2 & Hix2 & Hiy2).
  { rewrite He1. reflexivity. }
  { exact Habout. }
  { rewrite Hg1, lookup_insert_ne, lookup_insert_eq by discriminate. reflexivity. }
  { rewrite Hg1, lookup_insert_eq. reflexivity. }
  { repeat constructor; rewrite Hlook1 by discriminate;
      first [assumption | eexists; eassumption]. }
  fold h2 in He2, Hx2, Hy2, Hcx2, Hcy2, Hix2, Hiy2.
  pose proof (dragEnd_post k h2) as He3. fold h3 in He3. cbv zeta in He3.
  rewrite He3 by (repeat constructor; eexists; eassumption).
  rewrite He2, He1. cbn [isDragging classList cursor transform].
  assert (Hx : x = Z.max 0 (Z.min (pointerX e2 - (pointerX e1 - xo))
                              (width about - width (elementRect ly k)))).
  { subst x. unfold Js.clamp0, maxX. f_equal. f_equal. lia. }
  assert (Hy : y = Z.max 0 (Z.min (pointerY e2 - (pointerY e1 - yo))
                              (height about - height (elementRect ly k)))).
  { subst y. unfold Js.clamp0, maxY. f_equal. f_equal. lia. }
  rewrite Hx2, Hy2, Hx, Hy.
  repeat split.
  apply dragMove_idle. rewrite He3 by (repeat constructor; eexists; eassumption).
  reflexivity.
Qed.

Lemma drag_session_follows_pointer_witness :
  css <$> transform
    (elements
       (runListener (dragMove Examples.wide_layout (MouseEvent 130 90) 0)
          (runListener (dragStart (MouseEvent 100 100) true 0)
             (Examples.heap_resolving false))) 0%nat)
  = Some "translate(30px, 0px) rotate(8deg)".
Proof.
  destruct (drag_session_follows_pointer Examples.wide_layout
              (MouseEvent 100 100) (MouseEvent 130 90) (MouseEvent 0 0) 0
              (Examples.heap_resolving false) (mkRect 800 600) 0 0)
    as (_ & H & _).
  - reflexivity.
  - reflexivity.
  - reflexivity.
  - repeat constructor; vm_compute; eexists; reflexivity.
  - rewrite H. vm_compute. reflexivity.
Defined.

End DragInvariantProperties.

Section NavImageProperties.

Import NavImages.

Lemma find_category_cleared (c : string) (imgs : list NavImage) :
  find_category c (map (λ img, mkNavImage (category img) false) imgs)
  = find_category c imgs.
Proof.
  induction imgs as [|img rest IH]; cbn; [reflexivity|]. now rewrite IH.
Qed.

Lemma cleared_lookup (imgs : list NavImage) (j : nat) (img : NavImage) :
  map (λ img, mkNavImage (category img) false) imgs !! j = Some img →
  active img = false.
Proof.
  revert j. induction imgs as [|x rest IH]; intros j; [discriminate|].
  destruct j as [|j]; cbn.
  - intros [= <-]. reflexivity.
  - apply IH.
Qed.

Lemma activate_lookup (imgs : list NavImage) (i j : nat) (img : NavImage) :
  alter (λ img, mkNavImage (category img) true) i imgs !! j = Some img →
  (i = j ∧ active img = true) ∨
  (i ≠ j ∧ imgs !! j = Some img).
Proof.
  destruct (decide (i = j)) as [->|Hne].
  - rewrite list_lookup_alter_eq. destruct (imgs !! j); [|discriminate].
    intros [= <-]. left. split; reflexivity.
  - rewrite list_lookup_alter_ne by exact Hne. intros H. right. split; assumption.
Qed.

Lemma append_length (s t : string) :
  String.length (s +:+ t) = (String.length s + String.length t)%nat.
Proof.
  induction s as [|c r IH]; [reflexivity|].
  change (S (String.length (r +:+ t)) = S (String.length r + String.length t)).
  now rewrite IH.
Qed.

Lemma append_inv_tail (s s' t : string) : s +:+ t = s' +:+ t → s = s'.
Proof.
  intros E. assert (Hl : String.length s = String.length s').
  { apply (f_equal String.length) in E. rewrite !append_length in E. lia. }
  revert s' E Hl. induction s as [|c r IH]; intros [|c' r'] E Hl;
    try discriminate; [reflexivity|].
  change (String c (r +:+ t) = String c' (r' +:+ t)) in E.
  injection E as -> E. f_equal. apply IH; [exact E|].
  cbn in Hl. lia.
Qed.

Lemma selector_inj (c c' : option string) :
  selector c = selector c' → interpolate c = interpolate c'.
Proof.
  unfold selector. intros E.
  apply (String.app_inj "[data-category=") in E.
  apply (String.app_inj double_quote) in E.
  apply (append_inv_tail _ _ _ E).
Qed.

(** The sample document reads the selectors of all categories as
    attribute selectors. *)
Lemma sample_document_reads : reads_attribute_selectors (H := sample_document).
Proof.
  intros c imgs _. unfold querySelector, sample_document.
  assert (E : by_own_selector (selector c) imgs = find_category (interpolate c) imgs);
    [|now rewrite E].
  induction imgs as [|img rest IH]; [reflexivity|].
  cbn [by_own_selector find_category]. rewrite IH.
  destruct (category img) as [c'|]; [|reflexivity].
  destruct (String.eqb_spec c' (interpolate c)) as [->|Hne].
  - assert (Es : selector (Some (interpolate c)) = selector c) by (destruct c; reflexivity).
    rewrite Es, String.eqb_refl. reflexivity.
  - destruct (String.eqb_spec (selector (Some c')) (selector c)) as [Es|_]; [|reflexivity].
    apply selector_inj in Es. contradiction.
Qed.

Context {D : Document}.
Hypothesis reads : reads_attribute_selectors.

Lemma mouseenter_plain (c : option string) (s : State) :
  plain (interpolate c) = true →
  mouseenter c s
  = let imgs := map (λ img, mkNavImage (category img) false) (images s) in
    match find_category (interpolate c) (images s) with
    | Some i => mkState imgs (pending s ++ [Some i])
    | None => mkState imgs (pending s)
    end.
Proof.
  intros Hp. unfold mouseenter, switchImage.
  rewrite (reads c _ Hp), find_category_cleared.
  destruct (find_category (interpolate c) (images s)); reflexivity.
Qed.

(** X29.  Hovering an item whose category holds no quote, backslash or
    line break, and letting the timer run, leaves exactly one preview
    image active, the first one of that category, and none if no image
    has the category.  The timers are not cancelled: two hovers before
    the first timer has run leave the first images of both categories
    active once both timers have run. *)
Theorem hover_activates_first_image_of_category
    (imgs : list NavImage) (c1 c2 : option string) (j : nat) (img : NavImage) :
  plain (interpolate c1) = true →
  plain (interpolate c2) = true →
  (images (timeout (mouseenter c1 (mkState imgs []))) !! j = Some img →
     (active img = true ↔ find_category (interpolate c1) imgs = Some j)) ∧
  (images (timeout (timeout (mouseenter c2 (mouseenter c1 (mkState imgs [])))))
     !! j = Some img →
     (active img = true ↔ find_category (interpolate c1) imgs = Some j
                          ∨ find_category (interpolate c2) imgs = Some j)).
Proof.
  intros Hp1 Hp2.
  set (cleared := map (λ img, mkNavImage (category img) false) imgs).
  assert (Hcc : map (λ img, mkNavImage (category img) false) cleared = cleared).
  { subst cleared. rewrite map_map. reflexivity. }
  assert (Hfc : ∀ c, find_category c cleared = find_category c imgs)
    by (intros c; apply find_category_cleared).
  split.
  - rewrite (mouseenter_plain c1 _ Hp1). cbn [images pending]. fold cleared.
    destruct (find_category (interpolate c1) imgs) as [i|] eqn:Hf; cbn [app].
    + unfold timeout. cbn [pending images]. intros Hj.
      apply activate_lookup in Hj as [[-> Ha]|[Hne Hj]].
      * rewrite Ha. split; reflexivity.
      * rewrite (cleared_lookup _ _ _ Hj). split; [discriminate | intros [= ?]; contradiction].
    + unfold timeout. cbn [pending images]. intros Hj.
      rewrite (cleared_lookup _ _ _ Hj). split; discriminate.
  - rewrite (mouseenter_plain c1 _ Hp1). cbn [images pending]. fold cleared.
    destruct (find_category (interpolate c1) imgs) as [i1|] eqn:Hf1; cbn [app];
      rewrite (mouseenter_plain c2 _ Hp2); cbn [images pending]; rewrite Hcc, Hfc;
      destruct (find_category (interpolate c2) imgs) as [i2|] eqn:Hf2; cbn [app];
      unfold timeout; cbn [pending images]; intros Hj.
    + apply activate_lookup in Hj as [[-> Ha]|[Hne2 Hj]].
      * rewrite Ha. split; [intros _; now right | reflexivity].
      * apply activate_lookup in Hj as [[-> Ha]|[Hne1 Hj]].
        -- rewrite Ha. split; [intros _; now left | reflexivity].
        -- rewrite (cleared_lookup _ _ _ Hj).
           split; [discriminate | intros [[= ?]|[= ?]]; contradiction].
    + apply activate_lookup in Hj as [[-> Ha]|[Hne1 Hj]].
      * rewrite Ha. split; [intros _; now left | reflexivity].
      * rewrite (cleared_lookup _ _ _ Hj).
        split; [discriminate | intros [[= ?]|[= ]]; contradiction].
    + apply activate_lookup in Hj as [[-> Ha]|[Hne2 Hj]].
      * rewrite Ha. split; [intros _; now right | reflexivity].
      * rewrite (cleared_lookup _ _ _ Hj).
        split; [discriminate | intros [[= ]|[= ?]]; contradiction].
    + rewrite (cleared_lookup _ _ _ Hj). split; [discriminate | intros [[= ]|[= ]]].
Qed.

End NavImageProperties.

Section NavImageWitnesses.

Import NavImages.

Lemma hover_activates_first_image_of_category_witness :
  active (mkNavImage (Some "bodas") true) = true
  ↔ find_category "bodas"
      [mkNavImage (Some "retratos") true; mkNavImage (Some "bodas") false;
       mkNavImage (Some "bodas") false] = Some 1%nat.
Proof.
  destruct (hover_activates_first_image_of_category (D := sample_document)
              sample_document_reads
              [mkNavImage (Some "retratos") true; mkNavImage (Some "bodas") false;
               mkNavImage (Some "bodas") false]
              (Some "bodas") (Some "retratos") 1%nat (mkNavImage (Some "bodas") true))
    as [H _]; [reflexivity | reflexivity |].
  apply H. reflexivity.
Defined.

End NavImageWitnesses.

Section DebounceProperties.

Import Debounce.

Lemma debounce_burst {A : Type} (wait : Z) (calls : list (Z * A)) :
  ∀ (now : Z) (args : A) done,
  quick wait now calls →
  ∃ last_now last_args,
    last ((now, args) :: calls) = Some (last_now, last_args) ∧
    foldl (executedFunction wait) (mkState (Some (now + wait, args)) done) calls
    = mkState (Some (last_now + wait, last_args)) done.
Proof.
  induction calls as [|[t a] rest IH]; intros now args done Hq.
  - exists now, args. split; reflexivity.
  - destruct Hq as [Hgap Hq]. cbn [foldl].
    assert (Hstep : executedFunction wait (mkState (Some (now + wait, args)) done) (t, a)
                    = mkState (Some (t + wait, a)) done).
    { unfold executedFunction, advance. cbn [timer invoked].
      destruct (Z.leb_spec (now + wait) t); [lia | reflexivity]. }
    rewrite Hstep. destruct (IH t a done Hq) as (ln & la & Hl & Hf).
    exists ln, la. split; [|exact Hf].
    rewrite <- Hl. reflexivity.
Qed.

(** X30.  A burst of calls to a debounced function, each less than the
    delay after the one before: [func] is not called while the burst
    lasts, and once the delay has gone by after the last call it has been
    called exactly once, with the arguments of the last call, by the timer
    that call set. *)
Theorem debounce_calls_once_after_burst
    {A : Type} (wait now : Z) (args : A) (calls : list (Z * A)) (later : Z) :
  0 < wait →
  quick wait now calls →
  ∃ last_now last_args,
    last ((now, args) :: calls) = Some (last_now, last_args) ∧
    invoked (run wait ((now, args) :: calls)) = [] ∧
    (last_now + wait ≤ later →
       invoked (advance later (run wait ((now, args) :: calls)))
       = [(last_now + wait, last_args)]) ∧
    (later < last_now + wait →
       invoked (advance later (run wait ((now, args) :: calls))) = []).
Proof.
  intros Hwait Hq.
  destruct (debounce_burst wait calls now args [] Hq) as (ln & la & Hl & Hf).
  exists ln, la. split; [exact Hl|].
  assert (Hrun : run wait ((now, args) :: calls) = mkState (Some (ln + wait, la)) []).
  { unfold run. cbn [foldl]. exact Hf. }
  rewrite Hrun. unfold advance. cbn [timer invoked].
  split; [reflexivity|]. split; intros Hlater.
  - destruct (Z.leb_spec (ln + wait) later); [reflexivity | lia].
  - destruct (Z.leb_spec (ln + wait) later); [lia | reflexivity].
Qed.

Lemma debounce_calls_once_after_burst_witness :
  invoked (advance 500 (run 100 [(0, "a"); (40, "b"); (90, "c")])) = [(190, "c")].
Proof.
  destruct (debounce_calls_once_after_burst 100 0 "a" [(40, "b"); (90, "c")] 500)
    as (ln & la & Hl & _ & Hi & _).
  - lia.
  - cbn. lia.
  - injection Hl as <- <-. apply Hi. lia.
Defined.

End DebounceProperties.

Section FurtherWitnesses.

Lemma lazy_image_loads_when_seen_witness :
  Observers.src
    (Observers.images
       (Observers.lazyCallback
          (Observers.mkLazyState (λ _, Observers.mkImg "a.jpg" (Some "b.jpg") ∅) {[ 0%nat ]} [])
          [Observers.mkEntry 0 false; Observers.mkEntry 0 true; Observers.mkEntry 0 true])
       0%nat)
  = "b.jpg".
Proof.
  destruct (lazy_image_loads_when_seen
              (Observers.mkLazyState (λ _, Observers.mkImg "a.jpg" (Some "b.jpg") ∅)
                 {[ 0%nat ]} [])
              0%nat
              [Observers.mkEntry 0 false; Observers.mkEntry 0 true; Observers.mkEntry 0 true])
    as [H _].
  destruct (H eq_refl) as [Hsrc _]. exact Hsrc.
Defined.

Lemma footer_timers_are_staggered_witness :
  ObserverEvents.schedule 3 !! 3%nat = Some (700, Observers.AnimateLetter 2).
Proof.
  destruct (footer_timers_are_staggered 3) as (_ & _ & H & _).
  apply (H 2%nat). lia.
Defined.

Lemma touch_and_keyboard_states_are_independent_witness :
  PortfolioEvents.focused
    <$> PortfolioEvents.run Examples.three_items
          [PortfolioEvents.Touchstart 1 1000; PortfolioEvents.Touchend 1 1100] !! 1%nat
  = Some false.
Proof.
  destruct (touch_and_keyboard_states_are_independent Examples.three_items
              [PortfolioEvents.Touchstart 1 1000; PortfolioEvents.Touchend 1 1100] 1%nat)
    as [H _].
  rewrite (H eq_refl). reflexivity.
Defined.

Lemma reduced_motion_zeroes_durations_witness :
  AccessibilityEnhancer.handleReducedMotion true
    {[ "--animation-duration-slow" := "900ms" ]} !! "--animation-duration-slow"
  = Some "0ms".
Proof.
  destruct (reduced_motion_zeroes_durations
              {[ "--animation-duration-slow" := "900ms" ]} "--animation-duration-slow")
    as [H _].
  apply H. unfold AccessibilityEnhancer.duration_properties.
  do 2 apply list_elem_of_further. apply list_elem_of_here.
Defined.

Lemma keyboard_mode_follows_last_input_witness :
  Js.cl_contains "loaded"
    (AccessibilityEnhancer.docRun {[ "loaded" ]}
       [AccessibilityEnhancer.DocKeydown "Tab"; AccessibilityEnhancer.DocMousedown])
  = true.
Proof.
  destruct (keyboard_mode_follows_last_input {[ "loaded" ]}
              [AccessibilityEnhancer.DocKeydown "Tab"; AccessibilityEnhancer.DocMousedown]
              "loaded") as [_ H].
  rewrite H by discriminate. apply cl_contains_true, elem_of_singleton. reflexivity.
Defined.

End FurtherWitnesses.
